(** * cgptoolbox: named views, scoped overrides and the job-lease protocol

    A shallow embedding of
    - [cgp/cvodeint/namedcvodeint.py] ([Recarraylink], [Namedcvodeint]),
    - [cgp/physmod/cellmlmodel.py] ([Cellmlmodel.dynclamp]),
    - [cgp/GPmapsims/GPutils.py] ([touch], [find_jobID], [end_jobID]),
    followed by the properties proved about them.

    Python statements become computations in a state-and-exception monad;
    Numpy arrays and the solver's state vector live in a store indexed by
    object identity, so that two names for one array really alias. *)

From Stdlib Require Import ZArith PrimFloat String Ascii.
From Stdlib Require Import DecimalString DecimalPos DecimalZ.
From stdpp Require Import base option list gmap strings.

Local Open Scope string_scope.

(** ** Python control flow *)

Module Py.

(** The exception classes that the modelled code raises or catches. *)
Inductive exn : Type :=
| TypeError (msg : string)
| ValueError (msg : string)
| AttributeError (msg : string)
| IndexError (msg : string)
| OSError (path : string)
| IOError (path : string)
| LockTimeout (lockname : string)
| Exception (msg : string).

Inductive result (A : Type) : Type :=
| Ok (a : A)
| Raise (e : exn).
Arguments Ok {A} a.
Arguments Raise {A} e.

(** A statement run on a state [S]: it ends normally with a value or by
    raising, and in both cases the side effects made so far remain. *)
Definition M (S A : Type) : Type := S -> result A * S.

Definition ret {S A} (a : A) : M S A := fun s => (Ok a, s).

Definition bind {S A B} (m : M S A) (k : A -> M S B) : M S B :=
  fun s => match m s with
           | (Ok a, s') => k a s'
           | (Raise e, s') => (Raise e, s')
           end.

Definition raise {S A} (e : exn) : M S A := fun s => (Raise e, s).

Definition gets {S A} (f : S -> A) : M S A := fun s => (Ok (f s), s).

Definition modify {S} (f : S -> S) : M S unit := fun s => (Ok tt, f s).

(** [try: m  except E1: h1  except E2: h2 ...]: [handler e] is the clause
    that catches [e], if any. *)
Definition try_except {S A} (m : M S A) (handler : exn -> option (M S A))
  : M S A :=
  fun s => match m s with
           | (Ok a, s') => (Ok a, s')
           | (Raise e, s') =>
               match handler e with
               | Some h => h s'
               | None => (Raise e, s')
               end
           end.

(** [try: m  finally: fin].  The outcome of [m] is kept unless [fin]
    itself raises, in which case the new exception replaces it. *)
Definition try_finally {S A} (m : M S A) (fin : M S unit) : M S A :=
  fun s => match m s with
           | (r, s') =>
               match fin s' with
               | (Ok _, s'') => (r, s'')
               | (Raise e, s'') => (Raise e, s'')
               end
           end.

(** [for x in xs: body x] *)
Fixpoint for_ {S X} (xs : list X) (body : X -> M S unit) : M S unit :=
  match xs with
  | [] => ret tt
  | x :: xs' => bind (body x) (fun _ => for_ xs' body)
  end.

(** A generator decorated with [@contextmanager]: the code up to [yield]
    is [enter] (it returns the generator's locals [G] and the value [X]
    bound by [as]); the [finally] clause around [yield] is [exit].  In
    [with cm as x: body], an exception raised by [enter] skips both the
    body and [exit]. *)
Definition with_ {S G X A}
    (enter : M S (G * X)) (exit : G -> M S unit) (body : X -> M S A)
  : M S A :=
  bind enter (fun gx => try_finally (body gx.2) (exit gx.1)).

(** A statement that keeps relation [R] between the states before and
    after it, however it ends. *)
Definition keeps {S A} (R : S -> S -> Prop) (m : M S A) : Prop :=
  forall s r s', m s = (r, s') -> R s s'.

Module Notations.
Notation "x <- m ;; k" := (bind m (fun x => k))
  (at level 100, m at next level, right associativity).
Notation "m ;; k" := (bind m (fun _ => k))
  (at level 100, right associativity).
End Notations.

End Py.

Import Py Py.Notations.

(** ** Arrays and their identities *)

(** An array object (a Numpy array, or the solver's NVector) is named by a
    location; its contents are double-precision floats. *)
Abbreviation loc := nat (only parsing).

Record store : Type := mkStore {
  bufs : gmap loc (list float);   (* contents of every live array *)
  nrtfn : gmap loc nat            (* per solver handle: active root functions *)
}.

Definition set_bufs (f : gmap loc (list float) -> gmap loc (list float))
    (s : store) : store :=
  {| bufs := f (bufs s); nrtfn := nrtfn s |}.

Definition set_nrtfn (f : gmap loc nat -> gmap loc nat) (s : store) : store :=
  {| bufs := bufs s; nrtfn := f (nrtfn s) |}.

Module np.

(** Contents of array [a]; every reference held by the code is live. *)
Definition contents (a : loc) : M store (list float) :=
  fun s => match bufs s !! a with
           | Some xs => (Ok xs, s)
           | None => (Raise (Exception "dangling array reference"), s)
           end.

(** [np.array(x)], [np.copy(x)] as a new object. *)
Definition array (xs : list float) : M store loc :=
  fun s => let a := fresh (dom (bufs s)) in
           (Ok a, set_bufs <[a := xs]> s).

(** [a[:] = xs] between arrays of one shape. *)
Definition setslice (a : loc) (xs : list float) : M store unit :=
  old <- contents a;;
  if decide (length old = length xs)
  then modify (set_bufs <[a := xs]>)
  else raise (ValueError "could not broadcast input array").

(** [a[i] = v] *)
Definition setitem (a : loc) (i : nat) (v : float) : M store unit :=
  old <- contents a;;
  if decide (i < length old)
  then modify (set_bufs <[a := <[i := v]> old]>)
  else raise (IndexError "index out of bounds").

(** [names.index(k)]: position of the first occurrence. *)
Fixpoint index (k : string) (names : list string) : option nat :=
  match names with
  | [] => None
  | n :: names' => if decide (n = k) then Some 0 else S <$> index k names'
  end.

(** [k in names] *)
Definition mem (k : string) (names : list string) : bool :=
  bool_decide (k ∈ names).

End np.

(** ** [class Recarraylink] *)

Module Recarraylink.

(** [_x] is the array-like object the link was built on (shared with its
    owner), [_xa] the link's own ndarray.  [_xr] is a view of [_xa] under
    the record dtype and has no storage of its own: field [names !! i] of
    [_xr] is element [i] of [_xa]. *)
Record obj : Type := mk {
  _x : loc;
  _xa : loc;
  names : list string
}.

(** [_xr[attr]]; Numpy raises ValueError for an unknown field. *)
Definition field (self : obj) (attr : string) : M store nat :=
  match np.index attr (names self) with
  | Some i => ret i
  | None => raise (ValueError ("field named " ++ attr ++ " not found"))
  end.

Definition __init__ (x : loc) (dtype : list string) : M store obj :=
  xs <- np.contents x;;
  xa <- np.array xs;;
  if decide (length xs = length dtype)
  then ret {| _x := x; _xa := xa; names := dtype |}
  else raise (ValueError "new type not compatible with array").

(** Python calls [__getattr__] for attribute names that ordinary lookup
    does not find, which is the case for every field name other than the
    instance attributes [_x], [_xa], [_xr].  The handler delegates to
    [super().__getattr__], which [object] does not define. *)
Definition __getattr__ (self : obj) (attr : string) : M store float :=
  try_except
    (xs <- np.contents (_x self);;
     np.setslice (_xa self) xs;;
     i <- field self attr;;
     xa <- np.contents (_xa self);;
     match xa !! i with
     | Some v => ret v
     | None => raise (IndexError "index out of bounds")
     end)
    (fun e => match e with
              | ValueError _ =>
                  Some (raise (AttributeError
                    "'super' object has no attribute '__getattr__'"))
              | _ => None
              end).

(** What an attribute assignment ended up doing. *)
Inductive assigned : Type :=
| FieldSet            (* the record field was set and written through *)
| InstanceAttribute.  (* passed on to [object.__setattr__] *)

Definition __setattr__ (self : obj) (attr : string) (val : float)
  : M store assigned :=
  try_except
    (xs <- np.contents (_x self);;
     np.setslice (_xa self) xs;;
     i <- field self attr;;
     np.setitem (_xa self) i val;;
     xa <- np.contents (_xa self);;
     np.setslice (_x self) xa;;
     ret FieldSet)
    (fun e => match e with
              | ValueError _ => Some (ret InstanceAttribute)
              | _ => None
              end).

(** [__array__]: the record view of the link's own ndarray, as it is. *)
Definition __array__ (self : obj) : M store (list float) :=
  np.contents (_xa self).

End Recarraylink.

(** ** [class Namedcvodeint] *)

(** An ODE right-hand side [f_ode(t, y, ydot, f_data)].  It reads the state
    it is given and, through its closure, the parameter arrays in the
    store; it fills [ydot] in place (here: returns the filled vector) and
    returns a flag, [None] standing for Python's [None]. *)
Definition rhs : Type :=
  float -> list float -> list float -> store -> list float * option Z.

(** Element [i] of a vector that is long enough. *)
Definition item (xs : list float) (i : nat) : float :=
  default 0%float (xs !! i).

Module Namedcvodeint.

Record obj : Type := mk {
  f_ode : rhs;
  t : list float;
  y : loc;                    (* state NVector, shared with the solver *)
  yr : Recarraylink.obj;      (* Recarraylink(self.y, y.dtype) *)
  pr : loc;                   (* parameter recarray, the caller's object *)
  dtype_y : list string;      (* self.dtype.y.names *)
  dtype_p : list string;      (* self.dtype.p.names *)
  cvode_mem : loc             (* solver handle *)
}.

(** Modelled from the spec: [Cvodeint.__init__] and [Cvodeint.RootInit] of
    [cvodeint.core], which is not among the sources.  Construction gives
    the instance a state vector of its own, initialised from [y], and an
    independent solver handle with no root functions; [RootInit(n)] sets
    the number of active root functions of that handle. *)
Definition Cvodeint__init__ (y0 : list float) : M store (loc * loc) :=
  y_ <- np.array y0;;
  mem <- gets (fun s => fresh (dom (nrtfn s)));;
  modify (set_nrtfn <[mem := 0]>);;
  ret (y_, mem).

(** Modelled from the spec: [Cvodeint.RootInit], see above. *)
Definition RootInit (self : obj) (n : nat) : M store unit :=
  modify (set_nrtfn <[cvode_mem self := n]>).

(** [Namedcvodeint(f_ode, t, y, p)]: [y] is a record array, given by its
    values and field names; [p] is kept by reference. *)
Definition __init__ (f : rhs) (t0 : list float)
    (y0 : list float) (y_names : list string)
    (p : loc) (p_names : list string) : M store obj :=
  ym <- Cvodeint__init__ y0;;
  link <- Recarraylink.__init__ ym.1 y_names;;
  ret {| f_ode := f; t := t0; y := ym.1; yr := link; pr := p;
         dtype_y := y_names; dtype_p := p_names; cvode_mem := ym.2 |}.

(** [Namedcvodeint.example()]: the van der Pol model, as the arguments
    [ode, t, y, p] of the constructor. *)
Definition vanderpol (p : loc) : rhs :=
  fun _ y ydot s =>
    let epsilon := item (default [] (bufs s !! p)) 0 in
    let ydot := <[0 := item y 1]> ydot in
    let ydot :=
      <[1 := (epsilon * (1 - item y 0 * item y 0) * item y 1 - item y 0)%float]>
        ydot in
    (ydot, None).

Definition example
  : M store (rhs * list float * (list float * list string)
             * (loc * list string)) :=
  p <- np.array [1%float];;
  ret (vanderpol p, [0%float; 1%float],
       ([(-2)%float; 0%float], ["x"; "y"]), (p, ["epsilon"])).

(** [Namedcvodeint()] with no arguments: [__init__] calls itself on the
    components of [self.example()]. *)
Definition __init__default : M store obj :=
  args <- example;;
  let '(ode, t0, (y0, y_names), (p, p_names)) := args in
  __init__ ode t0 y0 y_names p p_names.

(** [p[k] = v] and [p.k = v] on a record array: unknown fields are a
    ValueError. *)
Definition setfield (a : loc) (names : list string) (k : string) (v : float)
  : M store unit :=
  match np.index k names with
  | Some i => np.setitem a i v
  | None => raise (ValueError ("field named " ++ k ++ " not found"))
  end.

(** [p.k] on a record array. *)
Definition getfield (a : loc) (names : list string) (k : string)
  : M store float :=
  match np.index k names with
  | Some i => xs <- np.contents a;; ret (item xs i)
  | None => raise (AttributeError ("record array has no attribute " ++ k))
  end.

(** *** [autorestore] *)

(** Python values compared by the test
    [k not in [self.dtype.y.names + self.dtype.p.names]]: the list has one
    element, the concatenated tuple of names, and [k] is a string. *)
Inductive pyobj : Type :=
| PyStr (s : string)
| PyTuple (items : list string).

Definition py_eq (a b : pyobj) : bool :=
  match a, b with
  | PyStr s1, PyStr s2 => bool_decide (s1 = s2)
  | PyTuple t1, PyTuple t2 => bool_decide (t1 = t2)
  | _, _ => false
  end.

Definition py_in (a : pyobj) (l : list pyobj) : bool := existsb (py_eq a) l.

(** [_y.squeeze()] of data that is already a flat vector. *)
Definition squeeze (xs : list float) : list float := xs.

(** One round of [for k, v in kwargs.items(): ...]. *)
Definition override (self : obj) (kv : string * float) : M store unit :=
  let k := kv.1 in
  let v := kv.2 in
  if np.mem k (dtype_p self) && negb (np.mem k (dtype_y self)) then
    setfield (pr self) (dtype_p self) k v
  else if np.mem k (dtype_y self) && negb (np.mem k (dtype_p self)) then
    Recarraylink.__setattr__ (yr self) k v;; ret tt
  else if negb (py_in (PyStr k) [PyTuple (dtype_y self ++ dtype_p self)]) then
    raise (TypeError ("Key " ++ k ++ " not in parameter or rate vectors"))
  else
    raise (TypeError
             ("Key " ++ k ++ " occurs in both parameter and state vectors")).

(** The whole-vector overrides [_p] and [_y].  The state vector and [_y]
    are flat vectors of floats here, so the TypeError clause (for a
    record passed as [_y]) cannot be reached. *)
Definition override_vectors (self : obj) (_p _y : option (list float))
  : M store unit :=
  (match _p with
   | Some p => np.setslice (pr self) p
   | None => ret tt
   end);;
  match _y with
  | Some y0 =>
      try_except (np.setslice (y self) y0)
        (fun e => match e with
                  | ValueError _ => Some (np.setslice (y self) (squeeze y0))
                  | TypeError _ => Some (np.setslice (y self) y0)
                  | _ => None
                  end)
  | None => ret tt
  end.

(** Up to [yield]: the generator keeps the copies [oldy], [oldpar]. *)
Definition autorestore_enter (self : obj) (_p _y : option (list float))
    (kwargs : list (string * float))
  : M store ((list float * list float) * unit) :=
  oldy <- np.contents (y self);;
  oldpar <- np.contents (pr self);;
  override_vectors self _p _y;;
  for_ kwargs (override self);;
  ret ((oldy, oldpar), tt).

(** The [finally] clause. *)
Definition autorestore_exit (self : obj) (old : list float * list float)
  : M store unit :=
  RootInit self 0;;
  np.setslice (y self) old.1;;
  np.setslice (pr self) old.2.

(** [with self.autorestore(_p, _y, k1=v1, ...): body] *)
Definition autorestore {A} (self : obj) (_p _y : option (list float))
    (kwargs : list (string * float)) (body : M store A) : M store A :=
  with_ (autorestore_enter self _p _y kwargs) (autorestore_exit self)
    (fun _ => body).

(** *** [clamp] *)

(** The local variable [v] of [clamp].  It is first bound to the array of
    all clamp values and then re-used as the loop variable of
    [for k, v in kwargs.items()], which leaves it bound to a single
    value.  The nested function [clamped] refers to the variable, not to
    the value it had when the function was defined. *)
Inductive local_v : Type :=
| Array (vs : list float)
| Scalar (v : float).

(** [a[i] = v] for an index array [i]. *)
Definition setitems (a : list float) (i : list nat) (v : local_v)
  : list float :=
  match v with
  | Array vs => foldl (fun a jv => <[jv.1 := jv.2]> a) a (zip i vs)
  | Scalar x => foldl (fun a j => <[j := x]> a) a i
  end.

(** [def clamped(t, y, ydot, f_data)] with its free variables. *)
Definition clamped (self : obj) (i : list nat) (v : local_v) : rhs :=
  fun t0 y0 ydot s =>
    let y_ := setitems y0 i v in
    let ydot := (f_ode self t0 y_ ydot s).1 in
    let ydot := setitems ydot i (Scalar 0%float) in
    (ydot, Some 0%Z).

(** [[self.dtype.y.names.index(k) for k in kwargs.keys()]] *)
Fixpoint indices (names : list string) (keys : list string)
  : M store (list nat) :=
  match keys with
  | [] => ret []
  | k :: keys' =>
      match np.index k names with
      | Some j => js <- indices names keys';; ret (j :: js)
      | None => raise (ValueError (k ++ " is not in list"))
      end
  end.

(** [for k, v in kwargs.items(): y[k] = v], threading the copy [y] of the
    state and the variable [v]. *)
Fixpoint initialize (names : list string) (kwargs : list (string * float))
    (y0 : list float) (v : local_v) : M store (list float * local_v) :=
  match kwargs with
  | [] => ret (y0, v)
  | (k, v') :: kwargs' =>
      match np.index k names with
      | Some j => initialize names kwargs' (<[j := v']> y0) (Scalar v')
      | None => raise (ValueError ("field named " ++ k ++ " not found"))
      end
  end.

(** [if "stim_amplitude" in clamped.dtype.p.names:
        clamped.pr.stim_amplitude = 0] *)
Definition disable_stimulus (clamped : obj) : M store unit :=
  if np.mem "stim_amplitude" (dtype_p clamped)
  then setfield (pr clamped) (dtype_p clamped) "stim_amplitude" 0%float
  else ret tt.

(** The [finally] clause of [clamp], repeated verbatim in
    [Cellmlmodel.dynclamp]. *)
Definition copy_back (self clamped : obj) : M store unit :=
  for_ (dtype_y clamped) (fun k =>
    if np.mem k (dtype_y self)
    then v <- Recarraylink.__getattr__ (yr clamped) k;;
         Recarraylink.__setattr__ (yr self) k v;; ret tt
    else ret tt).

(** Up to [yield clamped].  [clamped] is defined before the loop that
    initialises [y], but it is only called later, by the solver, and then
    finds [v] as the loop left it: [yv.2].  The solver options copied into
    [oldkwargs] have no counterpart in the model. *)
Definition clamp_enter (self : obj) (kwargs : list (string * float))
  : M store (obj * obj) :=
  i <- indices (dtype_y self) kwargs.*1;;
  let v := Array kwargs.*2 in
  y0 <- np.contents (y self);;
  yv <- initialize (dtype_y self) kwargs y0 v;;
  c <- __init__ (clamped self i yv.2) (t self) yv.1 (dtype_y self)
         (pr self) (dtype_p self);;
  disable_stimulus c;;
  ret (c, c).

(** [with self.clamp(k1=v1, ...) as clamped: body clamped] *)
Definition clamp {A} (self : obj) (kwargs : list (string * float))
    (body : obj -> M store A) : M store A :=
  with_ (clamp_enter self kwargs) (copy_back self) body.

(** *** [rates] *)

(** [for i in range(len(t)): self.f_ode(t[i], y[i], ydot[i], None)]:
    the right-hand side fills row [i] of [ydot]. *)
Fixpoint rates_loop (self : obj) (i : nat) (t0 : list float)
    (y0 ydot : list (list float)) : M store (list (list float)) :=
  match t0 with
  | [] => ret ydot
  | ti :: t' =>
      match y0 !! i, ydot !! i with
      | Some yi, Some row =>
          row' <- gets (fun s => (f_ode self ti yi row s).1);;
          rates_loop self (S i) t' y0 (<[i := row']> ydot)
      | _, _ => raise (IndexError "index out of bounds")
      end
  end.

(** The length of the last axis of [ydot.squeeze()].  The rows of a numpy
    matrix have one width; [squeeze] drops every axis of length one, so a
    single row leaves its width and a single column leaves the number of
    rows. *)
Definition last_axis (rows : list (list float)) : nat :=
  match rows with
  | [] => 0
  | [row] => length row
  | row :: _ => if (length row =? 1)%nat then length rows else length row
  end.

(** [ydot.squeeze().view(self.dtype.y, np.recarray)]: the values get the
    field names, which needs a last axis whose length is a multiple of the
    number of fields; the values stay as they are. *)
Definition view_rows (names : list string) (rows : list (list float))
  : M store (list (list float)) :=
  if (0 <? length names)%nat
     && (last_axis rows mod length names =? 0)%nat
  then ret rows
  else raise (ValueError "new type not compatible with array").

(** [rates(self, t, y, par=None)] for a vector [t] of times and the matrix
    [y] whose row [i] is the state at time [t[i]]. *)
Definition rates (self : obj) (t0 : list float) (y0 : list (list float))
    (par : option (list float)) : M store (list (list float)) :=
  let ydot := (fun row => replicate (length row) 0%float) <$> y0 in
  ydot <- autorestore self par None [] (rates_loop self 0 t0 y0 ydot);;
  view_rows (dtype_y self) ydot.

End Namedcvodeint.

(** ** [Cellmlmodel.dynclamp] *)

Module Cellmlmodel.
Import Namedcvodeint.

(** [def dynclamped(t, y, ydot, f_data)] with its free variables. *)
Definition dynclamped (self : obj) (setpoint R : float) (iV iion : nat)
    (scale : float) : rhs :=
  fun t0 y0 ydot s =>
    let ydot := (f_ode self t0 y0 ydot s).1 in
    let I_app := ((item y0 iV - setpoint) / R)%float in
    let ydot := <[iV := (item ydot iV - I_app)%float]> ydot in
    let ydot := <[iion := (item ydot iion - I_app * scale)%float]> ydot in
    (ydot, Some 0%Z).

Definition index_of (names : list string) (k : string) : M store nat :=
  match np.index k names with
  | Some j => ret j
  | None => raise (ValueError (k ++ " is not in list"))
  end.

(** Up to [yield clamped]; the defaults are [R=0.02, V="V", ion="Ki"]. *)
Definition dynclamp_enter (self : obj) (setpoint R : float) (V ion : string)
    (scale : option float) : M store (obj * obj) :=
  scale <- match scale with
           | Some sc => ret sc
           | None =>
               Acap <- getfield (pr self) (dtype_p self) "Acap";;
               Cm <- getfield (pr self) (dtype_p self) "Cm";;
               Vmyo <- getfield (pr self) (dtype_p self) "Vmyo";;
               F <- getfield (pr self) (dtype_p self) "F";;
               ret (Acap * Cm / (Vmyo * F))%float
           end;;
  iV <- index_of (dtype_y self) V;;
  iion <- index_of (dtype_y self) ion;;
  y0 <- np.contents (y self);;
  c <- __init__ (dynclamped self setpoint R iV iion scale) (t self) y0
         (dtype_y self) (pr self) (dtype_p self);;
  disable_stimulus c;;
  ret (c, c).

Definition dynclamp {A} (self : obj) (setpoint R : float) (V ion : string)
    (scale : option float) (body : obj -> M store A) : M store A :=
  with_ (dynclamp_enter self setpoint R V ion scale) (copy_back self) body.

End Cellmlmodel.

(** ** [GPutils]: job ids for embarrassingly parallel jobs *)

Module GPutils.

(** The settings dict [d].  Every path of a configuration is the name of
    an entry of the one directory [SimID], the directory that
    [os.listdir] scans. *)
Record config : Type := mkConfig {
  Nsims : Z;
  jobfile : string;
  lockfile : string;
  SimID : string;
  errorfile : string
}.

(** The directory: file name to file contents. *)
Abbreviation dir := (gmap string string).

(** *** The string operations used on file names and contents *)

(** [sub in s] *)
Fixpoint contains (sub s : string) : bool :=
  String.prefix sub s
  || match s with
     | "" => false
     | String _ s' => contains sub s'
     end.

(** [s.split(sep)] for a one-character separator. *)
Fixpoint split (sep : ascii) (s : string) : list string :=
  match s with
  | "" => [""]
  | String c s' =>
      if decide (c = sep) then "" :: split sep s'
      else match split sep s' with
           | w :: ws => String c w :: ws
           | [] => [String c ""]
           end
  end.

(** [s.lstrip()], [s.rstrip()], [s.strip()] *)
Fixpoint lstrip (s : string) : string :=
  match s with
  | "" => ""
  | String c s' => if Ascii.is_space c then lstrip s' else s
  end.

Fixpoint rstrip (s : string) : string :=
  match s with
  | "" => ""
  | String c s' =>
      match rstrip s' with
      | "" => if Ascii.is_space c then "" else String c ""
      | r => String c r
      end
  end.

Definition strip (s : string) : string := rstrip (lstrip s).

(** [str(n)] for an integer. *)
Definition str (n : Z) : string := NilZero.string_of_int (Z.to_int n).

(** [int(s)]: surrounding white space, an optional sign, decimal digits;
    [None] stands for the ValueError.  Whenever this function returns a
    number, so does Python, and the same one; the properties below use it
    in that direction only. *)
Definition int (s : string) : option Z :=
  match strip s with
  | String "+" r =>
      match r with
      | String "-" _ => None
      | _ => Z.of_int <$> NilZero.int_of_string r
      end
  | r => Z.of_int <$> NilZero.int_of_string r
  end.

Definition int_ (s : string) : M dir Z :=
  match int s with
  | Some n => ret n
  | None => raise (ValueError ("invalid literal for int(): " ++ s))
  end.

(** [file.split('_')[-1].split('.')[0]] *)
Definition id_part (file : string) : string :=
  hd "" (split "." (List.last (split "_" file) "")).

(** ["%s_timeout_%s" % (d["jobfile"], jobID)] and the two pickle names. *)
Definition timeout_name (d : config) (jobID : Z) : string :=
  jobfile d ++ "_timeout_" ++ str jobID.

Definition error_name (d : config) (jobID : Z) : string :=
  errorfile d ++ "_" ++ str jobID ++ ".pickle".

Definition redone_name (d : config) (jobID : Z) : string :=
  jobfile d ++ "_redone_" ++ str jobID ++ ".pickle".

(** *** File operations *)

Definition exists_ (path : string) : M dir bool :=
  gets (fun fs : dir => bool_decide (is_Some (fs !! path))).

(** [open(path, "w")] followed by writing [text] and closing. *)
Definition write (path text : string) : M dir unit :=
  modify (fun fs : dir => <[path := text]> fs).

(** [open(path).read()] *)
Definition read (path : string) : M dir string :=
  fun fs => match fs !! path with
            | Some text => (Ok text, fs)
            | None => (Raise (IOError path), fs)
            end.

(** [os.remove(path)] *)
Definition remove (path : string) : M dir unit :=
  fun fs => match fs !! path with
            | Some _ => (Ok tt, delete path fs)
            | None => (Raise (OSError path), fs)
            end.

(** [shutil.move(src, dst)] between files of one directory: a rename
    that replaces [dst]. *)
Definition move (src dst : string) : M dir unit :=
  fun fs => match fs !! src with
            | Some payload => (Ok tt, <[dst := payload]> (delete src fs))
            | None => (Raise (IOError src), fs)
            end.

(** [os.listdir(d['SimID'])] *)
Definition listdir : M dir (list string) :=
  gets (fun fs : dir => elements (dom fs)).

(** [touch(path)]; modification times are not part of the directory. *)
Definition touch (path : string) : M dir unit :=
  e <- exists_ path;;
  if e then ret tt else write path "".

(** Modelled from the spec: the advisory lock [Lock] of
    [cgp.utils.poormanslock], which is not among the sources.  Entering
    creates the lock file, and fails once [max_wait] has passed if it is
    already there (nobody else runs in this model to release it); leaving
    removes it. *)
Definition Lock_enter (lockname : string) : M dir (unit * unit) :=
  held <- exists_ lockname;;
  if held then raise (LockTimeout lockname)
  else write lockname "";; ret (tt, tt).

(** Modelled from the spec: leaving the [with Lock(...)] block, see
    above. *)
Definition Lock_exit (lockname : string) (_ : unit) : M dir unit :=
  remove lockname.

(** *** [find_jobID] *)

(** [for file in files: if 'error' in file: jobID = int(...); break] *)
Fixpoint scan_errors (files : list string) (jobID : Z) : M dir Z :=
  match files with
  | [] => ret jobID
  | file :: files' =>
      if contains "error" file then int_ (id_part file)
      else scan_errors files' jobID
  end.

(** [for file in files: if 'job_timeout' in file: jobID = int(...)] *)
Fixpoint scan_timeouts (files : list string) (jobID : Z) : M dir Z :=
  match files with
  | [] => ret jobID
  | file :: files' =>
      if contains "job_timeout" file
      then jobID' <- int_ (id_part file);; scan_timeouts files' jobID'
      else scan_timeouts files' jobID
  end.

(** The body of [with Lock(...)].  [shuffle] is the outcome of
    [np.random.shuffle] on the listing. *)
Definition locked (d : config) (shuffle : list string -> list string)
  : M dir Z :=
  text <- read (jobfile d);;
  jobID <- int_ text;;
  if (jobID <? Nsims d)%Z then
    write (jobfile d) "";;
    touch (timeout_name d jobID);;
    write (jobfile d) (str (jobID + 1));;
    ret jobID
  else
    files <- listdir;;
    let files := shuffle files in
    jobID <- scan_errors files jobID;;
    if (jobID <? Nsims d)%Z then
      touch (timeout_name d jobID);;
      move (error_name d jobID) (redone_name d jobID);;
      ret jobID
    else
      jobID <- scan_timeouts files jobID;;
      if (jobID <? Nsims d)%Z then
        touch (timeout_name d jobID);;
        ret jobID
      else
        ret (Nsims d).

Definition find_jobID (d : config) (shuffle : list string -> list string)
  : M dir Z :=
  present <- exists_ (jobfile d);;
  (if present then ret tt else write (jobfile d) "0");;
  with_ (Lock_enter (lockfile d)) (Lock_exit (lockfile d))
    (fun _ => locked d shuffle).

Definition end_jobID (d : config) (jobID : Z) : M dir unit :=
  remove (timeout_name d jobID).

(** *** Sessions *)

(** A sequence of calls as in the module's doctest. *)
Inductive call : Type :=
| Find                       (* jobID = find_jobID(d) *)
| End (jobID : Z)            (* end_jobID(d, jobID) *)
| Touch (path : string).     (* touch(path) *)

(** Runs the calls and collects the ids that [find_jobID] returned. *)
Fixpoint session (d : config) (shuffle : list string -> list string)
    (calls : list call) : M dir (list Z) :=
  match calls with
  | [] => ret []
  | Find :: calls' =>
      jobID <- find_jobID d shuffle;;
      ids <- session d shuffle calls';;
      ret (jobID :: ids)
  | End jobID :: calls' => end_jobID d jobID;; session d shuffle calls'
  | Touch path :: calls' => touch path;; session d shuffle calls'
  end.

(** Acquire, and release the id when [release] says so: one call per job
    of the first pass. *)
Definition lease (release : Z -> bool) (jobID : Z) : list call :=
  Find :: (if release jobID then [End jobID] else []).

Definition first_pass (release : Z -> bool) (N : nat) : list call :=
  flat_map (lease release) (Z.of_nat <$> seq 0 N).

End GPutils.

(** ** [cellmlmodel]: names of the variables of a CellML model *)

Module cellmlmodel.

(** [Legend = namedtuple("Legend", "name component unit")], as
    [parse_legend] builds it: one tuple per attribute. *)
Record Legend : Type := mkLegend {
  name : list string;
  component : list string;
  unit : list string
}.

Inductive error : Type :=
| ValueError (msg : string)
| AssertionError (msg : string)
| KeyError (key : string).

(** How a call ends. *)
Inductive outcome (A : Type) : Type :=
| Returned (a : A)
| Raised (e : error).
Arguments Returned {A} a.
Arguments Raised {A} e.

(** [L.remove(i)]: the first occurrence of [i] goes; ValueError when there
    is none. *)
Fixpoint remove (i : string) (L : list string) : outcome (list string) :=
  match L with
  | [] => Raised (ValueError "list.remove(x): x not in list")
  | x :: L' =>
      if decide (x = i) then Returned L'
      else match remove i L' with
           | Returned L'' => Returned (x :: L'')
           | Raised e => Raised e
           end
  end.

(** [for i in uniq: L.remove(i)] *)
Fixpoint remove_each (uniq : list string) (L : list string)
  : outcome (list string) :=
  match uniq with
  | [] => Returned L
  | i :: uniq' =>
      match remove i L with
      | Returned L' => remove_each uniq' L'
      | Raised e => Raised e
      end
  end.

(** [dup(L)].  [order] is the order in which Python iterates over the set
    [set(L)]. *)
Definition dup (order : list string -> list string) (L : list string)
  : outcome (list string) :=
  remove_each (order (remove_dups L)) L.

(** [for i, n in enumerate(name): if n in dupnames: name[i] = "%s__%s" % (n, i)] *)
Definition rename (dupnames : list string) (names : list string)
  : list string :=
  imap (fun i n =>
          if bool_decide (n ∈ dupnames)
          then n ++ "__" ++ GPutils.str (Z.of_nat i)
          else n) names.

(** [dict((k, dup(v.name)) for k, v in legend.items() if v)] *)
Fixpoint dups_of (order : list string -> list string)
    (items : list (string * option Legend))
  : outcome (list (string * list string)) :=
  match items with
  | [] => Returned []
  | (_, None) :: items' => dups_of order items'
  | (k, Some v) :: items' =>
      match dup order (name v) with
      | Raised e => Raised e
      | Returned dupnames =>
          match dups_of order items' with
          | Raised e => Raised e
          | Returned d => Returned ((k, dupnames) :: d)
          end
      end
  end.

(** [for k, dupnames in d.items(): ...] on the copy [L] of the legend. *)
Fixpoint disambiguate (order : list string -> list string)
    (d : list (string * list string)) (L : gmap string (option Legend))
  : outcome (gmap string (option Legend)) :=
  match d with
  | [] => Returned L
  | (k, dupnames) :: d' =>
      match L !! k with
      | Some (Some v) =>
          let name' := rename dupnames (name v) in
          match dup order name' with
          | Raised e => Raised e
          | Returned [] =>
              disambiguate order d'
                (<[k := Some (mkLegend name' (component v) (unit v))]> L)
          | Returned _ =>
              Raised (AssertionError "Failed to disambiguate names")
          end
      | _ => Raised (KeyError k)
      end
  end.

(** [dtypes(legend)]: a dict from the keys of the legend to the field
    names of the dtype, every field being of type [ftype]; [None] for a
    key without a legend. *)
Definition dtypes (order : list string -> list string)
    (legend : gmap string (option Legend))
  : outcome (gmap string (option (list string))) :=
  match dups_of order (map_to_list legend) with
  | Raised e => Raised e
  | Returned d =>
      let d := filter (fun kv => kv.2 ≠ []) d in
      match (if decide (d = []) then Returned legend
             else disambiguate order d legend) with
      | Raised e => Raised e
      | Returned L =>
          Returned ((fun v : option Legend => name <$> v) <$> L)
      end
  end.

End cellmlmodel.

(** ** Well-formed objects *)

(** A link whose two arrays are live, distinct and as long as the record
    has fields: what [Recarraylink.__init__] establishes, and what in-place
    assignment preserves. *)
Definition linked (r : Recarraylink.obj) (s : store) : Prop :=
  Recarraylink._x r ≠ Recarraylink._xa r
  ∧ ∃ xs xa,
      bufs s !! Recarraylink._x r = Some xs
      ∧ bufs s !! Recarraylink._xa r = Some xa
      ∧ length xs = length (Recarraylink.names r)
      ∧ length xa = length (Recarraylink.names r).

(** A model as [Namedcvodeint.__init__] builds it: [yr] links the state
    vector under the state dtype, and the parameter array is another
    object, with one float per parameter name. *)
Definition model (m : Namedcvodeint.obj) (s : store) : Prop :=
  Recarraylink._x (Namedcvodeint.yr m) = Namedcvodeint.y m
  ∧ Recarraylink.names (Namedcvodeint.yr m) = Namedcvodeint.dtype_y m
  ∧ linked (Namedcvodeint.yr m) s
  ∧ Namedcvodeint.pr m ≠ Namedcvodeint.y m
  ∧ Namedcvodeint.pr m ≠ Recarraylink._xa (Namedcvodeint.yr m)
  ∧ ∃ ps, bufs s !! Namedcvodeint.pr m = Some ps
          ∧ length ps = length (Namedcvodeint.dtype_p m).

(** Array [p] holds the same values in [s'] as in [s]. *)
Definition untouched (p : loc) (s s' : store) : Prop :=
  bufs s' !! p = bufs s !! p.

(** Two models that share no state array (they may share parameters). *)
Definition separate (m c : Namedcvodeint.obj) : Prop :=
  let mx := Recarraylink._x (Namedcvodeint.yr m) in
  let ma := Recarraylink._xa (Namedcvodeint.yr m) in
  let cx := Recarraylink._x (Namedcvodeint.yr c) in
  let ca := Recarraylink._xa (Namedcvodeint.yr c) in
  mx ≠ cx ∧ mx ≠ ca ∧ ma ≠ cx ∧ ma ≠ ca.

(** The origin's state vector [oy] after the fields [ks] have been copied
    from a variant whose state vector is [vy]: the function that the loop of
    [Namedcvodeint.copy_back] is shown to compute. *)
Fixpoint copied (onames vnames : list string) (vy : list float)
    (ks : list string) (oy : list float) : list float :=
  match ks with
  | [] => oy
  | k :: ks' =>
      copied onames vnames vy ks'
        match np.index k onames, np.index k vnames with
        | Some i, Some j => <[i := item vy j]> oy
        | _, _ => oy
        end
  end.

(** The right-hand side that the description of [clamp] asks for: every
    clamped position is given its own fixed value before the original
    right-hand side is called, and its rate is zeroed afterwards. *)
Definition clamped_as_specified (self : Namedcvodeint.obj)
    (kwargs : list (nat * float)) : rhs :=
  fun t0 y0 ydot s =>
    let y_ := foldl (fun a jv => <[jv.1 := jv.2]> a) y0 kwargs in
    let ydot := (Namedcvodeint.f_ode self t0 y_ ydot s).1 in
    (foldl (fun a jv => <[jv.1 := 0%float]> a) ydot kwargs, Some 0%Z).



(** ** The state of the job directory *)

(** Every character of [s] satisfies [P]. *)
Fixpoint chars (P : ascii → bool) (s : string) : bool :=
  match s with
  | "" => true
  | String c s' => P c && chars P s'
  end.

Definition is_digit (c : ascii) : bool :=
  match Ascii.is_nat c with Some _ => true | None => false end.

(** The shared counter stands at [k]: the job file holds the text of [k],
    or does not exist yet and [k] is 0. *)
Definition counter (d : GPutils.config) (fs : gmap string string) (k : Z)
  : Prop :=
  match fs !! GPutils.jobfile d with
  | Some text => GPutils.int text = Some k
  | None => k = 0%Z
  end.

(** The names that the scan for redo candidates would pick up. *)
Definition looks_like_marker (name : string) : bool :=
  GPutils.contains "error" name || GPutils.contains "job_timeout" name.

(** Nothing in the directory, nor the job file or the lock, has such a
    name. *)
Definition no_markers (d : GPutils.config) (fs : gmap string string) : Prop :=
  ∀ name,
    is_Some (fs !! name) ∨ name = GPutils.jobfile d
    ∨ name = GPutils.lockfile d →
    looks_like_marker name = false.

(** The directory after job [k] has been handed out in the first pass. *)
Definition leased (d : GPutils.config) (k : Z) (fs : gmap string string)
  : gmap string string :=
  <[GPutils.jobfile d := GPutils.str (k + 1)]>
    (<[GPutils.timeout_name d k :=
         default "" (fs !! GPutils.timeout_name d k)]> fs).

(** What holds between two calls of the first pass: the counter stands at
    [k], the lock is free, and the ids below [k] that were not released
    still have their timeout markers. *)
Definition between (d : GPutils.config) (release : Z → bool)
    (fs : gmap string string) (k : Z) : Prop :=
  counter d fs k
  ∧ fs !! GPutils.lockfile d = None
  ∧ ∀ j, (0 ≤ j < k)%Z → release j = false →
         is_Some (fs !! GPutils.timeout_name d j).

(** A name is listed while the lock is held: it is the lock, the job
    file, or a file of the directory. *)
Definition listed (d : GPutils.config) (fs : gmap string string)
    (f : string) : Prop :=
  is_Some (fs !! f) ∨ f = GPutils.jobfile d ∨ f = GPutils.lockfile d.

(** A statement that does not take away the file [lock]. *)
Definition lock_kept (lock : string) (fs fs' : gmap string string) : Prop :=
  is_Some (fs !! lock) → is_Some (fs' !! lock).

(** The names that the module builds for a job are those of different
    files, and none of them is the lock. *)
Definition distinct_names (d : GPutils.config) : Prop :=
  GPutils.lockfile d ≠ GPutils.jobfile d
  ∧ ∀ k, GPutils.timeout_name d k ≠ GPutils.lockfile d
         ∧ GPutils.redone_name d k ≠ GPutils.lockfile d
         ∧ GPutils.error_name d k ≠ GPutils.lockfile d
         ∧ GPutils.error_name d k ≠ GPutils.jobfile d
         ∧ GPutils.error_name d k ≠ GPutils.redone_name d k.

(** ** Repeated names *)

(** The elements of [L] that repeat an earlier element or an element of
    [seen], in their order. *)
Fixpoint repeats_after (seen L : list string) : list string :=
  match L with
  | [] => []
  | x :: L' =>
      if decide (x ∈ seen) then x :: repeats_after seen L'
      else repeats_after (x :: seen) L'
  end.

Definition repeats (L : list string) : list string := repeats_after [] L.

(** The names of a legend entry as [dtypes] leaves them: every name that
    has a duplicate gets its position appended. *)
Definition disambiguated (names : list string) : list string :=
  cellmlmodel.rename (repeats names) names.

(** The legend with the names of every entry disambiguated. *)
Definition relabel (v : cellmlmodel.Legend) : cellmlmodel.Legend :=
  cellmlmodel.mkLegend (disambiguated (cellmlmodel.name v))
    (cellmlmodel.component v) (cellmlmodel.unit v).

(** The duplicated names found in the items of a legend. *)
Definition named (items : list (string * option cellmlmodel.Legend))
  : list (string * list string) :=
  omap (fun kv : string * option cellmlmodel.Legend =>
          match kv.2 with
          | Some v => Some (kv.1, repeats (cellmlmodel.name v))
          | None => None
          end) items.

(** ** Concrete models and configurations *)

(** The van der Pol model that [Namedcvodeint()] builds in an empty
    store: parameters at location 0, state vector at 1, the link's
    own array at 2. *)
Definition vdp : Namedcvodeint.obj :=
  {| Namedcvodeint.f_ode := Namedcvodeint.vanderpol 0;
     Namedcvodeint.t := [0; 1]%float;
     Namedcvodeint.y := 1;
     Namedcvodeint.yr :=
       {| Recarraylink._x := 1; Recarraylink._xa := 2;
          Recarraylink.names := ["x"; "y"] |};
     Namedcvodeint.pr := 0;
     Namedcvodeint.dtype_y := ["x"; "y"];
     Namedcvodeint.dtype_p := ["epsilon"];
     Namedcvodeint.cvode_mem := 0 |}.

Definition vdp_store : store :=
  mkStore {[ 0 := [1%float]; 1 := [(-2)%float; 0%float];
             2 := [(-2)%float; 0%float] ]}
          {[ 0 := 0 ]}.

(** The model that [vdp.clamp(x=0.5)] derives in [vdp_store], and the
    store when its block is entered.  The two models share the parameter
    array at location 0. *)
Definition vdp_clamped : Namedcvodeint.obj :=
  {| Namedcvodeint.f_ode :=
       Namedcvodeint.clamped vdp [0] (Namedcvodeint.Scalar 0.5%float);
     Namedcvodeint.t := [0; 1]%float;
     Namedcvodeint.y := 3;
     Namedcvodeint.yr :=
       {| Recarraylink._x := 3; Recarraylink._xa := 4;
          Recarraylink.names := ["x"; "y"] |};
     Namedcvodeint.pr := 0;
     Namedcvodeint.dtype_y := ["x"; "y"];
     Namedcvodeint.dtype_p := ["epsilon"];
     Namedcvodeint.cvode_mem := 1 |}.

Definition vdp_clamped_store : store :=
  mkStore {[ 0 := [1%float]; 1 := [(-2)%float; 0%float];
             2 := [(-2)%float; 0%float];
             3 := [0.5%float; 0%float]; 4 := [0.5%float; 0%float] ]}
          {[ 0 := 0; 1 := 0 ]}.

(** A van der Pol model with a second parameter, a hard-coded stimulus
    amplitude, as CellML models with a pacing protocol have it. *)
Definition paced : Namedcvodeint.obj :=
  {| Namedcvodeint.f_ode := Namedcvodeint.vanderpol 0;
     Namedcvodeint.t := [0; 1]%float;
     Namedcvodeint.y := 1;
     Namedcvodeint.yr :=
       {| Recarraylink._x := 1; Recarraylink._xa := 2;
          Recarraylink.names := ["x"; "y"] |};
     Namedcvodeint.pr := 0;
     Namedcvodeint.dtype_y := ["x"; "y"];
     Namedcvodeint.dtype_p := ["epsilon"; "stim_amplitude"];
     Namedcvodeint.cvode_mem := 0 |}.

Definition paced_store : store :=
  mkStore {[ 0 := [1%float; 3%float]; 1 := [(-2)%float; 0%float];
             2 := [(-2)%float; 0%float] ]}
          {[ 0 := 0 ]}.

(** A model with three state variables [a], [b], [c] and no parameters;
    the rate of [c] is the difference of [a] and [b]. *)
Definition difference : rhs :=
  fun _ y ydot _ => (<[2 := (item y 0 - item y 1)%float]> ydot, None).

Definition abc : Namedcvodeint.obj :=
  {| Namedcvodeint.f_ode := difference;
     Namedcvodeint.t := [0; 1]%float;
     Namedcvodeint.y := 1;
     Namedcvodeint.yr :=
       {| Recarraylink._x := 1; Recarraylink._xa := 2;
          Recarraylink.names := ["a"; "b"; "c"] |};
     Namedcvodeint.pr := 0;
     Namedcvodeint.dtype_y := ["a"; "b"; "c"];
     Namedcvodeint.dtype_p := [];
     Namedcvodeint.cvode_mem := 0 |}.

Definition abc_store : store :=
  mkStore {[ 0 := []; 1 := [1%float; 2%float; 3%float];
             2 := [1%float; 2%float; 3%float] ]}
          {[ 0 := 0 ]}.

(** The settings of the doctest of [GPutils]. *)
Definition doctest_settings : GPutils.config :=
  GPutils.mkConfig 3 "job" "lock" "." "error".

(** The same with the job file called [jobfile], and with the error
    pickles called [failed_<id>.pickle]. *)
Definition jobfile_settings : GPutils.config :=
  GPutils.mkConfig 3 "jobfile" "lock" "." "error".

Definition failed_settings : GPutils.config :=
  GPutils.mkConfig 3 "job" "lock" "." "failed".

(** Two directories of the doctest's settings after all three ids have
    been issued: one in which job 1 is still marked as running, one in
    which job 2 has also left an error pickle. *)
Definition marked_dir : gmap string string :=
  <["job" := "3"]> (<["job_timeout_1" := ""]> (<["out_0" := "x"]> ∅)).

Definition failed_dir : gmap string string :=
  <["job" := "3"]> (<["job_timeout_1" := ""]>
    (<["error_2.pickle" := "traceback"]> ∅)).

(** A legend with a name used twice among the states and no algebraic
    variables. *)
Definition twice_legend : gmap string (option cellmlmodel.Legend) :=
  <["y" := Some (cellmlmodel.mkLegend ["V"; "V"; "Ki"]
                   ["membrane"; "stimulus"; "potassium"]
                   ["mV"; "mV"; "mM"])]>
    (<["a" := None]> ∅).

(** * Properties *)

Local Open Scope list_scope.

(** ** Reasoning about statements *)

Section statements.
Context {S : Type}.

Lemma bind_Ok {A B} (m : M S A) (k : A → M S B) s a s1 :
  m s = (Ok a, s1) → bind m k s = k a s1.
Proof. intros H. unfold bind. by rewrite H. Qed.

Lemma bind_Raise {A B} (m : M S A) (k : A → M S B) s e s1 :
  m s = (Raise e, s1) → bind m k s = (Raise e, s1).
Proof. intros H. unfold bind. by rewrite H. Qed.

Lemma bind_inv_Ok {A B} (m : M S A) (k : A → M S B) s b s' :
  bind m k s = (Ok b, s') →
  ∃ a s1, m s = (Ok a, s1) ∧ k a s1 = (Ok b, s').
Proof.
  unfold bind. destruct (m s) as [[a|e] s1]; [eauto | done].
Qed.

Lemma for_app {X} (xs ys : list X) (body : X → M S unit) s :
  for_ (xs ++ ys) body s = (for_ xs body;; for_ ys body) s.
Proof.
  revert s. induction xs as [|x xs IH]; intros s; [reflexivity|].
  simpl. unfold bind. destruct (body x s) as [[[]|e] s1]; [|reflexivity].
  rewrite IH. reflexivity.
Qed.

(** The three stages of a [with] statement. *)
Lemma with_run {G X A} (enter : M S (G * X)) (exit : G → M S unit)
    (body : X → M S A) s g x s1 r s2 s3 :
  enter s = (Ok (g, x), s1) →
  body x s1 = (r, s2) →
  exit g s2 = (Ok tt, s3) →
  with_ enter exit body s = (r, s3).
Proof.
  intros He Hb Hx. unfold with_. rewrite (bind_Ok _ _ _ _ _ He).
  unfold try_finally; simpl. by rewrite Hb, Hx.
Qed.

(** If entering raises, neither the body nor the exit code runs. *)
Lemma with_enter_raises {G X A} (enter : M S (G * X)) (exit : G → M S unit)
    (body : X → M S A) s e s1 :
  enter s = (Raise e, s1) → with_ enter exit body s = (Raise e, s1).
Proof. intros He. unfold with_. by rewrite (bind_Raise _ _ _ _ _ He). Qed.

Context (R : S → S → Prop) `{!Reflexive R, !Transitive R}.

Lemma keeps_ret {A} (a : A) : keeps R (ret a).
Proof using Type*. intros s r s' [= <- <-]. reflexivity. Qed.

Lemma keeps_raise {A} e : keeps R (raise (A:=A) e).
Proof using Type*. intros s r s' [= <- <-]. reflexivity. Qed.

Lemma keeps_gets {A} (f : S → A) : keeps R (gets f).
Proof using Type*. intros s r s' [= <- <-]. reflexivity. Qed.

Lemma keeps_bind {A B} (m : M S A) (k : A → M S B) :
  keeps R m → (∀ a, keeps R (k a)) → keeps R (bind m k).
Proof using Type*.
  intros Hm Hk s r s'. unfold bind.
  destruct (m s) as [[a|e] s1] eqn:E; intros H.
  - etrans; [by eapply Hm | by eapply Hk].
  - injection H as <- <-. by eapply Hm.
Qed.

Lemma keeps_try_except {A} (m : M S A) handler :
  keeps R m → (∀ e h, handler e = Some h → keeps R h) →
  keeps R (try_except m handler).
Proof using Type*.
  intros Hm Hh s r s'. unfold try_except.
  destruct (m s) as [[a|e] s1] eqn:E.
  - intros [= <- <-]. by eapply Hm.
  - destruct (handler e) as [h|] eqn:Eh.
    + intros H. etrans; [by eapply Hm | by eapply Hh].
    + intros [= <- <-]. by eapply Hm.
Qed.

Lemma keeps_for {X} (xs : list X) (body : X → M S unit) :
  (∀ x, keeps R (body x)) → keeps R (for_ xs body).
Proof using Type*.
  intros Hb. induction xs as [|x xs IH]; simpl.
  - apply keeps_ret.
  - apply keeps_bind; [apply Hb | intros _; apply IH].
Qed.
End statements.

(** ** Running the primitives *)

Section primitives.
Context (s : store).

Lemma contents_ok a xs :
  bufs s !! a = Some xs → np.contents a s = (Ok xs, s).
Proof. intros H. unfold np.contents. by rewrite H. Qed.

Lemma setslice_ok a old xs :
  bufs s !! a = Some old → length old = length xs →
  np.setslice a xs s = (Ok tt, set_bufs <[a := xs]> s).
Proof.
  intros H Hlen. unfold np.setslice, bind. rewrite (contents_ok _ _ H).
  by rewrite decide_True.
Qed.

Lemma setslice_mismatch a old xs :
  bufs s !! a = Some old → length old ≠ length xs →
  np.setslice a xs s
  = (Raise (ValueError "could not broadcast input array"), s).
Proof.
  intros H Hlen. unfold np.setslice, bind. rewrite (contents_ok _ _ H).
  by rewrite decide_False.
Qed.

Lemma setitem_ok a old i v :
  bufs s !! a = Some old → i < length old →
  np.setitem a i v s = (Ok tt, set_bufs <[a := <[i := v]> old]> s).
Proof.
  intros H Hi. unfold np.setitem, bind. rewrite (contents_ok _ _ H).
  by rewrite decide_True.
Qed.
End primitives.

Lemma bufs_set_bufs f s : bufs (set_bufs f s) = f (bufs s).
Proof. done. Qed.

(** ** Field names and positions *)

Lemma index_Some k names i :
  np.index k names = Some i → names !! i = Some k ∧ i < length names.
Proof.
  revert i. induction names as [|n names IH]; intros i; simpl; [done|].
  case_decide as Hn.
  - intros [= <-]. split; [by subst | lia].
  - destruct (np.index k names) as [j|] eqn:Hj; simpl; [|done].
    intros [= <-]. destruct (IH j eq_refl). split; [done | lia].
Qed.

Lemma index_is_Some k names : k ∈ names → is_Some (np.index k names).
Proof.
  induction names as [|n names IH]; simpl.
  - by intros ?%elem_of_nil.
  - intros [->|Hin]%elem_of_cons.
    + rewrite decide_True; eauto.
    + case_decide; [eauto|]. destruct (IH Hin) as [j ->]. simpl. eauto.
Qed.

Lemma index_None k names : k ∉ names → np.index k names = None.
Proof.
  intros Hk. destruct (np.index k names) as [i|] eqn:Hi; [|done].
  apply index_Some in Hi as [Hi _]. destruct Hk.
  by apply list_elem_of_lookup_2 in Hi.
Qed.

Lemma index_inj k g names i :
  np.index k names = Some i → np.index g names = Some i → k = g.
Proof.
  intros [Hk _]%index_Some [Hg _]%index_Some. congruence.
Qed.

Lemma mem_true k names : np.mem k names = true ↔ k ∈ names.
Proof. unfold np.mem. apply bool_decide_eq_true. Qed.

Lemma mem_false k names : np.mem k names = false ↔ k ∉ names.
Proof. unfold np.mem. apply bool_decide_eq_false. Qed.

Lemma item_insert_eq xs i v : i < length xs → item (<[i := v]> xs) i = v.
Proof. intros Hi. unfold item. by rewrite list_lookup_insert_eq. Qed.

Lemma item_insert_ne xs i j v : i ≠ j → item (<[i := v]> xs) j = item xs j.
Proof. intros Hij. unfold item. by rewrite list_lookup_insert_ne. Qed.

(** ** The named view *)

Section named_view.
Import Recarraylink.
Context (r : Recarraylink.obj) (s : store) (xs xa : list float).
Hypothesis Hne : _x r ≠ _xa r.
Hypothesis Hx : bufs s !! _x r = Some xs.
Hypothesis Hxa : bufs s !! _xa r = Some xa.
Hypothesis Hlen : length xs = length xa.

(** A named read leaves the buffer alone and refreshes the link's array. *)
Lemma getattr_field attr i :
  np.index attr (names r) = Some i → i < length xs →
  __getattr__ r attr s = (Ok (item xs i), set_bufs <[_xa r := xs]> s).
Proof using Hne Hx Hxa Hlen.
  intros Hi Hlt. unfold __getattr__, try_except, bind.
  rewrite (contents_ok _ _ _ Hx).
  rewrite (setslice_ok _ _ xa xs Hxa) by done.
  unfold field. rewrite Hi. unfold ret at 1.
  erewrite contents_ok by (rewrite bufs_set_bufs; apply lookup_insert_eq).
  unfold item. destruct (lookup_lt_is_Some_2 xs i Hlt) as [v ->]. done.
Qed.

(** A named write changes exactly one position of what the buffer holds
    at the time of the write; the old contents of the link's own array
    play no part. *)
Lemma setattr_field attr i v :
  np.index attr (names r) = Some i → i < length xs →
  __setattr__ r attr v s
  = (Ok FieldSet,
     set_bufs (λ b, <[_x r := <[i := v]> xs]> (<[_xa r := <[i := v]> xs]> b))
       s).
Proof using Hne Hx Hxa Hlen.
  intros Hi Hlt. unfold __setattr__, try_except, bind.
  rewrite (contents_ok _ _ _ Hx).
  rewrite (setslice_ok _ _ xa xs Hxa) by done.
  unfold field. rewrite Hi. unfold ret at 1.
  erewrite setitem_ok;
    [|rewrite bufs_set_bufs; apply lookup_insert_eq|done].
  erewrite contents_ok by (rewrite bufs_set_bufs; apply lookup_insert_eq).
  erewrite setslice_ok; cycle 1.
  { rewrite !bufs_set_bufs. rewrite !lookup_insert_ne by done. exact Hx. }
  { by rewrite length_insert. }
  unfold ret. f_equal. destruct s as [b n]. unfold set_bufs; simpl.
  f_equal. by rewrite !insert_insert_eq.
Qed.

(** A name that is no field is handed to [object.__setattr__]. *)
Lemma setattr_other attr v :
  np.index attr (names r) = None →
  __setattr__ r attr v s
  = (Ok InstanceAttribute, set_bufs <[_xa r := xs]> s).
Proof using Hne Hx Hxa Hlen.
  intros Hi. unfold __setattr__, try_except, bind.
  rewrite (contents_ok _ _ _ Hx).
  rewrite (setslice_ok _ _ xa xs Hxa) by done.
  unfold field. by rewrite Hi.
Qed.
End named_view.

Lemma linked_lookup r s :
  linked r s →
  ∃ xs xa, bufs s !! Recarraylink._x r = Some xs
           ∧ bufs s !! Recarraylink._xa r = Some xa
           ∧ length xs = length xa
           ∧ length xs = length (Recarraylink.names r).
Proof.
  intros (_ & xs & xa & Hx & Hxa & Hl1 & Hl2).
  exists xs, xa. repeat split; [done..|congruence|done].
Qed.

(** The constructor establishes [linked]. *)
Lemma Recarraylink_init_linked x dtype s r s' :
  Recarraylink.__init__ x dtype s = (Ok r, s') →
  linked r s' ∧ Recarraylink._x r = x ∧ Recarraylink.names r = dtype.
Proof.
  unfold Recarraylink.__init__, np.contents, np.array, bind.
  destruct (bufs s !! x) as [xs|] eqn:Hx; [|done].
  case_decide as Hlen; [|done]. intros [= <- <-]. simpl.
  assert (Hfresh : fresh (dom (bufs s)) ≠ x).
  { intros Heq. apply (is_fresh (dom (bufs s))). rewrite Heq.
    apply elem_of_dom. eauto. }
  repeat split; try done. exists xs, xs. simpl.
  rewrite lookup_insert_eq, lookup_insert_ne by done. done.
Qed.

(** Overwriting the flat buffer in place keeps the link well formed. *)
Lemma linked_overwrite r s xs ys :
  linked r s → bufs s !! Recarraylink._x r = Some xs →
  length ys = length xs →
  linked r (set_bufs <[Recarraylink._x r := ys]> s).
Proof.
  intros (Hne & xs' & xa & Hx & Hxa & Hl1 & Hl2) Hxs Hlen.
  assert (xs' = xs) as -> by congruence.
  split; [done|]. exists ys, xa.
  rewrite bufs_set_bufs, lookup_insert_eq, lookup_insert_ne by done.
  repeat split; congruence.
Qed.

(** The example of the class docstring: the state vector is re-initialised
    behind the link's back, then one field is set by name. *)
Example Recarraylink_doctest :
  ((y <- np.array [0; 0; 0]%float;;
    ral <- Recarraylink.__init__ y ["a"; "b"; "c"];;
    np.setslice y [0; 1; 2]%float;;
    Recarraylink.__setattr__ ral "b" 42%float;;
    np.contents y) (mkStore ∅ ∅)).1
  = Ok [0; 42; 2]%float.
Proof. vm_compute. reflexivity. Qed.

(** C3.  A named write first refreshes the link's array from the live
    buffer, then sets the field, then copies everything back.  So when the
    flat buffer has been overwritten in place with any values [ys] (an
    assignment [y[:] = ys]; a single [y[j] = w] is the case
    [ys = <[j := w]> xs]), the write of field [f], at position [i], leaves
    the buffer holding [ys] with only position [i] replaced, whatever the
    link's own array held; and a named read after the overwrite, with no
    named write in between, returns what the buffer holds now. *)
Theorem Recarraylink_write_keeps_external_mutation
    (r : Recarraylink.obj) (s : store) (xs ys : list float)
    (f : string) (i : nat) (v : float) :
  linked r s →
  bufs s !! Recarraylink._x r = Some xs →
  np.index f (Recarraylink.names r) = Some i →
  length ys = length xs →
  (∃ s', (np.setslice (Recarraylink._x r) ys;;
          Recarraylink.__setattr__ r f v) s = (Ok Recarraylink.FieldSet, s')
         ∧ bufs s' !! Recarraylink._x r = Some (<[i := v]> ys)
         ∧ bufs s' !! Recarraylink._xa r = Some (<[i := v]> ys)
         ∧ ∀ j, j ≠ i → item (<[i := v]> ys) j = item ys j)
  ∧ (∀ g k, np.index g (Recarraylink.names r) = Some k →
       ∃ s', (np.setslice (Recarraylink._x r) ys;;
              Recarraylink.__getattr__ r g) s = (Ok (item ys k), s')
             ∧ bufs s' !! Recarraylink._x r = Some ys)
  ∧ (∀ j w, j < length xs →
       np.setitem (Recarraylink._x r) j w s
       = np.setslice (Recarraylink._x r) (<[j := w]> xs) s).
Proof.
  intros Hl Hxs Hi Hlen.
  pose proof (linked_overwrite r s xs ys Hl Hxs Hlen) as Hl'.
  destruct Hl as [Hne _].
  destruct (linked_lookup _ _ Hl') as (ys' & ya & Hy & Hya & Hlen' & Hnames).
  rewrite bufs_set_bufs, lookup_insert_eq in Hy. injection Hy as <-.
  assert (Hy : bufs (set_bufs <[Recarraylink._x r := ys]> s)
               !! Recarraylink._x r = Some ys)
    by (rewrite bufs_set_bufs; apply lookup_insert_eq).
  assert (Hext : np.setslice (Recarraylink._x r) ys s
                 = (Ok tt, set_bufs <[Recarraylink._x r := ys]> s))
    by (by apply (setslice_ok s _ xs)).
  split; [|split].
  - eexists. unfold bind at 1. rewrite Hext.
    rewrite (setattr_field _ _ _ _ Hne Hy Hya Hlen' _ i v Hi); cycle 1.
    { apply index_Some in Hi as [_ Hi]. lia. }
    split; [done|]. rewrite !bufs_set_bufs.
    split; [apply lookup_insert_eq|].
    split; [rewrite lookup_insert_ne by done; apply lookup_insert_eq|].
    intros j Hj. by apply item_insert_ne.
  - intros g k Hk. eexists. unfold bind at 1. rewrite Hext.
    rewrite (getattr_field _ _ _ _ Hne Hy Hya Hlen' _ k Hk); cycle 1.
    { apply index_Some in Hk as [_ Hk]. lia. }
    split; [done|]. rewrite !bufs_set_bufs. by rewrite lookup_insert_ne.
  - intros j w Hj. rewrite (setitem_ok s _ xs) by done.
    by rewrite (setslice_ok s _ xs) by (by rewrite ?length_insert).
Qed.

(** C9.  Writing a field and reading it back gives the value written, and
    every other field reads as it did before the write. *)
Theorem Recarraylink_write_read
    (r : Recarraylink.obj) (s : store) (f : string) (v : float) :
  linked r s →
  f ∈ Recarraylink.names r →
  (∃ s', (Recarraylink.__setattr__ r f v;; Recarraylink.__getattr__ r f) s
         = (Ok v, s'))
  ∧ (∀ g, g ∈ Recarraylink.names r → g ≠ f →
       ∃ u s1 s2,
         Recarraylink.__getattr__ r g s = (Ok u, s1)
         ∧ (Recarraylink.__setattr__ r f v;; Recarraylink.__getattr__ r g) s
           = (Ok u, s2)).
Proof.
  intros Hl Hf. pose proof Hl as [Hne _].
  destruct (linked_lookup _ _ Hl) as (xs & xa & Hx & Hxa & Hlen & Hnames).
  destruct (index_is_Some _ _ Hf) as [i Hi].
  pose proof (index_Some _ _ _ Hi) as [_ Hlt]. rewrite <- Hnames in Hlt.
  pose proof (setattr_field _ _ _ _ Hne Hx Hxa Hlen _ i v Hi Hlt) as Hset.
  set (new := <[i := v]> xs) in *.
  set (s1 := set_bufs _ s) in Hset.
  assert (Hx1 : bufs s1 !! Recarraylink._x r = Some new)
    by (subst s1; rewrite bufs_set_bufs; apply lookup_insert_eq).
  assert (Hxa1 : bufs s1 !! Recarraylink._xa r = Some new).
  { subst s1. rewrite bufs_set_bufs, lookup_insert_ne by done.
    apply lookup_insert_eq. }
  assert (Hlen1 : length new = length xs) by apply length_insert.
  split.
  - eexists. unfold bind. rewrite Hset.
    rewrite (getattr_field _ _ _ _ Hne Hx1 Hxa1 eq_refl _ i Hi) by lia.
    subst new. by rewrite item_insert_eq.
  - intros g Hg Hgf. destruct (index_is_Some _ _ Hg) as [k Hk].
    pose proof (index_Some _ _ _ Hk) as [_ Hklt]. rewrite <- Hnames in Hklt.
    assert (i ≠ k) by (intros ->; eauto using index_inj).
    eexists _, _, _. split.
    + by apply (getattr_field _ _ _ _ Hne Hx Hxa Hlen _ k Hk).
    + unfold bind. rewrite Hset.
      rewrite (getattr_field _ _ _ _ Hne Hx1 Hxa1 eq_refl _ k Hk) by lia.
      subst new. by rewrite item_insert_ne.
Qed.

(** The second example of the class docstring: [y[:] = y0], then
    [ral.b = 42]. *)
Lemma Recarraylink_write_keeps_external_mutation_witness :
  ∃ s',
    (np.setslice 1 [7%float; 1%float];;
     Recarraylink.__setattr__ (Namedcvodeint.yr vdp) "x" 42%float) vdp_store
    = (Ok Recarraylink.FieldSet, s')
    ∧ bufs s' !! 1 = Some [42%float; 1%float].
Proof.
  destruct (Recarraylink_write_keeps_external_mutation (Namedcvodeint.yr vdp)
              vdp_store [(-2)%float; 0%float] [7%float; 1%float]
              "x" 0 42%float)
    as [(s' & Hrun & Hx & _) _].
  - split; [done|]. by eexists _, _.
  - reflexivity.
  - reflexivity.
  - reflexivity.
  - exists s'. split; [exact Hrun | exact Hx].
Defined.

Lemma Recarraylink_write_read_witness :
  ∃ s',
    (Recarraylink.__setattr__ (Namedcvodeint.yr vdp) "y" 789%float;;
     Recarraylink.__getattr__ (Namedcvodeint.yr vdp) "y") vdp_store
    = (Ok 789%float, s').
Proof.
  destruct (Recarraylink_write_read (Namedcvodeint.yr vdp) vdp_store "y"
              789%float) as [Hrun _].
  - split; [done|]. by eexists _, _.
  - apply list_elem_of_In. simpl. auto.
  - exact Hrun.
Defined.

(** ** [autorestore] *)

Section autorestore.
Import Namedcvodeint.

Lemma RootInit_run (m : obj) n s :
  RootInit m n s = (Ok tt, set_nrtfn <[cvode_mem m := n]> s).
Proof. done. Qed.

(** What the generator remembers at [yield] are the values found on
    entry. *)
Lemma autorestore_enter_old m _p _y kwargs s ys ps old s1 :
  bufs s !! y m = Some ys →
  bufs s !! pr m = Some ps →
  autorestore_enter m _p _y kwargs s = (Ok (old, tt), s1) →
  old = (ys, ps).
Proof.
  intros Hy Hp. unfold autorestore_enter.
  rewrite (bind_Ok _ _ _ _ _ (contents_ok _ _ _ Hy)).
  rewrite (bind_Ok _ _ _ _ _ (contents_ok _ _ _ Hp)).
  intros (_ & s2 & _ & H)%bind_inv_Ok.
  apply bind_inv_Ok in H as (_ & s3 & _ & H).
  by injection H as <- _.
Qed.

(** The [finally] clause, run on any state in which the two arrays still
    have their shapes. *)
Lemma autorestore_exit_run m ys ps s (ys' ps' : list float) :
  bufs s !! y m = Some ys' → length ys' = length ys →
  bufs s !! pr m = Some ps' → length ps' = length ps →
  (pr m = y m → ps = ys) →
  ∃ s', autorestore_exit m (ys, ps) s = (Ok tt, s')
        ∧ bufs s' !! y m = Some ys
        ∧ bufs s' !! pr m = Some ps
        ∧ nrtfn s' !! cvode_mem m = Some 0.
Proof.
  intros Hy Hly Hp Hlp Halias. unfold autorestore_exit; simpl.
  rewrite (bind_Ok _ _ _ _ _ (RootInit_run m 0 s)).
  erewrite bind_Ok; [|by eapply setslice_ok].
  destruct (decide (pr m = y m)) as [Heq|Hne].
  - assert (ps' = ys') as -> by congruence.
    erewrite setslice_ok; cycle 1.
    { simpl. rewrite Heq. apply lookup_insert_eq. }
    { congruence. }
    eexists. split; [done|]. simpl. rewrite Heq, !lookup_insert_eq.
    by rewrite (Halias Heq).
  - erewrite setslice_ok; cycle 1.
    { simpl. rewrite lookup_insert_ne by done. exact Hp. }
    { done. }
    eexists. split; [done|]. simpl.
    rewrite lookup_insert_eq, lookup_insert_ne, !lookup_insert_eq by done.
    done.
Qed.
End autorestore.

(** C1.  Whatever the overrides, once the block has been entered the
    state vector and the parameter vector are, after the block, exactly
    what they were before the [with] statement, rootfinding is reset by
    [RootInit(0)], and the block's own outcome (its value, or the exception
    it raised) is the outcome of the whole statement.  The block is any
    code; like all Python code it cannot change the length of the two
    arrays. *)
Theorem autorestore_restores {A} (m : Namedcvodeint.obj)
    (_p _y : option (list float)) (kwargs : list (string * float))
    (body : M store A) (s : store) (ys ps : list float)
    (old : list float * list float) (s1 : store) (r : result A) (s2 : store) :
  bufs s !! Namedcvodeint.y m = Some ys →
  bufs s !! Namedcvodeint.pr m = Some ps →
  Namedcvodeint.autorestore_enter m _p _y kwargs s = (Ok (old, tt), s1) →
  body s1 = (r, s2) →
  length <$> bufs s2 !! Namedcvodeint.y m = Some (length ys) →
  length <$> bufs s2 !! Namedcvodeint.pr m = Some (length ps) →
  ∃ s', Namedcvodeint.autorestore m _p _y kwargs body s = (r, s')
        ∧ bufs s' !! Namedcvodeint.y m = Some ys
        ∧ bufs s' !! Namedcvodeint.pr m = Some ps
        ∧ nrtfn s' !! Namedcvodeint.cvode_mem m = Some 0.
Proof.
  intros Hy Hp Henter Hbody Hly Hlp.
  pose proof (autorestore_enter_old _ _ _ _ _ _ _ _ _ Hy Hp Henter) as ->.
  destruct (bufs s2 !! Namedcvodeint.y m) as [ys'|] eqn:Hy2; [|done].
  destruct (bufs s2 !! Namedcvodeint.pr m) as [ps'|] eqn:Hp2; [|done].
  injection Hly as Hly. injection Hlp as Hlp.
  destruct (autorestore_exit_run m ys ps s2 ys' ps' Hy2 Hly Hp2 Hlp)
    as (s' & Hexit & Hrest); [intros Heq; congruence|].
  exists s'. split; [|done].
  unfold Namedcvodeint.autorestore. by eapply with_run.
Qed.

Example example_builds_vdp :
  Namedcvodeint.__init__default (mkStore ∅ ∅) = (Ok vdp, vdp_store).
Proof. vm_compute. reflexivity. Qed.

(** The docstring's second example, with a block that changes a parameter
    and then raises. *)
Lemma autorestore_restores_witness :
  ∃ s',
    Namedcvodeint.autorestore vdp (Some [123%float])
      (Some [456%float; 0%float]) [("y", 789%float)]
      (Namedcvodeint.setfield 0 ["epsilon"] "epsilon" 50%float;;
       raise (A:=unit) (Exception "")) vdp_store
    = (Raise (Exception ""), s')
    ∧ bufs s' !! 1 = Some [(-2)%float; 0%float]
    ∧ bufs s' !! 0 = Some [1%float]
    ∧ nrtfn s' !! 0 = Some 0.
Proof.
  eapply (autorestore_restores vdp (Some [123%float])
            (Some [456%float; 0%float]) [("y", 789%float)] _ vdp_store);
    vm_compute; reflexivity.
Defined.

(** A key that is a field of both dtypes, or of neither, stops the loop
    over the named overrides.  The test that should tell the two cases
    apart looks [k] up in a list whose only element is a tuple, so both
    cases end in the first of the two TypeErrors. *)
Lemma override_rejects (m : Namedcvodeint.obj) k v s :
  (k ∈ Namedcvodeint.dtype_y m ↔ k ∈ Namedcvodeint.dtype_p m) →
  Namedcvodeint.override m (k, v) s
  = (Raise (TypeError ("Key " ++ k ++ " not in parameter or rate vectors")),
     s).
Proof.
  intros Hk. unfold Namedcvodeint.override; simpl.
  destruct (np.mem k (Namedcvodeint.dtype_p m)) eqn:Hp;
    destruct (np.mem k (Namedcvodeint.dtype_y m)) eqn:Hy; simpl; try done.
  - apply mem_true in Hp. apply mem_false in Hy. tauto.
  - apply mem_false in Hp. apply mem_true in Hy. tauto.
Qed.

(** C2, as the code has it.  A named override whose key is in both field
    lists, or in neither, makes [autorestore] raise a TypeError without
    running the block.  The error comes when the loop reaches that key:
    the whole-vector overrides and the named overrides before it have been
    applied by then, and nothing undoes them.  Only where none of those
    came first is the model as it was. *)
Theorem autorestore_bad_key_raises {A} (m : Namedcvodeint.obj)
    (_p _y : option (list float)) (pre post : list (string * float))
    (k : string) (v : float) (body : M store A) (s s1 : store) :
  is_Some (bufs s !! Namedcvodeint.y m) →
  is_Some (bufs s !! Namedcvodeint.pr m) →
  (k ∈ Namedcvodeint.dtype_y m ↔ k ∈ Namedcvodeint.dtype_p m) →
  (Namedcvodeint.override_vectors m _p _y;;
   for_ pre (Namedcvodeint.override m)) s = (Ok tt, s1) →
  (∃ msg, Namedcvodeint.autorestore m _p _y (pre ++ (k, v) :: post) body s
          = (Raise (TypeError msg), s1))
  ∧ (_p = None → _y = None → pre = [] → s1 = s).
Proof.
  intros [ys Hy] [ps Hp] Hk Hpre. split.
  - eexists. unfold Namedcvodeint.autorestore.
    apply with_enter_raises. unfold Namedcvodeint.autorestore_enter.
    rewrite (bind_Ok _ _ _ _ _ (contents_ok _ _ _ Hy)).
    rewrite (bind_Ok _ _ _ _ _ (contents_ok _ _ _ Hp)).
    apply bind_inv_Ok in Hpre as ([] & s0 & Hvec & Hpre).
    rewrite (bind_Ok _ _ _ _ _ Hvec).
    apply bind_Raise. rewrite for_app. rewrite (bind_Ok _ _ _ _ _ Hpre).
    simpl. apply bind_Raise. by apply override_rejects.
  - intros -> -> ->. by injection Hpre as <-.
Qed.

Lemma autorestore_bad_key_raises_witness :
  ∃ msg s1,
    Namedcvodeint.autorestore vdp None None
      [("epsilon", 2%float); ("z", 3%float); ("x", 4%float)] (ret tt)
      vdp_store
    = (Raise (TypeError msg), s1)
    ∧ bufs s1 !! 0 = Some [2%float]
    ∧ bufs s1 !! 1 = Some [(-2)%float; 0%float].
Proof.
  destruct (autorestore_bad_key_raises (A:=unit) vdp None None
              [("epsilon", 2%float)] [("x", 4%float)] "z" 3%float (ret tt)
              vdp_store (set_bufs <[0 := [2%float]]> vdp_store))
    as [[msg Hrun] _].
  - vm_compute. eauto.
  - vm_compute. eauto.
  - vm_compute. split; intros H; apply list_elem_of_In in H; simpl in H;
      intuition discriminate.
  - vm_compute. reflexivity.
  - exists msg, (set_bufs <[0 := [2%float]]> vdp_store).
    split; [exact Hrun|]. split; vm_compute; reflexivity.
Defined.

(** Two floats on which the comparison [==] disagrees are different. *)
Lemma float_neq (x y : float) :
  PrimFloat.eqb x x = true → PrimFloat.eqb x y = false → x ≠ y.
Proof. intros Hxx Hxy ->. congruence. Qed.

(** C2 as stated fails: the van der Pol model has no field [z], yet when
    the TypeError for [z] arrives the parameter vector has already been
    overwritten, by the override [_p] in the first call and by the named
    override of [epsilon] in the second, and it stays overwritten. *)
Lemma autorestore_bad_key_after_mutation :
  ("z" ∉ Namedcvodeint.dtype_y vdp)
  ∧ ("z" ∉ Namedcvodeint.dtype_p vdp)
  ∧ bufs vdp_store !! Namedcvodeint.pr vdp = Some [1%float]
  ∧ (∃ s1,
       Namedcvodeint.autorestore vdp (Some [5%float]) None [("z", 3%float)]
         (ret tt) vdp_store
       = (Raise (TypeError "Key z not in parameter or rate vectors"), s1)
       ∧ bufs s1 !! Namedcvodeint.pr vdp = Some [5%float]
       ∧ bufs s1 !! Namedcvodeint.pr vdp
         ≠ bufs vdp_store !! Namedcvodeint.pr vdp)
  ∧ (∃ s1,
       Namedcvodeint.autorestore vdp None None
         [("epsilon", 2%float); ("z", 3%float)] (ret tt) vdp_store
       = (Raise (TypeError "Key z not in parameter or rate vectors"), s1)
       ∧ bufs s1 !! Namedcvodeint.pr vdp = Some [2%float]
       ∧ bufs s1 !! Namedcvodeint.pr vdp
         ≠ bufs vdp_store !! Namedcvodeint.pr vdp).
Proof.
  assert (Hne : ∀ x : float, PrimFloat.eqb x x = true →
                  PrimFloat.eqb x 1 = false →
                  Some [x] ≠ Some [1%float]).
  { intros x Hxx Hx1 [= Heq]. by apply (float_neq x 1). }
  split; [|split; [|split; [|split]]].
  - intros H. apply list_elem_of_In in H. simpl in H. intuition discriminate.
  - intros H. apply list_elem_of_In in H. simpl in H. intuition discriminate.
  - vm_compute. reflexivity.
  - eexists. split; [vm_compute; reflexivity|].
    split; [vm_compute; reflexivity|].
    change (bufs vdp_store !! Namedcvodeint.pr vdp) with (Some [1%float]).
    replace (bufs _ !! Namedcvodeint.pr vdp) with (Some [5%float])
      by (vm_compute; reflexivity).
    by apply Hne.
  - eexists. split; [vm_compute; reflexivity|].
    split; [vm_compute; reflexivity|].
    change (bufs vdp_store !! Namedcvodeint.pr vdp) with (Some [1%float]).
    replace (bufs _ !! Namedcvodeint.pr vdp) with (Some [2%float])
      by (vm_compute; reflexivity).
    by apply Hne.
Qed.

(** ** [clamp] and [dynclamp] *)

(** *** What a statement leaves alone *)

#[local] Instance untouched_refl p : Reflexive (untouched p).
Proof. by intros s. Qed.

#[local] Instance untouched_trans p : Transitive (untouched p).
Proof. unfold untouched. intros s1 s2 s3 H1 H2. congruence. Qed.

Lemma keeps_contents p a : keeps (untouched p) (np.contents a).
Proof.
  intros s r s'. unfold np.contents.
  destruct (bufs s !! a); by intros [= <- <-].
Qed.

Lemma keeps_modify_insert p a xs :
  a ≠ p → keeps (untouched p) (modify (set_bufs <[a := xs]>)).
Proof.
  intros Hne s r s' [= <- <-]. unfold untouched. simpl.
  by rewrite lookup_insert_ne.
Qed.

Lemma keeps_setslice p a xs : a ≠ p → keeps (untouched p) (np.setslice a xs).
Proof.
  intros Hne. unfold np.setslice.
  apply (keeps_bind (untouched p)); [apply keeps_contents |].
  intros old. case_decide.
  - by apply keeps_modify_insert.
  - apply (keeps_raise (untouched p)).
Qed.

Lemma keeps_setitem p a i v : a ≠ p → keeps (untouched p) (np.setitem a i v).
Proof.
  intros Hne. unfold np.setitem.
  apply (keeps_bind (untouched p)); [apply keeps_contents |].
  intros old. case_decide.
  - by apply keeps_modify_insert.
  - apply (keeps_raise (untouched p)).
Qed.

Lemma keeps_field p r attr : keeps (untouched p) (Recarraylink.field r attr).
Proof.
  unfold Recarraylink.field.
  destruct (np.index _ _); [apply (keeps_ret (untouched p)) | apply (keeps_raise (untouched p))].
Qed.

Lemma keeps_getattr p r attr :
  Recarraylink._xa r ≠ p → keeps (untouched p) (Recarraylink.__getattr__ r attr).
Proof.
  intros Ha. unfold Recarraylink.__getattr__.
  apply (keeps_try_except (untouched p)).
  - repeat (first [ apply keeps_contents | by apply keeps_setslice
                  | apply keeps_field
                  | apply (keeps_bind (untouched p)); [|intros ?] ]).
    match goal with |- context [?xa !! ?i] => destruct (xa !! i) end;
      [apply (keeps_ret (untouched p)) | apply (keeps_raise (untouched p))].
  - intros [] h [= <-]. apply (keeps_raise (untouched p)).
Qed.

Lemma keeps_setattr p r attr v :
  Recarraylink._x r ≠ p → Recarraylink._xa r ≠ p →
  keeps (untouched p) (Recarraylink.__setattr__ r attr v).
Proof.
  intros Hx Ha. unfold Recarraylink.__setattr__.
  apply (keeps_try_except (untouched p)).
  - repeat (first [ apply keeps_contents | by apply keeps_setslice
                  | by apply keeps_setitem | apply keeps_field
                  | apply (keeps_bind (untouched p)); [|intros ?] ]).
    apply (keeps_ret (untouched p)).
  - intros [] h [= <-]. apply (keeps_ret (untouched p)).
Qed.

(** Copying back writes to the origin's state vector and to the two links'
    own arrays, and to nothing else. *)
Lemma keeps_copy_back p (m c : Namedcvodeint.obj) :
  Recarraylink._x (Namedcvodeint.yr m) ≠ p →
  Recarraylink._xa (Namedcvodeint.yr m) ≠ p →
  Recarraylink._xa (Namedcvodeint.yr c) ≠ p →
  keeps (untouched p) (Namedcvodeint.copy_back m c).
Proof.
  intros Hx Ha Hca. unfold Namedcvodeint.copy_back.
  apply (keeps_for (untouched p)). intros k.
  destruct (np.mem k _); [|apply (keeps_ret (untouched p))].
  apply (keeps_bind (untouched p)); [by apply keeps_getattr |]. intros v.
  apply (keeps_bind (untouched p)); [by apply keeps_setattr |]. intros _.
  apply (keeps_ret (untouched p)).
Qed.

(** *** Copying back *)

Lemma copied_length onames vnames vy ks oy :
  length (copied onames vnames vy ks oy) = length oy.
Proof.
  revert oy. induction ks as [|k ks IH]; intros oy; simpl; [done|].
  rewrite IH. destruct (np.index k onames), (np.index k vnames);
    by rewrite ?length_insert.
Qed.

(** Field by field: a field of the origin that the copied names include
    and the variant has takes the variant's value, any other field keeps
    its own. *)
Lemma copied_item onames vnames vy ks oy k i :
  length oy = length onames →
  np.index k onames = Some i →
  item (copied onames vnames vy ks oy) i
  = match np.index k vnames with
    | Some j => if bool_decide (k ∈ ks) then item vy j else item oy i
    | None => item oy i
    end.
Proof.
  intros Hlen Hi. revert oy Hlen.
  induction ks as [|k' ks IH]; intros oy Hlen; simpl.
  { by destruct (np.index k vnames). }
  pose proof (index_Some _ _ _ Hi) as [_ Hlt].
  rewrite IH by (destruct (np.index k' onames), (np.index k' vnames);
                 by rewrite ?length_insert).
  destruct (decide (k' = k)) as [->|Hne].
  - rewrite Hi. destruct (np.index k vnames) as [j|]; [|done].
    rewrite (bool_decide_eq_true_2 (k ∈ k :: ks)) by apply list_elem_of_here.
    rewrite item_insert_eq by lia. by case_bool_decide.
  - assert (Hother : item
        match np.index k' onames, np.index k' vnames with
        | Some i', Some j' => <[i' := item vy j']> oy
        | _, _ => oy
        end i = item oy i).
    { destruct (np.index k' onames) as [i'|] eqn:Hi'; [|done].
      destruct (np.index k' vnames); [|done].
      apply item_insert_ne. intros ->. eauto using index_inj. }
    rewrite Hother.
    destruct (np.index k vnames); [|done].
    assert (bool_decide (k ∈ k' :: ks) = bool_decide (k ∈ ks)) as ->; [|done].
    apply bool_decide_ext. rewrite elem_of_cons.
    split; [intros [?|?]; [congruence | done] | auto].
Qed.

Section copy_back.
Import Namedcvodeint.
Context (m c : obj) (vy : list float).
Let mr := yr m.
Let cr := yr c.
Hypothesis Hmnames : Recarraylink.names mr = dtype_y m.
Hypothesis Hcnames : Recarraylink.names cr = dtype_y c.
Hypothesis Hm : Recarraylink._x mr ≠ Recarraylink._xa mr.
Hypothesis Hc : Recarraylink._x cr ≠ Recarraylink._xa cr.
Hypothesis Hsep : separate m c.
Hypothesis Hvy : length vy = length (dtype_y c).

(** The loop, for any part [ks] of the variant's field names. *)
Lemma copy_back_loop ks : ∀ s oy ma ca,
  ks ⊆ dtype_y c →
  bufs s !! Recarraylink._x mr = Some oy →
  bufs s !! Recarraylink._xa mr = Some ma →
  bufs s !! Recarraylink._x cr = Some vy →
  bufs s !! Recarraylink._xa cr = Some ca →
  length oy = length (dtype_y m) → length ma = length oy →
  length ca = length vy →
  ∃ s',
    for_ ks (fun k =>
      if np.mem k (dtype_y m)
      then v <- Recarraylink.__getattr__ cr k;;
           Recarraylink.__setattr__ mr k v;; ret tt
      else ret tt) s = (Ok tt, s')
    ∧ bufs s' !! Recarraylink._x mr
      = Some (copied (dtype_y m) (dtype_y c) vy ks oy)
    ∧ bufs s' !! Recarraylink._x cr = Some vy.
Proof using All.
  destruct Hsep as (Hxx & Hxa & Hax & Haa).
  induction ks as [|k ks IH]; intros s oy ma ca Hks Hmx Hma Hcx Hca Hlo Hlm Hlc.
  { exists s. by repeat split. }
  assert (Hk : k ∈ dtype_y c) by (apply Hks, list_elem_of_here).
  assert (Hks' : ks ⊆ dtype_y c)
    by (intros x Hx; apply Hks; by apply list_elem_of_further).
  destruct (index_is_Some _ _ Hk) as [j Hj].
  pose proof (index_Some _ _ _ Hj) as [_ Hjlt].
  simpl. destruct (np.mem k (dtype_y m)) eqn:Hmem.
  - apply mem_true in Hmem. destruct (index_is_Some _ _ Hmem) as [i Hi].
    pose proof (index_Some _ _ _ Hi) as [_ Hilt].
    rewrite Hi, Hj.
    (* read the variant's field *)
    assert (Hget := getattr_field cr s vy ca Hc Hcx Hca (eq_sym Hlc) k j).
    rewrite Hcnames in Hget. specialize (Hget Hj ltac:(lia)).
    set (s1 := set_bufs <[Recarraylink._xa cr := vy]> s) in *.
    (* write the origin's field *)
    assert (Hmx1 : bufs s1 !! Recarraylink._x mr = Some oy)
      by (subst s1; simpl; by rewrite lookup_insert_ne).
    assert (Hma1 : bufs s1 !! Recarraylink._xa mr = Some ma)
      by (subst s1; simpl; by rewrite lookup_insert_ne).
    assert (Hset := setattr_field mr s1 oy ma Hm Hmx1 Hma1 (eq_sym Hlm)
                      k i (item vy j)).
    rewrite Hmnames in Hset. specialize (Hset Hi ltac:(lia)).
    set (oy' := <[i := item vy j]> oy) in *.
    set (s2 := set_bufs _ s1) in Hset.
    destruct (IH s2 oy' oy' vy Hks') as (s' & Hrun & Hres);
      try (subst s2 s1 oy'; simpl;
           rewrite ?length_insert, ?lookup_insert_eq; try done;
           repeat (rewrite lookup_insert_ne by done);
           rewrite ?lookup_insert_eq; done).
    exists s'. split; [|done].
    unfold bind at 1 2. rewrite Hget. cbv beta iota.
    unfold bind at 1. rewrite Hset. exact Hrun.
  - apply mem_false in Hmem. rewrite (index_None _ _ Hmem).
    destruct (IH s oy ma ca Hks') as (s' & Hrun & Hres); try done.
    exists s'. split; [|done]. exact Hrun.
Qed.
End copy_back.

(** C8.  When a [clamp] or [dynclamp] block ends, by returning or by
    raising, the state fields that the variant and the origin both have are
    copied from the variant's named view into the origin's, and every
    other field of the origin keeps its value.  [s] is the store in which
    the block ended. *)
Theorem copy_back_shared_fields {A} (m c : Namedcvodeint.obj)
    (kwargs : list (string * float)) (setpoint R : float) (V ion : string)
    (scale : option float) (body : Namedcvodeint.obj → M store A)
    (s0 s1 s : store) (r : result A) (oy vy : list float) :
  model m s → model c s → separate m c →
  bufs s !! Namedcvodeint.y m = Some oy →
  bufs s !! Namedcvodeint.y c = Some vy →
  body c s1 = (r, s) →
  ∃ s' oy',
    Namedcvodeint.copy_back m c s = (Ok tt, s')
    ∧ bufs s' !! Namedcvodeint.y m = Some oy'
    ∧ length oy' = length oy
    ∧ (∀ k i, np.index k (Namedcvodeint.dtype_y m) = Some i →
         item oy' i = match np.index k (Namedcvodeint.dtype_y c) with
                      | Some j => item vy j
                      | None => item oy i
                      end)
    ∧ bufs s' !! Namedcvodeint.y c = Some vy
    ∧ (Namedcvodeint.clamp_enter m kwargs s0 = (Ok (c, c), s1) →
       Namedcvodeint.clamp m kwargs body s0 = (r, s'))
    ∧ (Cellmlmodel.dynclamp_enter m setpoint R V ion scale s0
       = (Ok (c, c), s1) →
       Cellmlmodel.dynclamp m setpoint R V ion scale body s0 = (r, s')).
Proof.
  intros (Hmx & Hmn & Hml & _) (Hcx & Hcn & Hcl & _) Hsep Hoy Hvy Hbody.
  pose proof Hml as [Hmne _]. pose proof Hcl as [Hcne _].
  destruct (linked_lookup _ _ Hml) as (oy0 & ma & Hmy & Hma & Hlm & Hlmn).
  destruct (linked_lookup _ _ Hcl) as (vy0 & ca & Hcy & Hca & Hlc & Hlcn).
  rewrite Hmx in Hmy. rewrite Hcx in Hcy.
  assert (oy0 = oy) as -> by congruence.
  assert (vy0 = vy) as -> by congruence.
  rewrite Hmn in Hlmn. rewrite Hcn in Hlcn.
  destruct (copy_back_loop m c vy Hmn Hcn Hmne Hcne Hsep Hlcn
              (Namedcvodeint.dtype_y c) s oy ma ca)
    as (s' & Hrun & Hres & Hvar); try done.
  { by rewrite Hmx. } { by rewrite Hcx. }
  rewrite Hmx in Hres. rewrite Hcx in Hvar.
  exists s', (copied (Namedcvodeint.dtype_y m) (Namedcvodeint.dtype_y c) vy
                (Namedcvodeint.dtype_y c) oy).
  split; [exact Hrun|]. split; [done|].
  split; [apply copied_length|]. split; [|split; [done|split]].
  - intros k i Hi. rewrite (copied_item _ _ _ _ _ k i) by done.
    destruct (np.index k (Namedcvodeint.dtype_y c)) as [j|] eqn:Hj; [|done].
    rewrite bool_decide_eq_true_2; [done|].
    apply index_Some in Hj as [Hj _]. by eapply list_elem_of_lookup_2.
  - intros Henter. unfold Namedcvodeint.clamp. by eapply with_run.
  - intros Henter. unfold Cellmlmodel.dynclamp. by eapply with_run.
Qed.

Example clamp_enter_vdp :
  Namedcvodeint.clamp_enter vdp [("x", 0.5%float)] vdp_store
  = (Ok (vdp_clamped, vdp_clamped), vdp_clamped_store).
Proof. vm_compute. reflexivity. Qed.

(** The docstring's example, with a block that moves the variant's state
    and then raises: the origin receives the variant's [x] and [y]. *)
Lemma copy_back_shared_fields_witness :
  ∃ s',
    Namedcvodeint.clamp vdp [("x", 0.5%float)]
      (fun c => np.setitem (Namedcvodeint.y c) 1 9%float;;
                raise (A:=unit) (Exception "")) vdp_store
    = (Raise (Exception ""), s')
    ∧ bufs s' !! Namedcvodeint.y vdp = Some [0.5%float; 9%float].
Proof.
  destruct (copy_back_shared_fields (A:=unit) vdp vdp_clamped
              [("x", 0.5%float)] 0%float 0%float "" "" None
              (fun c => np.setitem (Namedcvodeint.y c) 1 9%float;;
                        raise (A:=unit) (Exception ""))
              vdp_store vdp_clamped_store
              (set_bufs <[3 := [0.5%float; 9%float]]> vdp_clamped_store)
              (Raise (Exception ""))
              [(-2)%float; 0%float] [0.5%float; 9%float])
    as (s' & oy' & Hcopy & Hoy' & Hlen & Hfields & Hvy & Hclamp & _).
  - unfold model, linked; simpl. repeat split; try done.
    + by eexists _, _.
    + by eexists.
  - unfold model, linked; simpl. repeat split; try done.
    + by eexists _, _.
    + by eexists.
  - repeat split; done.
  - vm_compute. reflexivity.
  - vm_compute. reflexivity.
  - vm_compute. reflexivity.
  - exists s'. split.
    + apply Hclamp. vm_compute. reflexivity.
    + rewrite Hoy'. f_equal.
      pose proof (Hfields "x" 0 eq_refl) as Hx.
      pose proof (Hfields "y" 1 eq_refl) as Hy.
      destruct oy' as [|a [|b [|]]]; try done.
      vm_compute in Hx, Hy. by subst.
Defined.

(** *** Building the variant *)

(** Statements that only read. *)
Lemma reads_indices names keys :
  keeps (S:=store) eq (Namedcvodeint.indices names keys).
Proof.
  induction keys as [|k keys IH]; simpl; [apply (keeps_ret eq)|].
  destruct (np.index k names); [|apply (keeps_raise eq)].
  apply (keeps_bind eq); [done|]. intros js. apply (keeps_ret eq).
Qed.

Lemma reads_initialize names kwargs : ∀ y0 v,
  keeps (S:=store) eq (Namedcvodeint.initialize names kwargs y0 v).
Proof.
  induction kwargs as [|[k v'] kwargs IH]; intros y0 v; simpl;
    [apply (keeps_ret eq)|].
  destruct (np.index k names); [apply IH | apply (keeps_raise eq)].
Qed.

Lemma reads_contents a : keeps eq (np.contents a).
Proof.
  intros s r s'. unfold np.contents. destruct (bufs s !! a); by intros [= <- <-].
Qed.

Lemma reads_getfield a names k : keeps eq (Namedcvodeint.getfield a names k).
Proof.
  unfold Namedcvodeint.getfield. destruct (np.index k names).
  - apply (keeps_bind eq); [apply reads_contents|]. intros xs.
    apply (keeps_ret eq).
  - apply (keeps_raise eq).
Qed.

Lemma reads_index_of names k : keeps (S:=store) eq (Cellmlmodel.index_of names k).
Proof.
  unfold Cellmlmodel.index_of.
  destruct (np.index k names); [apply (keeps_ret eq) | apply (keeps_raise eq)].
Qed.

(** The loop over the clamped fields leaves the variable [v] bound to the
    value of the last field. *)
Lemma initialize_last names kwargs k x : ∀ y0 v (s : store) y1 v1 s1,
  Namedcvodeint.initialize names (kwargs ++ [(k, x)]) y0 v s
  = (Ok (y1, v1), s1) →
  v1 = Namedcvodeint.Scalar x.
Proof.
  induction kwargs as [|[k' x'] kwargs IH]; intros y0 v s y1 v1 s1; simpl.
  - destruct (np.index k names); [|done]. by intros [= _ <- _].
  - destruct (np.index k' names); [|done]. apply IH.
Qed.

(** What [Namedcvodeint.__init__] returns: new arrays for the state, the
    caller's array for the parameters, everything that existed unchanged. *)
Lemma init_inv f t0 y0 yn p pn s c s0 :
  Namedcvodeint.__init__ f t0 y0 yn p pn s = (Ok c, s0) →
  Namedcvodeint.f_ode c = f
  ∧ Namedcvodeint.pr c = p
  ∧ Namedcvodeint.dtype_y c = yn
  ∧ Namedcvodeint.dtype_p c = pn
  ∧ Recarraylink._x (Namedcvodeint.yr c) = Namedcvodeint.y c
  ∧ Recarraylink.names (Namedcvodeint.yr c) = yn
  ∧ bufs s !! Namedcvodeint.y c = None
  ∧ bufs s !! Recarraylink._xa (Namedcvodeint.yr c) = None
  ∧ bufs s0 !! Namedcvodeint.y c = Some y0
  ∧ (∀ l, is_Some (bufs s !! l) → bufs s0 !! l = bufs s !! l).
Proof.
  unfold Namedcvodeint.__init__, Namedcvodeint.Cvodeint__init__,
    Recarraylink.__init__, np.array, np.contents, bind, gets, modify, ret.
  simpl. rewrite lookup_insert_eq.
  case_decide; [|done]. intros [= <- <-]. simpl.
  set (a := fresh (dom (bufs s))).
  set (xa := fresh (dom (<[a := y0]> (bufs s)))).
  assert (Ha : bufs s !! a = None) by apply not_elem_of_dom, is_fresh.
  assert (Hxa : <[a := y0]> (bufs s) !! xa = None)
    by apply not_elem_of_dom, is_fresh.
  assert (xa ≠ a) by (intros Heq; rewrite Heq, lookup_insert_eq in Hxa; done).
  rewrite lookup_insert_ne in Hxa by done.
  repeat split; try done.
  - rewrite lookup_insert_ne by done. apply lookup_insert_eq.
  - intros l [xs Hl]. rewrite !lookup_insert_ne; [done|congruence..].
Qed.

(** The constructor establishes [model], given a parameter array with
    one value per parameter name. *)
Lemma Namedcvodeint_init_model f t0 y0 yn p pn s c s0 ps :
  Namedcvodeint.__init__ f t0 y0 yn p pn s = (Ok c, s0) →
  bufs s !! p = Some ps → length ps = length pn →
  model c s0.
Proof.
  intros Hinit Hp Hlen.
  pose proof (init_inv _ _ _ _ _ _ _ _ _ Hinit)
    as (_ & Hpr & Hdy & Hdp & Hx & Hn & Hy & Hxa & _ & Hsame).
  unfold Namedcvodeint.__init__ in Hinit.
  apply bind_inv_Ok in Hinit as (ym & s1 & _ & Hinit).
  apply bind_inv_Ok in Hinit as (link & s2 & Hlink & [= <- <-]).
  apply Recarraylink_init_linked in Hlink as (Hlinked & _ & _).
  simpl in *. unfold model; simpl.
  split; [done|]. split; [done|]. split; [done|].
  split; [intros Heq; rewrite Heq, Hy in Hp; done|].
  split; [intros Heq; rewrite Heq, Hxa in Hp; done|].
  exists ps. split; [|done]. rewrite Hsame by eauto. done.
Qed.

(** The common end of [clamp] and [dynclamp]: construct the variant on the
    origin's parameter array and switch off the stimulus. *)
Lemma variant_shares_parameters (m : Namedcvodeint.obj) f y0 s c c' s1 ps i :
  np.index "stim_amplitude" (Namedcvodeint.dtype_p m) = Some i →
  bufs s !! Namedcvodeint.pr m = Some ps →
  (c <- Namedcvodeint.__init__ f (Namedcvodeint.t m) y0
          (Namedcvodeint.dtype_y m) (Namedcvodeint.pr m)
          (Namedcvodeint.dtype_p m);;
   Namedcvodeint.disable_stimulus c;; ret (c, c)) s = (Ok (c, c'), s1) →
  Namedcvodeint.pr c = Namedcvodeint.pr m
  ∧ i < length ps
  ∧ bufs s1 !! Namedcvodeint.pr m = Some (<[i := 0%float]> ps)
  ∧ Recarraylink._xa (Namedcvodeint.yr c) ≠ Namedcvodeint.pr m.
Proof.
  intros Hi Hps (c0 & s0 & Hinit & H)%bind_inv_Ok.
  apply bind_inv_Ok in H as ([] & s2 & Hstim & [= <- _ <-]).
  apply init_inv in Hinit
    as (_ & Hpr & _ & Hdp & _ & _ & _ & Hxa & _ & Hsame).
  assert (Hps0 : bufs s0 !! Namedcvodeint.pr m = Some ps)
    by (rewrite Hsame; eauto).
  unfold Namedcvodeint.disable_stimulus, Namedcvodeint.setfield in Hstim.
  rewrite Hdp, Hpr in Hstim.
  rewrite (proj2 (mem_true _ _)), Hi in Hstim; cycle 1.
  { apply index_Some in Hi as [Hi _]. by eapply list_elem_of_lookup_2. }
  unfold np.setitem in Hstim.
  rewrite (bind_Ok _ _ _ _ _ (contents_ok _ _ _ Hps0)) in Hstim.
  case_decide; [|done]. injection Hstim as <-.
  repeat split; try done.
  - simpl. apply lookup_insert_eq.
  - intros Heq. rewrite Heq, Hps in Hxa. done.
Qed.

(** C10.  With a parameter named [stim_amplitude], entering a [clamp] or
    [dynclamp] block sets it to 0 through the variant; the variant's
    parameter array is the origin's, so the origin sees the 0 as well; and
    the code run on leaving the block writes nothing to that array. *)
Theorem stim_amplitude_zeroed_in_origin (m c : Namedcvodeint.obj)
    (kwargs : list (string * float)) (setpoint R : float) (V ion : string)
    (scale : option float) (s s1 : store) (ps : list float) (i : nat) :
  model m s →
  np.index "stim_amplitude" (Namedcvodeint.dtype_p m) = Some i →
  bufs s !! Namedcvodeint.pr m = Some ps →
  (Namedcvodeint.clamp_enter m kwargs s = (Ok (c, c), s1)
   ∨ Cellmlmodel.dynclamp_enter m setpoint R V ion scale s
     = (Ok (c, c), s1)) →
  Namedcvodeint.pr c = Namedcvodeint.pr m
  ∧ bufs s1 !! Namedcvodeint.pr m = Some (<[i := 0%float]> ps)
  ∧ item (<[i := 0%float]> ps) i = 0%float
  ∧ (∀ s2 r s3,
       Namedcvodeint.copy_back m c s2 = (r, s3) →
       bufs s3 !! Namedcvodeint.pr m = bufs s2 !! Namedcvodeint.pr m).
Proof.
  intros (Hmx & _ & _ & Hpy & Hpa & _) Hi Hps Henter.
  assert (∃ f y0 s', bufs s' !! Namedcvodeint.pr m = Some ps ∧
    (c <- Namedcvodeint.__init__ f (Namedcvodeint.t m) y0
            (Namedcvodeint.dtype_y m) (Namedcvodeint.pr m)
            (Namedcvodeint.dtype_p m);;
     Namedcvodeint.disable_stimulus c;; ret (c, c)) s' = (Ok (c, c), s1))
    as (f & y0 & s' & Hps' & Htail).
  { destruct Henter as [H|H].
    - unfold Namedcvodeint.clamp_enter in H.
      apply bind_inv_Ok in H as (js & sa & ->%reads_indices & H).
      apply bind_inv_Ok in H as (y0 & sb & ->%reads_contents & H).
      apply bind_inv_Ok in H as (yv & sc & ->%reads_initialize & H).
      eauto.
    - unfold Cellmlmodel.dynclamp_enter in H.
      apply bind_inv_Ok in H as (sc & sa & Hscale & H).
      assert (s = sa) as <-.
      { destruct scale; [by injection Hscale|].
        revert Hscale. apply (keeps_bind eq); [apply reads_getfield|].
        intros ?. apply (keeps_bind eq); [apply reads_getfield|].
        intros ?. apply (keeps_bind eq); [apply reads_getfield|].
        intros ?. apply (keeps_bind eq); [apply reads_getfield|].
        intros ?. apply (keeps_ret eq). }
      apply bind_inv_Ok in H as (iV & sb & ->%reads_index_of & H).
      apply bind_inv_Ok in H as (iion & sd & ->%reads_index_of & H).
      apply bind_inv_Ok in H as (y0 & se & ->%reads_contents & H).
      eauto. }
  destruct (variant_shares_parameters _ _ _ _ _ _ _ _ _ Hi Hps' Htail)
    as (Hpr & Hlt & Hzero & Hxa).
  repeat split; try done.
  - by apply item_insert_eq.
  - intros s2 r s3. apply keeps_copy_back; [by rewrite Hmx| |]; done.
Qed.

Lemma stim_amplitude_zeroed_in_origin_witness :
  ∃ s',
    Namedcvodeint.clamp paced [("x", 0.5%float)] (fun _ => ret tt) paced_store
    = (Ok tt, s')
    ∧ bufs paced_store !! Namedcvodeint.pr paced = Some [1%float; 3%float]
    ∧ bufs s' !! Namedcvodeint.pr paced = Some [1%float; 0%float].
Proof.
  pose (c := {| Namedcvodeint.f_ode :=
                  Namedcvodeint.clamped paced [0]
                    (Namedcvodeint.Scalar 0.5%float);
                Namedcvodeint.t := [0; 1]%float;
                Namedcvodeint.y := 3;
                Namedcvodeint.yr :=
                  {| Recarraylink._x := 3; Recarraylink._xa := 4;
                     Recarraylink.names := ["x"; "y"] |};
                Namedcvodeint.pr := 0;
                Namedcvodeint.dtype_y := ["x"; "y"];
                Namedcvodeint.dtype_p := ["epsilon"; "stim_amplitude"];
                Namedcvodeint.cvode_mem := 1 |}).
  pose (s1 := mkStore {[ 0 := [1%float; 0%float];
                         1 := [(-2)%float; 0%float];
                         2 := [(-2)%float; 0%float];
                         3 := [0.5%float; 0%float];
                         4 := [0.5%float; 0%float] ]}
                      {[ 0 := 0; 1 := 0 ]}).
  destruct (stim_amplitude_zeroed_in_origin paced c [("x", 0.5%float)]
              0%float 0%float "" "" None paced_store s1
              [1%float; 3%float] 1)
    as (Hpr & Hs1 & Hitem & Hexit).
  - unfold model, linked; simpl. repeat split; try done.
    + by eexists _, _.
    + by eexists.
  - reflexivity.
  - reflexivity.
  - left. vm_compute. reflexivity.
  - eexists. split; [vm_compute; reflexivity|]. split; [reflexivity|].
    etrans; [|exact Hs1].
    apply (Hexit s1 (Ok tt)). vm_compute. reflexivity.
Defined.

(** *** The right-hand side of a clamped model *)

(** Whatever fields are clamped, the right-hand side of the derived model
    overwrites all of them with one value, that of the field that the
    initialisation loop visited last. *)
Lemma clamp_rhs_uses_last_value (m : Namedcvodeint.obj)
    (kwargs : list (string * float)) (k : string) (x : float)
    (s s1 : store) (c c' : Namedcvodeint.obj) :
  Namedcvodeint.clamp_enter m (kwargs ++ [(k, x)]) s = (Ok (c, c'), s1) →
  ∃ i, Namedcvodeint.indices (Namedcvodeint.dtype_y m)
         ((kwargs ++ [(k, x)])%list.*1) s = (Ok i, s)
       ∧ Namedcvodeint.f_ode c
         = Namedcvodeint.clamped m i (Namedcvodeint.Scalar x).
Proof.
  unfold Namedcvodeint.clamp_enter.
  intros (i & sa & Hi & H)%bind_inv_Ok.
  pose proof (reads_indices _ _ _ _ _ Hi) as ->.
  apply bind_inv_Ok in H as (y0 & sb & ->%reads_contents & H).
  apply bind_inv_Ok in H as ([y1 v1] & sc & Hinit & H).
  apply initialize_last in Hinit as ->.
  apply bind_inv_Ok in H as (c0 & sd & Hc0 & H).
  apply bind_inv_Ok in H as ([] & se & _ & [= <- _ _]).
  apply init_inv in Hc0 as (Hf & _). eauto.
Qed.

(** With a single clamped field the right-hand side is the one asked for. *)
Lemma clamp_rhs_single_field (m : Namedcvodeint.obj) (i : nat) (x : float)
    t0 y0 ydot s :
  Namedcvodeint.clamped m [i] (Namedcvodeint.Scalar x) t0 y0 ydot s
  = clamped_as_specified m [(i, x)] t0 y0 ydot s.
Proof. done. Qed.

(** C7 fails on the code for two clamped fields with different values.
    In model [abc] the rate of [c] is [a - b].  With [a] clamped to 0.5 and
    [b] to 0.25, the derived model starts from the clamped values, but its
    right-hand side evaluates the original one with both [a] and [b] set
    to the value of the field visited last, so the rate of [c] comes out
    as 0 where the clamped values give 0.25; this in either order of the
    two keyword arguments. *)
Theorem clamp_rhs_two_fields :
  let state := [0.5; 0.25; 3]%float in
  let zeros := [0; 0; 0]%float in
  (∃ c s1,
     Namedcvodeint.clamp_enter abc [("a", 0.5%float); ("b", 0.25%float)]
       abc_store = (Ok (c, c), s1)
     ∧ bufs s1 !! Namedcvodeint.y c = Some state
     ∧ Namedcvodeint.f_ode c 0%float state zeros s1
       = ([0; 0; 0]%float, Some 0%Z)
     ∧ clamped_as_specified abc [(0, 0.5%float); (1, 0.25%float)]
         0%float state zeros s1
       = ([0; 0; 0.25]%float, Some 0%Z))
  ∧ (∃ c s1,
       Namedcvodeint.clamp_enter abc [("b", 0.25%float); ("a", 0.5%float)]
         abc_store = (Ok (c, c), s1)
       ∧ bufs s1 !! Namedcvodeint.y c = Some state
       ∧ Namedcvodeint.f_ode c 0%float state zeros s1
         = ([0; 0; 0]%float, Some 0%Z)
       ∧ clamped_as_specified abc [(1, 0.25%float); (0, 0.5%float)]
           0%float state zeros s1
         = ([0; 0; 0.25]%float, Some 0%Z)).
Proof.
  split; eexists _, _; (split; [vm_compute; reflexivity|]);
    repeat split; vm_compute; reflexivity.
Qed.

(** ** Decimal numerals and file names *)

Lemma chars_append P s1 s2 :
  chars P (s1 ++ s2) = chars P s1 && chars P s2.
Proof.
  induction s1 as [|c s1 IH]; simpl; [done|].
  change (String c s1 ++ s2)%string with (String c (s1 ++ s2)%string).
  simpl. rewrite IH. by rewrite andb_assoc.
Qed.

Lemma chars_impl (P Q : ascii → bool) s :
  (∀ c, P c = true → Q c = true) → chars P s = true → chars Q s = true.
Proof.
  intros HPQ. induction s as [|c s IH]; simpl; [done|].
  intros [Hc Hs]%andb_prop. by rewrite (HPQ c Hc), IH.
Qed.

Lemma digits_string_of_uint d :
  chars is_digit (NilEmpty.string_of_uint d) = true.
Proof. induction d; simpl; done. Qed.

Lemma digits_NilZero d : chars is_digit (NilZero.string_of_uint d) = true.
Proof. destruct d; try apply digits_string_of_uint. done. Qed.

Lemma digit_not_space c : is_digit c = true → negb (Ascii.is_space c) = true.
Proof.
  destruct c as [[] [] [] [] [] [] [] []]; done.
Qed.

Lemma lstrip_id s : chars (negb ∘ Ascii.is_space) s = true → GPutils.lstrip s = s.
Proof.
  destruct s as [|c s]; simpl; [done|].
  intros [Hc _]%andb_prop. by destruct (Ascii.is_space c).
Qed.

Lemma rstrip_id s : chars (negb ∘ Ascii.is_space) s = true → GPutils.rstrip s = s.
Proof.
  induction s as [|c s IH]; simpl; [done|].
  intros [Hc Hs]%andb_prop. rewrite (IH Hs).
  destruct s; [|done]. by destruct (Ascii.is_space c).
Qed.

(** The text of a number has no white space. *)
Lemma str_no_space n : chars (negb ∘ Ascii.is_space) (GPutils.str n) = true.
Proof.
  unfold GPutils.str.
  destruct (Z.to_int n) as [u|u]; simpl.
  - eapply chars_impl, digits_NilZero. apply digit_not_space.
  - eapply chars_impl, digits_NilZero. apply digit_not_space.
Qed.

Lemma to_int_not_nil n :
  Z.to_int n ≠ Decimal.Pos Decimal.Nil ∧ Z.to_int n ≠ Decimal.Neg Decimal.Nil.
Proof.
  destruct n as [|p|p]; simpl; split; try done;
    intros [= H]; by apply Unsigned.to_uint_nonnil in H.
Qed.

(** [int(str(n)) == n] *)
Lemma int_str n : GPutils.int (GPutils.str n) = Some n.
Proof.
  unfold GPutils.int, GPutils.strip.
  rewrite lstrip_id, rstrip_id by apply str_no_space.
  assert (Hparse : Z.of_int <$> NilZero.int_of_string (GPutils.str n) = Some n).
  { unfold GPutils.str. destruct (to_int_not_nil n) as [H1 H2].
    rewrite NilZero.isi by done. simpl. f_equal. apply DecimalZ.of_to. }
  destruct (GPutils.str n) as [|c r] eqn:Hs; [done|].
  destruct (decide (c = "+"%char)) as [->|Hc].
  - (* a numeral does not begin with a plus sign *)
    exfalso. unfold GPutils.str in Hs.
    destruct (Z.to_int n) as [u|u]; simpl in Hs; [|done].
    pose proof (digits_NilZero u) as Hd. rewrite Hs in Hd. done.
  - destruct c as [[] [] [] [] [] [] [] []]; try done.
Qed.

Lemma str_inj a b : GPutils.str a = GPutils.str b → a = b.
Proof.
  intros H. apply (f_equal GPutils.int) in H. rewrite !int_str in H.
  by injection H.
Qed.

Lemma string_length_append (s1 s2 : string) :
  String.length (s1 ++ s2) = String.length s1 + String.length s2.
Proof.
  induction s1 as [|c s1 IH]; [done|].
  change (String c s1 ++ s2)%string with (String c (s1 ++ s2)%string). simpl. by rewrite IH.
Qed.

Lemma timeout_name_inj d a b :
  GPutils.timeout_name d a = GPutils.timeout_name d b → a = b.
Proof.
  unfold GPutils.timeout_name. intros H.
  apply (inj (String.app _)) in H. apply (inj (String.app _)) in H.
  by apply str_inj.
Qed.

Lemma timeout_name_not_jobfile d k :
  GPutils.timeout_name d k ≠ GPutils.jobfile d.
Proof.
  unfold GPutils.timeout_name. intros H.
  apply (f_equal String.length) in H.
  rewrite !string_length_append in H. simpl in H. lia.
Qed.

(** ** [find_jobID] *)

Section jobs.
Import GPutils.
Context (d : config) (shuffle : list string → list string).

Lemma exists_run path (fs : gmap string string) :
  exists_ path fs = (Ok (bool_decide (is_Some (fs !! path))), fs).
Proof. done. Qed.

Lemma touch_run path (fs : gmap string string) :
  touch path fs = (Ok tt, <[path := default "" (fs !! path)]> fs).
Proof.
  unfold touch, bind. rewrite exists_run. case_bool_decide as H.
  - destruct H as [text H]. rewrite H. simpl. by rewrite insert_id.
  - apply eq_None_not_Some in H. by rewrite H.
Qed.

Lemma int_run text n (fs : gmap string string) :
  int text = Some n → int_ text fs = (Ok n, fs).
Proof. intros H. unfold int_. by rewrite H. Qed.

(** The scans find nothing among names that do not look like markers. *)
Lemma scan_errors_none files jobID (fs : gmap string string) :
  Forall (λ f, contains "error" f = false) files →
  scan_errors files jobID fs = (Ok jobID, fs).
Proof.
  induction 1 as [|f files Hf _ IH]; simpl; [done|]. by rewrite Hf.
Qed.

Lemma scan_timeouts_none files jobID (fs : gmap string string) :
  Forall (λ f, contains "job_timeout" f = false) files →
  scan_timeouts files jobID fs = (Ok jobID, fs).
Proof.
  induction 1 as [|f files Hf _ IH]; simpl; [done|]. by rewrite Hf.
Qed.

Hypothesis Hlock_job : lockfile d ≠ jobfile d.

(** The job file as [find_jobID] leaves it before taking the lock. *)
Lemma counter_text fs k :
  counter d fs k →
  ∃ text, <[jobfile d := default "0" (fs !! jobfile d)]> fs !! jobfile d
          = Some text ∧ int text = Some k.
Proof.
  unfold counter. rewrite lookup_insert_eq.
  destruct (fs !! jobfile d) as [text|]; simpl; [eauto|].
  intros ->. eauto.
Qed.

Lemma create_jobfile_run {A} (k : M (gmap string string) A) fs :
  (present <- exists_ (jobfile d);;
   (if present then ret tt else write (jobfile d) "0");;
   k) fs
  = k (<[jobfile d := default "0" (fs !! jobfile d)]> fs).
Proof.
  unfold bind. rewrite exists_run. case_bool_decide as H.
  - destruct H as [text H]. rewrite H. simpl. by rewrite insert_id.
  - apply eq_None_not_Some in H. by rewrite H.
Qed.

(** First pass: while the counter is below [Nsims], a call returns the
    counter, creates that id's timeout marker and stores the counter
    plus one. *)
Lemma find_jobID_first_pass fs k :
  counter d fs k →
  (k < Nsims d)%Z →
  fs !! lockfile d = None →
  lockfile d ≠ timeout_name d k →
  find_jobID d shuffle fs = (Ok k, leased d k fs).
Proof using Hlock_job.
  intros Hk Hlt Hfree Hlock_tn.
  destruct (counter_text _ _ Hk) as (text & Htext & Hint).
  unfold find_jobID.
  rewrite create_jobfile_run.
  set (fs1 := <[jobfile d := _]> fs) in *.
  assert (Hfree1 : fs1 !! lockfile d = None)
    by (subst fs1; by rewrite lookup_insert_ne).
  pose proof (timeout_name_not_jobfile d k) as Htn_job.
  unfold with_, Lock_enter, Lock_exit, try_finally, locked, bind.
  rewrite exists_run, Hfree1. simpl.
  unfold read. rewrite lookup_insert_ne, Htext by done.
  rewrite (int_run _ _ _ Hint).
  rewrite (proj2 (Z.ltb_lt _ _) Hlt). simpl.
  rewrite touch_run. simpl.
  unfold remove. rewrite lookup_insert_ne, lookup_insert_ne by done.
  rewrite lookup_insert_ne, lookup_insert_eq by done.
  f_equal. unfold leased. apply map_eq. intros x.
  subst fs1.
  repeat (rewrite ?lookup_delete, ?lookup_insert; case_decide; subst;
          try done).
Qed.

(** Once the counter has reached [Nsims] and nothing in the directory
    looks like an error or timeout marker, a call returns [Nsims]. *)
Lemma find_jobID_sentinel fs c :
  (∀ l, shuffle l ≡ₚ l) →
  counter d fs c →
  (Nsims d ≤ c)%Z →
  fs !! lockfile d = None →
  no_markers d fs →
  find_jobID d shuffle fs
  = (Ok (Nsims d), <[jobfile d := default "0" (fs !! jobfile d)]> fs).
Proof using Hlock_job.
  intros Hperm Hc Hge Hfree Hclean.
  destruct (counter_text _ _ Hc) as (text & Htext & Hint).
  unfold find_jobID.
  rewrite create_jobfile_run.
  set (fs1 := <[jobfile d := _]> fs) in *.
  assert (Hfree1 : fs1 !! lockfile d = None)
    by (subst fs1; by rewrite lookup_insert_ne).
  assert (Hfiles : Forall (λ f, looks_like_marker f = false)
                     (shuffle (elements (dom (<[lockfile d := ""]> fs1))))).
  { rewrite Hperm. apply Forall_forall. intros f Hf.
    apply elem_of_elements, elem_of_dom in Hf. apply Hclean.
    destruct (decide (f = lockfile d)) as [->|]; [auto|].
    destruct (decide (f = jobfile d)) as [->|]; [auto|].
    left. subst fs1. by rewrite !lookup_insert_ne in Hf. }
  unfold with_, Lock_enter, Lock_exit, try_finally, locked, bind.
  rewrite exists_run, Hfree1. simpl.
  unfold read. rewrite lookup_insert_ne, Htext by done.
  rewrite (int_run _ _ _ Hint).
  rewrite (proj2 (Z.ltb_ge _ _) Hge).
  unfold listdir, gets.
  rewrite scan_errors_none; cycle 1.
  { eapply Forall_impl; [exact Hfiles|]. intros f Hf.
    by apply orb_false_elim in Hf as [? _]. }
  rewrite (proj2 (Z.ltb_ge _ _) Hge).
  rewrite scan_timeouts_none; cycle 1.
  { eapply Forall_impl; [exact Hfiles|]. intros f Hf.
    by apply orb_false_elim in Hf as [_ ?]. }
  rewrite (proj2 (Z.ltb_ge _ _) Hge). simpl.
  unfold remove. rewrite lookup_insert_eq.
  by rewrite delete_insert_id.
Qed.

Lemma end_jobID_run fs k :
  is_Some (fs !! timeout_name d k) →
  end_jobID d k fs = (Ok tt, delete (timeout_name d k) fs).
Proof. intros [text H]. unfold end_jobID, remove. by rewrite H. Qed.
End jobs.

Section sessions.
Import GPutils.
Context (d : config) (shuffle : list string → list string).
Hypothesis Hlock_job : lockfile d ≠ jobfile d.
Hypothesis Hlock_tn : ∀ k, lockfile d ≠ timeout_name d k.

Lemma session_app calls1 calls2 fs ids1 fs1 ids2 fs2 :
  session d shuffle calls1 fs = (Ok ids1, fs1) →
  session d shuffle calls2 fs1 = (Ok ids2, fs2) →
  session d shuffle (calls1 ++ calls2) fs = (Ok (ids1 ++ ids2), fs2).
Proof.
  revert fs ids1. induction calls1 as [|call calls1 IH]; intros fs ids1; simpl.
  { by intros [= <- <-]. }
  destruct call as [|jobID|path].
  - intros (jobID & fsa & Hfind & H)%bind_inv_Ok.
    apply bind_inv_Ok in H as (ids & fsb & Hrest & [= <- <-]).
    intros Hcalls2. rewrite (bind_Ok _ _ _ _ _ Hfind).
    by rewrite (bind_Ok _ _ _ _ _ (IH _ _ Hrest Hcalls2)).
  - intros ([] & fsa & Hend & H)%bind_inv_Ok Hcalls2.
    rewrite (bind_Ok _ _ _ _ _ Hend). eauto.
  - intros ([] & fsa & Htouch & H)%bind_inv_Ok Hcalls2.
    rewrite (bind_Ok _ _ _ _ _ Htouch). eauto.
Qed.

Local Abbreviation between := (between d).

Lemma first_pass_from (release : Z → bool) (N : nat) :
  Nsims d = Z.of_nat N →
  ∀ n k fs,
    (k + n ≤ N)%nat →
    between release fs (Z.of_nat k) →
    ∃ fs',
      session d shuffle (flat_map (lease release) (Z.of_nat <$> seq k n)) fs
      = (Ok (Z.of_nat <$> seq k n), fs')
      ∧ between release fs' (Z.of_nat (k + n))
      ∧ ∀ name, is_Some (fs' !! name) →
          is_Some (fs !! name) ∨ name = jobfile d
          ∨ ∃ j, (Z.of_nat k ≤ j < Z.of_nat (k + n))%Z
                 ∧ release j = false ∧ name = timeout_name d j.
Proof using Hlock_job Hlock_tn.
  intros HN. induction n as [|n IH]; intros k fs Hle (Hk & Hfree & Hmarks).
  { exists fs. rewrite Nat.add_0_r. simpl. repeat split; auto. }
  pose proof (find_jobID_first_pass d shuffle Hlock_job fs (Z.of_nat k) Hk
                ltac:(lia) Hfree (Hlock_tn _)) as Hfind.
  pose proof (timeout_name_not_jobfile d (Z.of_nat k)) as Htn_job.
  set (fs1 := leased d (Z.of_nat k) fs) in *.
  assert (Htn1 : is_Some (fs1 !! timeout_name d (Z.of_nat k))).
  { subst fs1. unfold leased.
    rewrite lookup_insert_ne, lookup_insert_eq by done. eauto. }
  assert (Hjob1 : fs1 !! jobfile d = Some (str (Z.of_nat k + 1)))
    by (subst fs1; unfold leased; apply lookup_insert_eq).
  assert (Hfree1 : fs1 !! lockfile d = None).
  { subst fs1. unfold leased.
    rewrite !lookup_insert_ne;
      [done | apply not_eq_sym, Hlock_tn | by apply not_eq_sym]. }
  assert (Hold1 : ∀ j, (0 ≤ j < Z.of_nat k)%Z → release j = false →
                       is_Some (fs1 !! timeout_name d j)).
  { intros j Hj Hrel. subst fs1. unfold leased.
    rewrite lookup_insert_ne by apply not_eq_sym, timeout_name_not_jobfile.
    rewrite lookup_insert_ne by (intros ?%timeout_name_inj; lia).
    by apply Hmarks. }
  assert (Hnames1 : ∀ name, is_Some (fs1 !! name) →
            is_Some (fs !! name) ∨ name = jobfile d
            ∨ name = timeout_name d (Z.of_nat k)).
  { intros name. subst fs1. unfold leased.
    destruct (decide (name = jobfile d)) as [->|]; [auto|].
    destruct (decide (name = timeout_name d (Z.of_nat k))) as [->|]; [auto|].
    rewrite !lookup_insert_ne by (by apply not_eq_sym). auto. }
  (* the state in which the next call starts *)
  set (fs2 := if release (Z.of_nat k)
              then delete (timeout_name d (Z.of_nat k)) fs1 else fs1).
  assert (Hbetween : between release fs2 (Z.of_nat (S k))).
  { subst fs2. split; [|split].
    - unfold counter.
      replace (Z.of_nat (S k)) with (Z.of_nat k + 1)%Z by lia.
      destruct (release _);
        rewrite ?lookup_delete_ne by done; rewrite Hjob1; apply int_str.
    - destruct (release _); [|done].
      rewrite lookup_delete_ne; [done | apply not_eq_sym, Hlock_tn].
    - intros j Hj Hrel.
      destruct (decide (j = Z.of_nat k)) as [->|Hjk].
      + by rewrite Hrel.
      + destruct (release (Z.of_nat k)); [|apply Hold1; [lia|done]].
        rewrite lookup_delete_ne; [apply Hold1; [lia|done]|].
        intros ?%timeout_name_inj. done. }
  destruct (IH (S k) fs2 ltac:(lia) Hbetween) as (fs' & Hrest & Hb' & Hnames).
  exists fs'. split; [|split].
  - simpl. rewrite (bind_Ok _ _ _ _ _ Hfind).
    assert (Hlease : session d shuffle
              (((if release (Z.of_nat k) then [End (Z.of_nat k)] else [])
                ++ flat_map (lease release) (Z.of_nat <$> seq (S k) n))%list)
              fs1 = (Ok (Z.of_nat <$> seq (S k) n), fs')).
    { subst fs2. destruct (release (Z.of_nat k)); simpl; [|done].
      by rewrite (bind_Ok _ _ _ _ _ (end_jobID_run d fs1 _ Htn1)). }
    by rewrite (bind_Ok _ _ _ _ _ Hlease).
  - by replace (k + S n) with (S k + n) by lia.
  - intros name Hname.
    apply Hnames in Hname as [Hname|[->|(j & Hj & Hrel & ->)]].
    + assert (is_Some (fs1 !! name) ∧
              (release (Z.of_nat k) = true →
               name ≠ timeout_name d (Z.of_nat k))) as [Hname1 Hrel].
      { subst fs2. destruct (release (Z.of_nat k)); [|done].
        destruct (decide (name = timeout_name d (Z.of_nat k))) as [->|Hne].
        - rewrite lookup_delete_eq in Hname. by destruct Hname.
        - by rewrite lookup_delete_ne in Hname. }
      apply Hnames1 in Hname1 as [?|[?| ->]]; auto.
      right. right. exists (Z.of_nat k). split; [lia|]. split; [|done].
      destruct (release (Z.of_nat k)); [|done]. by destruct Hrel.
    + auto.
    + right. right. exists j. split; [lia|done].
Qed.

Lemma sentinel_forever :
  (∀ l, shuffle l ≡ₚ l) →
  ∀ extra fs c,
    counter d fs c → (Nsims d ≤ c)%Z →
    fs !! lockfile d = None → no_markers d fs →
    ∃ fs', session d shuffle (replicate extra Find) fs
           = (Ok (replicate extra (Nsims d)), fs').
Proof using Hlock_job.
  intros Hperm. induction extra as [|extra IH]; intros fs c Hc Hge Hfree Hclean.
  { by exists fs. }
  pose proof (find_jobID_sentinel d shuffle Hlock_job fs c Hperm Hc Hge
                Hfree Hclean) as Hfind.
  set (fs1 := <[jobfile d := _]> fs) in *.
  destruct (IH fs1 c) as (fs' & Hrest); try done.
  - destruct (counter_text d fs c Hc) as (text & Htext & Hint).
    subst fs1. unfold counter. by rewrite Htext.
  - subst fs1. by rewrite lookup_insert_ne.
  - intros name [Hname|Hname]; [|by apply Hclean; right].
    apply Hclean. subst fs1.
    destruct (decide (name = jobfile d)) as [->|]; [auto|].
    left. by rewrite lookup_insert_ne in Hname.
  - exists fs'. simpl. rewrite (bind_Ok _ _ _ _ _ Hfind).
    by rewrite (bind_Ok _ _ _ _ _ Hrest).
Qed.
End sessions.

(** The session of the module's doctest: job 0 completes, job 1 times
    out, job 2 fails and leaves an error file; then the failed job is
    redone first, the timed-out one next, and the last call returns
    [Nsims]. *)
Example GPutils_doctest :
  (GPutils.session doctest_settings id
     [GPutils.Find; GPutils.End 0; GPutils.Find; GPutils.Find;
      GPutils.Touch "error_2.pickle"; GPutils.End 2; GPutils.Find;
      GPutils.End 2; GPutils.Find; GPutils.End 1; GPutils.Find] ∅).1
  = Ok [0; 1; 2; 2; 1; 3]%Z.
Proof. vm_compute. reflexivity. Qed.

(** C4.  With [Nsims = N] and a job file that is new or not there yet, [N]
    calls return 0, 1, ..., N-1 in this order, whether or not the ids are
    released in between; each leaves the counter one higher and, for an
    id not released, its timeout marker in place.  When every id has been
    released and no name in the directory looks like an error or timeout
    marker, all further calls return [Nsims]. *)
Theorem find_jobID_first_pass_then_sentinel (d : GPutils.config)
    (shuffle : list string → list string) (N : nat) (release : Z → bool)
    (extra : nat) (fs : gmap string string) :
  GPutils.Nsims d = Z.of_nat N →
  GPutils.lockfile d ≠ GPutils.jobfile d →
  (∀ k, GPutils.lockfile d ≠ GPutils.timeout_name d k) →
  fs !! GPutils.lockfile d = None →
  counter d fs 0 →
  (∃ fs1,
     GPutils.session d shuffle (GPutils.first_pass release N) fs
     = (Ok (Z.of_nat <$> seq 0 N), fs1)
     ∧ counter d fs1 (Z.of_nat N)
     ∧ ∀ j, (0 ≤ j < Z.of_nat N)%Z → release j = false →
            is_Some (fs1 !! GPutils.timeout_name d j))
  ∧ ((∀ l, shuffle l ≡ₚ l) → no_markers d fs →
     ∃ fs2,
       GPutils.session d shuffle
         (GPutils.first_pass (λ _, true) N ++ replicate extra GPutils.Find) fs
       = (Ok ((Z.of_nat <$> seq 0 N) ++ replicate extra (GPutils.Nsims d)),
          fs2)).
Proof.
  intros HN Hlock_job Hlock_tn Hfree Hfresh. split.
  - destruct (first_pass_from d shuffle Hlock_job Hlock_tn release N HN
                N 0 fs) as (fs1 & Hrun & (Hc & _ & Hmarks) & _).
    { lia. } { split; [done|]. split; [done|]. intros j ?. lia. }
    exists fs1. split; [exact Hrun|]. split; [exact Hc | exact Hmarks].
  - intros Hperm Hclean.
    destruct (first_pass_from d shuffle Hlock_job Hlock_tn (λ _, true) N HN
                N 0 fs) as (fs1 & Hrun & (Hc & Hfree1 & _) & Hnames).
    { lia. } { split; [done|]. split; [done|]. intros j ?. lia. }
    destruct (sentinel_forever d shuffle Hlock_job Hperm extra fs1
                (Z.of_nat N)) as (fs2 & Hrest); try done.
    + lia.
    + intros name [Hname|Hname]; [|by apply Hclean; right].
      apply Hnames in Hname as [?|[->|(j & _ & ? & _)]]; [| |done].
      * apply Hclean. by left.
      * apply Hclean. right. by left.
    + exists fs2. by eapply session_app.
Qed.

Lemma find_jobID_first_pass_then_sentinel_witness :
  ∃ fs2,
    GPutils.session doctest_settings id
      [GPutils.Find; GPutils.End 0; GPutils.Find; GPutils.End 1;
       GPutils.Find; GPutils.End 2; GPutils.Find; GPutils.Find] ∅
    = (Ok [0; 1; 2; 3; 3]%Z, fs2).
Proof.
  destruct (find_jobID_first_pass_then_sentinel doctest_settings id 3
              (λ _, true) 2 ∅) as [_ Hall].
  - reflexivity.
  - done.
  - intros k H. cbv -[GPutils.str] in H. discriminate H.
  - reflexivity.
  - reflexivity.
  - apply Hall.
    + intros l. reflexivity.
    + intros name [[text H]|[->| ->]]; [by rewrite lookup_empty in H | |];
        vm_compute; reflexivity.
Defined.

(** ** Redoing timed-out jobs *)

Section redo.
Import GPutils.
Context (d : config) (shuffle : list string → list string).
Hypothesis Hlock_job : lockfile d ≠ jobfile d.
Hypothesis Hperm : ∀ l, shuffle l ≡ₚ l.

(** The scan for timeout markers ends with the id of the last name that
    contains [job_timeout], or with the id it started from. *)
Lemma scan_timeouts_picks files : ∀ jobID (fs : gmap string string),
  (∀ f, f ∈ files → contains "job_timeout" f = true →
        is_Some (int (id_part f))) →
  ∃ k, scan_timeouts files jobID fs = (Ok k, fs)
       ∧ ((k = jobID ∧ ∀ f, f ∈ files → contains "job_timeout" f = false)
          ∨ ∃ f, f ∈ files ∧ contains "job_timeout" f = true
                 ∧ int (id_part f) = Some k).
Proof.
  induction files as [|f files IH]; intros jobID fs Hparse; simpl.
  { exists jobID. split; [done|]. left. split; [done|].
    by intros f ?%elem_of_nil. }
  assert (Hparse' : ∀ f', f' ∈ files → contains "job_timeout" f' = true →
                          is_Some (int (id_part f')))
    by (intros f' ?; apply Hparse; by apply list_elem_of_further).
  destruct (contains "job_timeout" f) eqn:Hf.
  - destruct (Hparse f (list_elem_of_here _ _) Hf) as [kf Hkf].
    rewrite (bind_Ok _ _ _ _ _ (int_run _ _ _ Hkf)).
    destruct (IH kf fs Hparse') as (k & Hrun & Hk).
    exists k. split; [done|]. right.
    destruct Hk as [[-> _]|(f' & Hin & Hf' & Hk)].
    + exists f. split; [apply list_elem_of_here | done].
    + exists f'. split; [by apply list_elem_of_further | done].
  - destruct (IH jobID fs Hparse') as (k & Hrun & Hk).
    exists k. split; [done|].
    destruct Hk as [[-> Hnone]|(f' & Hin & Hf' & Hk)].
    + left. split; [done|].
      intros f' [->|?]%elem_of_cons; [done | by apply Hnone].
    + right. exists f'. split; [by apply list_elem_of_further | done].
Qed.

Local Abbreviation listed := (listed d).

Lemma elem_of_listing fs f :
  f ∈ shuffle (elements (dom (<[lockfile d := ""]>
         (<[jobfile d := default "0" (fs !! jobfile d)]> fs)))) ↔
  listed fs f.
Proof using Hperm.
  rewrite Hperm, elem_of_elements, elem_of_dom.
  rewrite !lookup_insert_is_Some'. unfold listed.
  split; intros [?|[?|?]]; subst; auto.
Qed.

(** When all ids have been issued and no listed name contains [error],
    a call returns the id read off some listed name that contains
    [job_timeout], and puts that id's timeout marker (back) in place. *)
Lemma find_jobID_timeout_redo fs c :
  counter d fs c →
  (Nsims d ≤ c)%Z →
  fs !! lockfile d = None →
  (∀ f, listed fs f → contains "error" f = false) →
  (∀ f, listed fs f → contains "job_timeout" f = true →
        ∃ k, int (id_part f) = Some k ∧ (k < Nsims d)%Z
             ∧ timeout_name d k ≠ lockfile d) →
  (∃ f, listed fs f ∧ contains "job_timeout" f = true) →
  ∃ f k,
    listed fs f ∧ contains "job_timeout" f = true
    ∧ int (id_part f) = Some k
    ∧ find_jobID d shuffle fs
      = (Ok k,
         let fs1 := <[jobfile d := default "0" (fs !! jobfile d)]> fs in
         <[timeout_name d k := default "" (fs1 !! timeout_name d k)]> fs1).
Proof using Hlock_job Hperm.
  intros Hc Hge Hfree Hnoerr Hmarks [f0 [Hf0 Hf0m]].
  destruct (counter_text d fs c Hc) as (text & Htext & Hint).
  set (fs1 := <[jobfile d := _]> fs) in *.
  assert (Hfree1 : fs1 !! lockfile d = None)
    by (subst fs1; by rewrite lookup_insert_ne).
  set (files := shuffle (elements (dom (<[lockfile d := ""]> fs1)))).
  destruct (scan_timeouts_picks files c (<[lockfile d := ""]> fs1))
    as (k & Hscan & Hk).
  { intros f Hf Hfm. apply elem_of_listing in Hf.
    destruct (Hmarks f Hf Hfm) as (k & -> & _). eauto. }
  destruct Hk as [[_ Hnone]|(f & Hf & Hfm & Hfk)].
  { apply elem_of_listing in Hf0. apply Hnone in Hf0. congruence. }
  apply elem_of_listing in Hf.
  destruct (Hmarks f Hf Hfm) as (k' & Hk' & Hlt & Htn_lock).
  assert (k' = k) as -> by congruence.
  exists f, k. repeat (split; [done|]).
  unfold find_jobID. rewrite create_jobfile_run. fold fs1.
  unfold with_, Lock_enter, Lock_exit, try_finally, locked, bind.
  rewrite exists_run, Hfree1. simpl.
  unfold read. rewrite lookup_insert_ne, Htext by done.
  rewrite (int_run _ _ _ Hint).
  rewrite (proj2 (Z.ltb_ge _ _) Hge).
  unfold listdir, gets. fold files.
  rewrite scan_errors_none; cycle 1.
  { apply Forall_forall. intros f' Hf'. apply elem_of_listing in Hf'. auto. }
  rewrite (proj2 (Z.ltb_ge _ _) Hge).
  rewrite Hscan.
  rewrite (proj2 (Z.ltb_lt _ _) Hlt).
  rewrite touch_run. simpl.
  unfold remove. rewrite lookup_insert_ne, lookup_insert_eq by done.
  f_equal. rewrite lookup_insert_ne by done.
  rewrite delete_insert_ne by done.
  by rewrite delete_insert_id.
Qed.

(** The scan for error files ends with the id of the first name that
    contains [error], or with the id it started from. *)
Lemma scan_errors_picks files : ∀ jobID (fs : gmap string string),
  (∀ f, f ∈ files → contains "error" f = true →
        is_Some (int (id_part f))) →
  ∃ k, scan_errors files jobID fs = (Ok k, fs)
       ∧ ((k = jobID ∧ ∀ f, f ∈ files → contains "error" f = false)
          ∨ ∃ f, f ∈ files ∧ contains "error" f = true
                 ∧ int (id_part f) = Some k).
Proof.
  induction files as [|f files IH]; intros jobID fs Hparse; simpl.
  { exists jobID. split; [done|]. left. split; [done|].
    by intros f ?%elem_of_nil. }
  destruct (contains "error" f) eqn:Hf.
  - destruct (Hparse f (list_elem_of_here _ _) Hf) as [kf Hkf].
    exists kf. split; [by apply int_run|]. right.
    exists f. split; [apply list_elem_of_here | done].
  - destruct (IH jobID fs) as (k & Hrun & Hk).
    { intros f' ?. apply Hparse. by apply list_elem_of_further. }
    exists k. split; [done|].
    destruct Hk as [[-> Hnone]|(f' & Hin & Hf' & Hk)].
    + left. split; [done|].
      intros f' [->|?]%elem_of_cons; [done | by apply Hnone].
    + right. exists f'. split; [by apply list_elem_of_further | done].
Qed.

(** When all ids have been issued and some listed name contains [error],
    a call returns the id read off such a name, whatever timeout markers
    there are; it puts that id's timeout marker in place and renames
    [<errorfile>_<id>.pickle] to [<jobfile>_redone_<id>.pickle], contents
    included.  This needs every such name to end in an id below [Nsims]
    whose error pickle exists. *)
Lemma find_jobID_error_redo fs c :
  counter d fs c →
  (Nsims d ≤ c)%Z →
  fs !! lockfile d = None →
  (∀ f, listed fs f → contains "error" f = true →
        ∃ k payload,
          int (id_part f) = Some k ∧ (k < Nsims d)%Z
          ∧ fs !! error_name d k = Some payload
          ∧ error_name d k ≠ jobfile d
          ∧ error_name d k ≠ timeout_name d k
          ∧ timeout_name d k ≠ lockfile d
          ∧ redone_name d k ≠ lockfile d) →
  (∃ f, listed fs f ∧ contains "error" f = true) →
  ∃ f k payload,
    listed fs f ∧ contains "error" f = true
    ∧ int (id_part f) = Some k
    ∧ fs !! error_name d k = Some payload
    ∧ find_jobID d shuffle fs
      = (Ok k,
         let fs1 := <[jobfile d := default "0" (fs !! jobfile d)]> fs in
         <[redone_name d k := payload]>
           (delete (error_name d k)
              (<[timeout_name d k := default "" (fs1 !! timeout_name d k)]>
                 fs1))).
Proof using Hlock_job Hperm.
  intros Hc Hge Hfree Herrs [f0 [Hf0 Hf0m]].
  destruct (counter_text d fs c Hc) as (text & Htext & Hint).
  set (fs1 := <[jobfile d := _]> fs) in *.
  assert (Hfree1 : fs1 !! lockfile d = None)
    by (subst fs1; by rewrite lookup_insert_ne).
  set (files := shuffle (elements (dom (<[lockfile d := ""]> fs1)))).
  destruct (scan_errors_picks files c (<[lockfile d := ""]> fs1))
    as (k & Hscan & Hk).
  { intros f Hf Hfm. apply elem_of_listing in Hf.
    destruct (Herrs f Hf Hfm) as (k & payload & -> & _). eauto. }
  destruct Hk as [[_ Hnone]|(f & Hf & Hfm & Hfk)].
  { apply elem_of_listing in Hf0. apply Hnone in Hf0. congruence. }
  apply elem_of_listing in Hf.
  destruct (Herrs f Hf Hfm)
    as (k' & payload & Hk' & Hlt & Hpay & Herr_job & Herr_tn & Htn_lock
        & Hred_lock).
  assert (k' = k) as -> by congruence.
  assert (Herr_lock : error_name d k ≠ lockfile d)
    by (intros Heq; rewrite Heq, Hfree in Hpay; done).
  exists f, k, payload. repeat (split; [done|]).
  unfold find_jobID. rewrite create_jobfile_run. fold fs1.
  unfold with_, Lock_enter, Lock_exit, try_finally, locked, bind.
  rewrite exists_run, Hfree1. simpl.
  unfold read. rewrite lookup_insert_ne, Htext by done.
  rewrite (int_run _ _ _ Hint).
  rewrite (proj2 (Z.ltb_ge _ _) Hge).
  unfold listdir, gets. fold files.
  rewrite Hscan.
  rewrite (proj2 (Z.ltb_lt _ _) Hlt).
  rewrite touch_run. simpl.
  unfold move.
  assert (Hpay1 : fs1 !! error_name d k = Some payload)
    by (subst fs1; by rewrite lookup_insert_ne by (by apply not_eq_sym)).
  rewrite (lookup_insert_ne _ (timeout_name d k) (error_name d k))
    by (by apply not_eq_sym).
  rewrite (lookup_insert_ne _ (lockfile d) (error_name d k))
    by (by apply not_eq_sym).
  rewrite Hpay1.
  unfold remove, ret.
  rewrite lookup_insert_ne, lookup_delete_ne, lookup_insert_ne,
    lookup_insert_eq by done.
  f_equal. rewrite (lookup_insert_ne _ (lockfile d)) by (by apply not_eq_sym).
  apply map_eq. intros x.
  repeat (rewrite ?lookup_delete, ?lookup_insert; case_decide; subst;
          try done).
Qed.
End redo.

(** ** Two settings in which a redo is missed *)

(** The names in a directory written as a chain of insertions. *)
Ltac enumerate H :=
  repeat (apply lookup_insert_is_Some' in H as [<-|H]);
  [.. | rewrite lookup_empty in H; by destruct H].

(** C6 fails on the code when the job file is not called [job].  With
    [jobfile = "jobfile"] and [Nsims = 3], the ids 0, 1, 2 are handed out
    and none is released; the three markers [jobfile_timeout_<id>] are in
    the directory, but the scan looks for names containing [job_timeout],
    finds none and the fourth call returns 3: in whatever order the
    listing is shuffled. *)
Theorem timeout_redo_missed (shuffle : list string → list string) :
  (∀ l, shuffle l ≡ₚ l) →
  ∃ fs,
    GPutils.session jobfile_settings shuffle
      [GPutils.Find; GPutils.Find; GPutils.Find; GPutils.Find] ∅
    = (Ok [0; 1; 2; 3]%Z, fs)
    ∧ is_Some (fs !! GPutils.timeout_name jobfile_settings 0)
    ∧ is_Some (fs !! GPutils.timeout_name jobfile_settings 1)
    ∧ is_Some (fs !! GPutils.timeout_name jobfile_settings 2).
Proof.
  intros Hperm. set (d := jobfile_settings).
  assert (Hlock_job : GPutils.lockfile d ≠ GPutils.jobfile d) by done.
  assert (Hlock_tn : ∀ k, GPutils.lockfile d ≠ GPutils.timeout_name d k).
  { intros k H. cbv -[GPutils.str] in H. discriminate H. }
  destruct (first_pass_from d shuffle Hlock_job Hlock_tn (λ _, false) 3
              eq_refl 3 0 ∅) as (fs1 & Hrun & (Hc & Hfree & Hmarks) & Hnames).
  { lia. } { split; [done|]. split; [done|]. intros j ?. lia. }
  assert (Hclean : no_markers d fs1).
  { intros name [Hname|[->| ->]]; [|done..].
    apply Hnames in Hname as [[? H]|[->|(j & Hj & _ & ->)]];
      [by rewrite lookup_empty in H | done |].
    assert (j = 0 ∨ j = 1 ∨ j = 2)%Z as [->|[->| ->]] by lia; done. }
  pose proof (find_jobID_sentinel d shuffle Hlock_job fs1 3 Hperm Hc
                ltac:(done) Hfree Hclean) as Hlast.
  set (fs2 := <[GPutils.jobfile d := _]> fs1) in *.
  exists fs2. split.
  - apply (session_app d shuffle
             [GPutils.Find; GPutils.Find; GPutils.Find] [GPutils.Find]
             ∅ [0; 1; 2]%Z fs1 [3%Z] fs2); [exact Hrun|].
    simpl. by rewrite (bind_Ok _ _ _ _ _ Hlast).
  - subst fs2.
    rewrite !lookup_insert_ne by apply not_eq_sym, timeout_name_not_jobfile.
    repeat split; by apply Hmarks.
Qed.

Lemma timeout_redo_missed_witness :
  ∃ fs,
    GPutils.session jobfile_settings id
      [GPutils.Find; GPutils.Find; GPutils.Find; GPutils.Find] ∅
    = (Ok [0; 1; 2; 3]%Z, fs)
    ∧ is_Some (fs !! "jobfile_timeout_0")
    ∧ is_Some (fs !! "jobfile_timeout_1")
    ∧ is_Some (fs !! "jobfile_timeout_2").
Proof. apply (timeout_redo_missed id). intros l. reflexivity. Defined.

(** C5 fails on the code when the error pickles are not called
    [error...].  With [errorfile = "failed"] and [Nsims = 3]: job 0
    completes, job 1 times out, job 2 fails, leaving [failed_2.pickle],
    and its timeout marker is removed.  The next call does not see the
    error pickle, because it looks for names containing [error]; it
    returns the timed-out id 1 and leaves the pickle where it is: in
    whatever order the listing is shuffled. *)
Theorem error_redo_missed (shuffle : list string → list string) :
  (∀ l, shuffle l ≡ₚ l) →
  ∃ fs,
    GPutils.session failed_settings shuffle
      [GPutils.Find; GPutils.End 0; GPutils.Find; GPutils.Find;
       GPutils.Touch (GPutils.error_name failed_settings 2);
       GPutils.End 2; GPutils.Find] ∅
    = (Ok [0; 1; 2; 1]%Z, fs)
    ∧ is_Some (fs !! GPutils.error_name failed_settings 2)
    ∧ fs !! GPutils.redone_name failed_settings 2 = None.
Proof.
  intros Hperm. set (d := failed_settings).
  set (fs6 := <["job" := "3"]> (<["job_timeout_1" := ""]>
                (<["failed_2.pickle" := ""]> (∅ : gmap string string)))).
  assert (Hprefix :
    GPutils.session d shuffle
      [GPutils.Find; GPutils.End 0; GPutils.Find; GPutils.Find;
       GPutils.Touch (GPutils.error_name d 2); GPutils.End 2] ∅
    = (Ok [0; 1; 2]%Z, fs6)) by (vm_compute; reflexivity).
  destruct (find_jobID_timeout_redo d shuffle ltac:(done) Hperm fs6 3)
    as (f & k & Hf & Hfm & Hfk & Hlast).
  - reflexivity.
  - done.
  - reflexivity.
  - intros f [Hf|[->| ->]]; [enumerate Hf|..]; reflexivity.
  - intros f [Hf|[->| ->]]; [enumerate Hf|..]; try discriminate.
    intros _. exists 1%Z. by vm_compute.
  - exists "job_timeout_1". split; [left; by eexists | reflexivity].
  - assert (k = 1%Z) as ->.
    { destruct Hf as [Hf|[->| ->]]; [enumerate Hf|..]; try discriminate.
      vm_compute in Hfk. by injection Hfk. }
    eexists. split.
    + apply (session_app d shuffle _ [GPutils.Find] ∅ [0; 1; 2]%Z fs6
               [1%Z] _ Hprefix).
      simpl. by rewrite (bind_Ok _ _ _ _ _ Hlast).
    + split; vm_compute; eauto.
Qed.

Lemma error_redo_missed_witness :
  ∃ fs,
    GPutils.session failed_settings id
      [GPutils.Find; GPutils.End 0; GPutils.Find; GPutils.Find;
       GPutils.Touch "failed_2.pickle"; GPutils.End 2; GPutils.Find] ∅
    = (Ok [0; 1; 2; 1]%Z, fs)
    ∧ is_Some (fs !! "failed_2.pickle")
    ∧ fs !! "job_redone_2.pickle" = None.
Proof. apply (error_redo_missed id). intros l. reflexivity. Defined.

(** * Further properties *)

(** ** More on the named view *)

(** X1.  [Recarraylink(x, dtype)] on a live array with one value per field
    gives a well-formed link on [x] whose own array is a new object holding
    a copy of [x]; [x] and every other array are left as they were.  On an
    array whose length is no multiple of the number of fields the
    constructor raises ValueError. *)
Theorem Recarraylink_init_establishes_link
    (x : nat) (dtype : list string) (s : store) (xs : list float) :
  bufs s !! x = Some xs →
  (length xs = length dtype →
   ∃ r s',
     Recarraylink.__init__ x dtype s = (Ok r, s')
     ∧ linked r s'
     ∧ Recarraylink._x r = x
     ∧ Recarraylink.names r = dtype
     ∧ bufs s !! Recarraylink._xa r = None
     ∧ bufs s' !! Recarraylink._xa r = Some xs
     ∧ (∀ l, is_Some (bufs s !! l) → bufs s' !! l = bufs s !! l))
  ∧ (dtype ≠ [] → (length xs mod length dtype ≠ 0)%nat →
     ∃ msg s', Recarraylink.__init__ x dtype s = (Raise (ValueError msg), s')).
Proof.
  intros Hx. unfold Recarraylink.__init__, np.contents, np.array, bind.
  rewrite Hx. split; [intros Hlen | intros _ Hlen].
  - rewrite decide_True by done.
    assert (Hnew : bufs s !! fresh (dom (bufs s)) = None)
      by apply not_elem_of_dom, is_fresh.
    eexists _, _. split; [reflexivity|].
    assert (Hne : x ≠ fresh (dom (bufs s))) by (intros Heq; congruence).
    simpl. repeat split; try done.
    + exists xs, xs. simpl.
      by rewrite lookup_insert_eq, lookup_insert_ne.
    + apply lookup_insert_eq.
    + intros l [ys Hl]. apply lookup_insert_ne. congruence.
  - rewrite decide_False; [by eexists _, _|].
    intros Heq. apply Hlen. rewrite Heq. apply Nat.Div0.mod_same.
Qed.

Lemma Recarraylink_init_establishes_link_witness :
  ∃ r s',
    Recarraylink.__init__ 1 ["x"; "y"] vdp_store = (Ok r, s')
    ∧ linked r s'
    ∧ bufs s' !! Recarraylink._xa r = Some [(-2)%float; 0%float].
Proof.
  destruct (Recarraylink_init_establishes_link 1 ["x"; "y"] vdp_store
              [(-2)%float; 0%float] eq_refl) as [Hok _].
  destruct (Hok eq_refl) as (r & s' & Hrun & Hlinked & _ & _ & _ & Hxa & _).
  by exists r, s'.
Defined.

(** X2.  A name that is not a field of the record: reading it raises
    AttributeError, assigning to it is handed to [object.__setattr__]
    without an error; in both cases the flat buffer keeps its contents. *)
Theorem Recarraylink_unknown_field
    (r : Recarraylink.obj) (s : store) (attr : string) (v : float) :
  linked r s →
  attr ∉ Recarraylink.names r →
  (∃ msg s', Recarraylink.__getattr__ r attr s
             = (Raise (AttributeError msg), s')
             ∧ bufs s' !! Recarraylink._x r = bufs s !! Recarraylink._x r)
  ∧ (∃ s', Recarraylink.__setattr__ r attr v s
           = (Ok Recarraylink.InstanceAttribute, s')
           ∧ bufs s' !! Recarraylink._x r = bufs s !! Recarraylink._x r).
Proof.
  intros Hl Hattr. pose proof Hl as [Hne _].
  destruct (linked_lookup _ _ Hl) as (xs & xa & Hx & Hxa & Hlen & _).
  apply index_None in Hattr. split.
  - eexists _, _. split.
    + unfold Recarraylink.__getattr__, try_except, bind.
      rewrite (contents_ok _ _ _ Hx).
      rewrite (setslice_ok _ _ xa xs Hxa) by done.
      unfold Recarraylink.field. rewrite Hattr. reflexivity.
    + simpl. by rewrite lookup_insert_ne.
  - eexists. split.
    + by apply (setattr_other r s xs xa).
    + simpl. by rewrite lookup_insert_ne.
Qed.

Lemma Recarraylink_unknown_field_witness :
  ∃ msg s',
    Recarraylink.__getattr__ (Namedcvodeint.yr vdp) "z" vdp_store
    = (Raise (AttributeError msg), s')
    ∧ bufs s' !! 1 = Some [(-2)%float; 0%float].
Proof.
  destruct (Recarraylink_unknown_field (Namedcvodeint.yr vdp) vdp_store "z"
              0%float) as [(msg & s' & Hrun & Hbuf) _].
  - split; [done|]. by eexists _, _.
  - intros H. apply list_elem_of_In in H. simpl in H. intuition discriminate.
  - exists msg, s'. split; [exact Hrun|]. etrans; [exact Hbuf | reflexivity].
Defined.

(** X3.  A named read never writes to the flat buffer, nor to any array
    other than the link's own: whatever the name and whatever the store,
    and whether the read returns or raises. *)
Theorem Recarraylink_getattr_only_refreshes
    (r : Recarraylink.obj) (attr : string) (s s' : store)
    (res : result float) (a : nat) :
  Recarraylink.__getattr__ r attr s = (res, s') →
  a ≠ Recarraylink._xa r →
  bufs s' !! a = bufs s !! a ∧ nrtfn s' = nrtfn s.
Proof.
  intros Hrun Ha. split.
  - by apply (keeps_getattr a r attr (not_eq_sym Ha) s res s').
  - revert Hrun. unfold Recarraylink.__getattr__, try_except, bind,
      np.contents, np.setslice, bind, np.contents, modify, raise.
    destruct (bufs s !! Recarraylink._x r); [|by intros [= _ <-]].
    destruct (bufs s !! Recarraylink._xa r); [|by intros [= _ <-]].
    case_decide; [|by intros [= _ <-]].
    unfold Recarraylink.field. simpl.
    destruct (np.index attr (Recarraylink.names r)); [|by intros [= _ <-]].
    simpl. rewrite lookup_insert_eq.
    match goal with |- context [?l !! ?i] => destruct (l !! i) end;
      by intros [= _ <-].
Qed.

Lemma Recarraylink_getattr_only_refreshes_witness :
  bufs (Recarraylink.__getattr__ (Namedcvodeint.yr vdp) "x" vdp_store).2 !! 1
  = bufs vdp_store !! 1.
Proof.
  apply (Recarraylink_getattr_only_refreshes (Namedcvodeint.yr vdp) "x"
           vdp_store _ (Ok (-2)%float) 1); [reflexivity | done].
Defined.

(** X4.  [__array__] hands out the link's own array without refreshing
    it.  After the flat buffer has been overwritten in place it still
    shows what the link last saw; a named read in between brings it up
    to date. *)
Theorem Recarraylink_array_is_not_refreshed
    (r : Recarraylink.obj) (s : store) (xs xa ys : list float)
    (f : string) :
  linked r s →
  bufs s !! Recarraylink._x r = Some xs →
  bufs s !! Recarraylink._xa r = Some xa →
  length ys = length xs →
  f ∈ Recarraylink.names r →
  (∃ s', (np.setslice (Recarraylink._x r) ys;;
          Recarraylink.__array__ r) s = (Ok xa, s'))
  ∧ (∃ s', (np.setslice (Recarraylink._x r) ys;;
            Recarraylink.__getattr__ r f;;
            Recarraylink.__array__ r) s = (Ok ys, s')).
Proof.
  intros Hl Hx Hxa Hlen Hf. pose proof Hl as [Hne _].
  pose proof (linked_overwrite r s xs ys Hl Hx Hlen) as Hl'.
  destruct (linked_lookup _ _ Hl') as (ys' & xa' & Hy & Hxa' & Hlen' & Hnames).
  simpl in Hy, Hxa'. rewrite lookup_insert_eq in Hy. injection Hy as <-.
  rewrite lookup_insert_ne in Hxa' by done.
  assert (xa' = xa) as -> by congruence.
  set (s1 := set_bufs <[Recarraylink._x r := ys]> s) in *.
  assert (Hext : np.setslice (Recarraylink._x r) ys s = (Ok tt, s1))
    by (by apply (setslice_ok s _ xs)).
  assert (Hy1 : bufs s1 !! Recarraylink._x r = Some ys)
    by (subst s1; simpl; apply lookup_insert_eq).
  assert (Hxa1 : bufs s1 !! Recarraylink._xa r = Some xa)
    by (subst s1; simpl; by rewrite lookup_insert_ne).
  split.
  - eexists. rewrite (bind_Ok _ _ _ _ _ Hext).
    unfold Recarraylink.__array__. by apply contents_ok.
  - destruct (index_is_Some _ _ Hf) as [i Hi].
    pose proof (index_Some _ _ _ Hi) as [_ Hlt].
    eexists. rewrite (bind_Ok _ _ _ _ _ Hext).
    erewrite bind_Ok;
      [|apply (getattr_field r s1 ys xa Hne Hy1 Hxa1 Hlen' f i Hi); lia].
    unfold Recarraylink.__array__. apply contents_ok. simpl.
    apply lookup_insert_eq.
Qed.

Lemma Recarraylink_array_is_not_refreshed_witness :
  ∃ s', (np.setslice 1 [7%float; 8%float];;
         Recarraylink.__array__ (Namedcvodeint.yr vdp)) vdp_store
        = (Ok [(-2)%float; 0%float], s').
Proof.
  destruct (Recarraylink_array_is_not_refreshed (Namedcvodeint.yr vdp)
              vdp_store [(-2)%float; 0%float] [(-2)%float; 0%float]
              [7%float; 8%float] "x") as [Hstale _].
  - split; [done|]. by eexists _, _.
  - reflexivity.
  - reflexivity.
  - reflexivity.
  - apply list_elem_of_In. simpl. auto.
  - exact Hstale.
Defined.

(** ** More on models, overrides and clamping *)

Local Open Scope nat_scope.

(** X5.  [Namedcvodeint(f_ode, t, y, p)] for a record [y] (one initial
    value per state name) and a parameter array with one value per
    parameter name gives a well-formed model: its state vector is a new
    array holding the initial values, its parameter array is the caller's
    object [p] itself, no root function is active, and the arrays that
    existed are unchanged. *)
Theorem Namedcvodeint_init_establishes_model
    (f : rhs) (t0 y0 : list float) (y_names : list string) (p : nat)
    (p_names : list string) (s : store) (ps : list float) :
  bufs s !! p = Some ps →
  length ps = length p_names →
  length y0 = length y_names →
  ∃ c s',
    Namedcvodeint.__init__ f t0 y0 y_names p p_names s = (Ok c, s')
    ∧ model c s'
    ∧ Namedcvodeint.pr c = p
    ∧ bufs s !! Namedcvodeint.y c = None
    ∧ bufs s' !! Namedcvodeint.y c = Some y0
    ∧ nrtfn s' !! Namedcvodeint.cvode_mem c = Some 0
    ∧ (∀ l, is_Some (bufs s !! l) → bufs s' !! l = bufs s !! l).
Proof.
  intros Hp Hlen Hy0.
  destruct (Namedcvodeint.__init__ f t0 y0 y_names p p_names s)
    as [[c|e] s'] eqn:Hinit.
  - exists c, s'. split; [done|].
    pose proof (Namedcvodeint_init_model _ _ _ _ _ _ _ _ _ _ Hinit Hp Hlen).
    pose proof (init_inv _ _ _ _ _ _ _ _ _ Hinit)
      as (_ & Hpr & _ & _ & _ & _ & Hy & _ & Hy' & Hsame).
    split_and!; try done.
    revert Hinit.
    unfold Namedcvodeint.__init__, Namedcvodeint.Cvodeint__init__,
      Recarraylink.__init__, np.array, np.contents, bind, gets, modify, ret.
    simpl. rewrite lookup_insert_eq. case_decide; [|done].
    intros [= <- <-]. unfold set_bufs, set_nrtfn. simpl.
    apply lookup_insert_eq.
  - exfalso. revert Hinit.
    unfold Namedcvodeint.__init__, Namedcvodeint.Cvodeint__init__,
      Recarraylink.__init__, np.array, np.contents, bind, gets, modify, ret.
    simpl. rewrite lookup_insert_eq. by rewrite decide_True.
Qed.

Lemma Namedcvodeint_init_establishes_model_witness :
  ∃ c s',
    Namedcvodeint.__init__ (Namedcvodeint.vanderpol 0) [0%float; 1%float]
      [(-2)%float; 0%float] ["x"; "y"] 0 ["epsilon"]
      (mkStore {[ 0 := [1%float] ]} ∅) = (Ok c, s')
    ∧ model c s'.
Proof.
  destruct (Namedcvodeint_init_establishes_model (Namedcvodeint.vanderpol 0)
              [0%float; 1%float] [(-2)%float; 0%float] ["x"; "y"] 0
              ["epsilon"] (mkStore {[ 0 := [1%float] ]} ∅) [1%float])
    as (c & s' & Hrun & Hmodel & _); [reflexivity.. |].
  by exists c, s'.
Defined.

Section rates.
Import Namedcvodeint.
Context (m : obj) (y0 : list (list float)).

(** The loop of [rates] reads the store and leaves it as it is; it fills
    the rows [i], [i+1], ... one per time. *)
Lemma rates_loop_run t0 : ∀ i ydot s,
  i + length t0 ≤ length y0 → length ydot = length y0 →
  ∃ rows,
    rates_loop m i t0 y0 ydot s = (Ok rows, s)
    ∧ length rows = length y0
    ∧ (∀ j, j < i ∨ i + length t0 ≤ j → rows !! j = ydot !! j)
    ∧ (∀ j ti yj row, t0 !! j = Some ti → y0 !! (i + j) = Some yj →
         ydot !! (i + j) = Some row →
         rows !! (i + j) = Some (f_ode m ti yj row s).1).
Proof.
  induction t0 as [|ti t' IH]; intros i ydot s Hi Hlen; simpl in *.
  - exists ydot. split_and!; [done..|]. intros j ??? Hj. done.
  - destruct (lookup_lt_is_Some_2 y0 i) as [yi Hyi]; [lia|].
    destruct (lookup_lt_is_Some_2 ydot i) as [row Hrow]; [lia|].
    rewrite Hyi, Hrow. unfold bind, gets.
    destruct (IH (S i) (<[i := (f_ode m ti yi row s).1]> ydot) s)
      as (rows & Hrun & Hl & Hout & Hin);
      [lia | by rewrite length_insert |].
    exists rows. split_and!; [done..| |].
    + intros j Hj. rewrite Hout by lia.
      apply list_lookup_insert_ne. lia.
    + intros [|j] tj yj rowj Htj Hyj Hrowj; simpl in Htj.
      * injection Htj as <-. replace (i + 0) with i in * by lia.
        rewrite Hout by lia.
        assert (yj = yi) as -> by congruence.
        assert (rowj = row) as -> by congruence.
        apply list_lookup_insert_eq. lia.
      * replace (i + S j) with (S i + j) in * by lia.
        apply Hin; [done..|].
        rewrite list_lookup_insert_ne by lia. done.
Qed.

(** With fewer rows than times the loop runs off the end of [y]. *)
Lemma rates_loop_short t0 : ∀ i ydot s,
  i ≤ length y0 → length y0 < i + length t0 → length ydot = length y0 →
  ∃ msg, rates_loop m i t0 y0 ydot s = (Raise (IndexError msg), s).
Proof.
  induction t0 as [|ti t' IH]; intros i ydot s Hi Hshort Hlen; simpl in *.
  - lia.
  - destruct (decide (i < length y0)) as [Hlt|Hge].
    + destruct (lookup_lt_is_Some_2 y0 i) as [yi Hyi]; [lia|].
      destruct (lookup_lt_is_Some_2 ydot i) as [row Hrow]; [lia|].
      rewrite Hyi, Hrow. unfold bind, gets.
      apply IH; [lia.. | by rewrite length_insert].
    + rewrite (lookup_ge_None_2 y0 i) by lia. by eexists.
Qed.

(** The [finally] clause of [autorestore], with the state it leaves. *)
Lemma autorestore_exit_explicit ys ps s (ys' ps' : list float) :
  bufs s !! y m = Some ys' → length ys' = length ys →
  bufs s !! pr m = Some ps' → length ps' = length ps →
  autorestore_exit m (ys, ps) s
  = (Ok tt, set_bufs <[pr m := ps]>
              (set_bufs <[y m := ys]> (set_nrtfn <[cvode_mem m := 0]> s))).
Proof.
  intros Hy Hly Hp Hlp. unfold autorestore_exit; simpl.
  rewrite (bind_Ok _ _ _ _ _ (RootInit_run m 0 s)).
  erewrite bind_Ok; [|by eapply setslice_ok].
  destruct (decide (pr m = y m)) as [Heq|Hne].
  - eapply setslice_ok.
    + simpl. rewrite Heq. apply lookup_insert_eq.
    + congruence.
  - eapply setslice_ok; [|exact Hlp].
    simpl. rewrite lookup_insert_ne by done. exact Hp.
Qed.
End rates.

(** X6.  [rates(t, y, par)] on a model whose state and parameter arrays
    are live, with [par] (if given) of the parameters' length: whatever
    the outcome, afterwards every array holds what it held before the call
    and rootfinding is off.  With fewer rows in [y] than times in [t] the
    call raises IndexError.  Otherwise, for rows with one value per state
    name and a right-hand side that fills its output in place, it returns
    one row per row of [y]: row [i] is the right-hand side at [t[i]],
    [y[i]], evaluated while the parameters are [par]; rows beyond the
    times are zero. *)
Theorem rates_restores_and_evaluates (m : Namedcvodeint.obj)
    (t0 : list float) (y0 : list (list float)) (par : option (list float))
    (s : store) (ys ps : list float) :
  bufs s !! Namedcvodeint.y m = Some ys →
  bufs s !! Namedcvodeint.pr m = Some ps →
  (∀ p, par = Some p → length p = length ps) →
  let s1 := match par with
            | Some p => set_bufs <[Namedcvodeint.pr m := p]> s
            | None => s
            end in
  let zeros (yi : list float) := replicate (length yi) 0%float in
  ∃ r s',
    Namedcvodeint.rates m t0 y0 par s = (r, s')
    ∧ (∀ l, bufs s' !! l = bufs s !! l)
    ∧ nrtfn s' !! Namedcvodeint.cvode_mem m = Some 0
    ∧ (length y0 < length t0 → ∃ msg, r = Raise (IndexError msg))
    ∧ (length t0 ≤ length y0 →
       Namedcvodeint.dtype_y m ≠ [] →
       (∀ yi, yi ∈ y0 → length yi = length (Namedcvodeint.dtype_y m)) →
       (∀ ti yi ydot s, length (Namedcvodeint.f_ode m ti yi ydot s).1
                        = length ydot) →
       ∃ rows,
         r = Ok rows
         ∧ length rows = length y0
         ∧ (∀ i ti yi, t0 !! i = Some ti → y0 !! i = Some yi →
              rows !! i
              = Some (Namedcvodeint.f_ode m ti yi (zeros yi) s1).1)
         ∧ (∀ i yi, length t0 ≤ i → y0 !! i = Some yi →
              rows !! i = Some (zeros yi))).
Proof.
  intros Hy Hp Hpar s1 zeros.
  set (ydot0 := (λ row : list float, replicate (length row) 0%float) <$> y0).
  assert (Hlen0 : length ydot0 = length y0) by apply length_fmap.
  assert (Hz : ∀ i yi, y0 !! i = Some yi → ydot0 !! i = Some (zeros yi)).
  { intros i yi Hi. unfold ydot0. by rewrite list_lookup_fmap, Hi. }
  (* entering the block *)
  assert (Henter : Namedcvodeint.autorestore_enter m par None [] s
                   = (Ok ((ys, ps), tt), s1)).
  { unfold Namedcvodeint.autorestore_enter.
    rewrite (bind_Ok _ _ _ _ _ (contents_ok _ _ _ Hy)).
    rewrite (bind_Ok _ _ _ _ _ (contents_ok _ _ _ Hp)).
    unfold Namedcvodeint.override_vectors. subst s1.
    destruct par as [p|].
    - unfold bind.
      rewrite (setslice_ok s _ ps p Hp) by (symmetry; by apply Hpar).
      reflexivity.
    - reflexivity. }
  assert (∃ ys' ps', bufs s1 !! Namedcvodeint.y m = Some ys'
                     ∧ length ys' = length ys
                     ∧ bufs s1 !! Namedcvodeint.pr m = Some ps'
                     ∧ length ps' = length ps)
    as (ys' & ps' & Hy1 & Hly1 & Hp1 & Hlp1).
  { subst s1. destruct par as [p|]; [|by eauto 10].
    simpl. destruct (decide (Namedcvodeint.pr m = Namedcvodeint.y m)) as [E|E].
    - rewrite E in *. rewrite lookup_insert_eq.
      exists p, p. split_and!; try done; rewrite (Hpar p eq_refl); congruence.
    - rewrite lookup_insert_eq, lookup_insert_ne by done.
      exists ys, p. split_and!; try done. by apply Hpar. }
  assert (Hsame : ∀ l,
    bufs (set_bufs <[Namedcvodeint.pr m := ps]>
            (set_bufs <[Namedcvodeint.y m := ys]>
               (set_nrtfn <[Namedcvodeint.cvode_mem m := 0]> s1))) !! l
    = bufs s !! l).
  { intros l. simpl.
    destruct (decide (l = Namedcvodeint.pr m)) as [->|Hlp];
      [by rewrite lookup_insert_eq|].
    rewrite lookup_insert_ne by done.
    destruct (decide (l = Namedcvodeint.y m)) as [->|Hly];
      [by rewrite lookup_insert_eq|].
    rewrite lookup_insert_ne by done.
    subst s1. destruct par; [|done]. simpl. by rewrite lookup_insert_ne. }
  pose proof (autorestore_exit_explicit m ys ps) as Hexit.
  destruct (decide (length t0 ≤ length y0)) as [Hrows|Hshort].
  - destruct (rates_loop_run m y0 t0 0 ydot0 s1)
      as (rows & Hloop & Hlrows & Hout & Hin); [simpl; lia | done |].
    assert (Hwith : Namedcvodeint.autorestore m par None []
                      (Namedcvodeint.rates_loop m 0 t0 y0 ydot0) s
                    = (Ok rows, _))
      by (eapply with_run; [exact Henter | exact Hloop |
                            by eapply (Hexit s1)]).
    assert (Hspec : (∀ i ti yi, t0 !! i = Some ti → y0 !! i = Some yi →
                       rows !! i
                       = Some (Namedcvodeint.f_ode m ti yi (zeros yi) s1).1)
                    ∧ (∀ i yi, length t0 ≤ i → y0 !! i = Some yi →
                         rows !! i = Some (zeros yi))).
    { split.
      - intros i ti yi Hti Hyi. apply (Hin i ti yi (zeros yi)); simpl; auto.
      - intros i yi Hi Hyi. rewrite Hout by (simpl; lia). auto. }
    destruct Hspec as [Hfilled Hzero].
    unfold Namedcvodeint.rates. fold ydot0.
    rewrite (bind_Ok _ _ _ _ _ Hwith).
    unfold Namedcvodeint.view_rows.
    destruct ((0 <? length (Namedcvodeint.dtype_y m))
              && (Namedcvodeint.last_axis rows
                    mod length (Namedcvodeint.dtype_y m) =? 0)) eqn:Hview.
    + eexists _, _. split; [reflexivity|].
      split_and!; [exact Hsame | apply lookup_insert_eq | lia |].
      intros _ _ _ _. exists rows. by split_and!.
    + eexists _, _. split; [reflexivity|].
      split_and!; [exact Hsame | apply lookup_insert_eq | lia |].
      intros _ Hnames Hwidth Hfill. exfalso.
      set (n := length (Namedcvodeint.dtype_y m)) in *.
      assert (Hn : 0 < n)
        by (subst n; destruct (Namedcvodeint.dtype_y m); simpl; [done|lia]).
      assert (Hrowlen : ∀ i row, rows !! i = Some row → length row = n).
      { intros i row Hrow.
        destruct (lookup_lt_is_Some_2 y0 i) as [yi Hyi];
          [rewrite <- Hlrows; by eapply lookup_lt_Some|].
        assert (Hyn : length yi = n) by (eapply Hwidth, list_elem_of_lookup_2, Hyi).
        destruct (t0 !! i) as [ti|] eqn:Hti.
        - rewrite (Hfilled i ti yi Hti Hyi) in Hrow. injection Hrow as <-.
          rewrite Hfill. unfold zeros. by rewrite length_replicate.
        - rewrite (Hzero i yi) in Hrow;
            [|by apply lookup_ge_None_1 | done].
          injection Hrow as <-. unfold zeros. by rewrite length_replicate. }
      apply andb_false_iff in Hview as [Hview|Hview].
      * apply Nat.ltb_ge in Hview. lia.
      * apply Nat.eqb_neq in Hview. apply Hview.
        destruct rows as [|row [|row' rows]]; simpl.
        -- by apply Nat.Div0.mod_0_l.
        -- rewrite (Hrowlen 0 row eq_refl). apply Nat.Div0.mod_same.
        -- rewrite (Hrowlen 0 row eq_refl).
           destruct (n =? 1) eqn:Hn1.
           ++ apply Nat.eqb_eq in Hn1. rewrite Hn1. apply Nat.mod_1_r.
           ++ apply Nat.Div0.mod_same.
  - destruct (rates_loop_short m y0 t0 0 ydot0 s1)
      as (msg & Hloop); [lia | simpl; lia | done |].
    assert (Hwith : Namedcvodeint.autorestore m par None []
                      (Namedcvodeint.rates_loop m 0 t0 y0 ydot0) s
                    = (Raise (IndexError msg), _))
      by (eapply with_run; [exact Henter | exact Hloop |
                            by eapply (Hexit s1)]).
    unfold Namedcvodeint.rates. fold ydot0.
    rewrite (bind_Raise _ _ _ _ _ Hwith).
    eexists _, _. split; [reflexivity|].
    split_and!; [exact Hsame | apply lookup_insert_eq | by eauto | lia].
Qed.

Lemma rates_restores_and_evaluates_witness :
  ∃ r s',
    Namedcvodeint.rates vdp [0%float; 1%float]
      [[(-2)%float; 0%float]; [(-1)%float; 1%float]] (Some [2%float])
      vdp_store = (r, s')
    ∧ (∀ l, bufs s' !! l = bufs vdp_store !! l)
    ∧ ∃ rows, r = Ok rows ∧ length rows = 2.
Proof.
  destruct (rates_restores_and_evaluates vdp [0%float; 1%float]
              [[(-2)%float; 0%float]; [(-1)%float; 1%float]] (Some [2%float])
              vdp_store [(-2)%float; 0%float] [1%float])
    as (r & s' & Hrun & Hsame & _ & _ & Hok);
    [reflexivity | reflexivity | by intros p [= <-] |].
  exists r, s'. split; [exact Hrun|]. split; [exact Hsame|].
  destruct Hok as (rows & Hr & Hl & _).
  - simpl. lia.
  - done.
  - intros yi Hin. apply elem_of_cons in Hin as [->|Hin]; [reflexivity|].
    apply elem_of_cons in Hin as [->|Hin]; [reflexivity|].
    by apply elem_of_nil in Hin.
  - intros ti yi ydot s. simpl. by rewrite !length_insert.
  - by exists rows.
Defined.

(** *** Entering [clamp] *)


Lemma indices_unknown names keys k (s : store) :
  k ∈ keys → k ∉ names →
  ∃ msg, Namedcvodeint.indices names keys s = (Raise (ValueError msg), s).
Proof.
  intros Hin Hk. induction keys as [|k' keys IH]; simpl.
  - by apply elem_of_nil in Hin.
  - destruct (np.index k' names) as [j|] eqn:Hj; [|by eexists].
    apply elem_of_cons in Hin as [->|Hin].
    + exfalso. apply Hk. apply index_Some in Hj as [Hj _].
      by eapply list_elem_of_lookup_2.
    + destruct (IH Hin) as [msg Hrun].
      rewrite (bind_Raise _ _ _ _ _ Hrun). by eexists.
Qed.






(** X7.  [clamp] with a keyword that is not a state name raises
    ValueError before anything is built: the store is as it was and the
    block is not run. *)
Theorem clamp_unknown_field_raises {A} (m : Namedcvodeint.obj)
    (kwargs : list (string * float)) (k : string)
    (body : Namedcvodeint.obj → M store A) (s : store) :
  k ∈ kwargs.*1 → k ∉ Namedcvodeint.dtype_y m →
  ∃ msg, Namedcvodeint.clamp m kwargs body s = (Raise (ValueError msg), s).
Proof.
  intros Hin Hk.
  destruct (indices_unknown (Namedcvodeint.dtype_y m) _ k s Hin Hk)
    as [msg Hrun].
  exists msg. apply with_enter_raises.
  unfold Namedcvodeint.clamp_enter. by rewrite (bind_Raise _ _ _ _ _ Hrun).
Qed.

Lemma clamp_unknown_field_raises_witness :
  ∃ msg,
    Namedcvodeint.clamp vdp [("x", 0.5%float); ("z", 1%float)]
      (λ c, np.setslice (Namedcvodeint.y vdp) [0%float; 0%float]) vdp_store
    = (Raise (ValueError msg), vdp_store).
Proof.
  apply (clamp_unknown_field_raises vdp _ "z").
  - apply elem_of_cons. right. apply elem_of_cons. by left.
  - intros Hin. apply elem_of_cons in Hin as [?|Hin]; [done|].
    apply elem_of_cons in Hin as [?|Hin]; [done|].
    by apply elem_of_nil in Hin.
Defined.



(** *** Keyword overrides of [autorestore] *)




Ltac not_in_names :=
  let H := fresh in
  intros H;
  repeat (apply elem_of_cons in H as [H|H]; [discriminate H|]);
  by apply elem_of_nil in H.


(** *** Entering [dynclamp] *)



(** X11.  [dynclamp] fails before anything is built, leaving the store as
    it was and the block not run: with AttributeError when [scale] is not
    given and the parameters lack one of [Acap], [Cm], [Vmyo], [F]; with
    ValueError when [scale] is given and [V] or [ion] is not a state
    name. *)
Theorem dynclamp_fails_early {A} (m : Namedcvodeint.obj)
    (setpoint R : float) (V ion : string) (scale : option float)
    (body : Namedcvodeint.obj → M store A) (s : store) (ps : list float) :
  bufs s !! Namedcvodeint.pr m = Some ps →
  (scale = None
   ∧ ¬ Forall (λ k, k ∈ Namedcvodeint.dtype_p m) ["Acap"; "Cm"; "Vmyo"; "F"])
  ∨ (is_Some scale
     ∧ (V ∉ Namedcvodeint.dtype_y m ∨ ion ∉ Namedcvodeint.dtype_y m)) →
  ∃ e,
    Cellmlmodel.dynclamp m setpoint R V ion scale body s = (Raise e, s)
    ∧ match e with
      | AttributeError _ => scale = None
      | ValueError _ => is_Some scale
      | _ => False
      end.
Proof.
  intros Hps Hbad.
  assert (Hget : ∀ k, k ∈ Namedcvodeint.dtype_p m →
            ∃ v, Namedcvodeint.getfield (Namedcvodeint.pr m)
                   (Namedcvodeint.dtype_p m) k s = (Ok v, s)).
  { intros k [i Hi]%index_is_Some. unfold Namedcvodeint.getfield.
    rewrite Hi, (bind_Ok _ _ _ _ _ (contents_ok _ _ _ Hps)). by eexists. }
  assert (Hmiss : ∀ k, k ∉ Namedcvodeint.dtype_p m →
            ∃ msg, Namedcvodeint.getfield (Namedcvodeint.pr m)
                     (Namedcvodeint.dtype_p m) k s
                   = (Raise (AttributeError msg), s)).
  { intros k Hk. unfold Namedcvodeint.getfield.
    destruct (np.index k (Namedcvodeint.dtype_p m)) as [i|] eqn:Hi.
    - exfalso. apply Hk. apply index_Some in Hi as [Hi _].
      by eapply list_elem_of_lookup_2.
    - by eexists. }
  assert (Hfield : ∀ k,
            (∃ v, Namedcvodeint.getfield (Namedcvodeint.pr m)
                    (Namedcvodeint.dtype_p m) k s = (Ok v, s))
            ∨ k ∉ Namedcvodeint.dtype_p m).
  { intros k. destruct (decide (k ∈ Namedcvodeint.dtype_p m)); auto. }
  assert (∃ e, Cellmlmodel.dynclamp_enter m setpoint R V ion scale s
               = (Raise e, s)
               ∧ match e with
                 | AttributeError _ => scale = None
                 | ValueError _ => is_Some scale
                 | _ => False
                 end) as (e & Henter & He).
  { unfold Cellmlmodel.dynclamp_enter.
    destruct Hbad as [[-> Hparams]|[[sc ->] Hnames]].
    - destruct (Hfield "Acap") as [[v1 H1]|H1]; cycle 1.
      { destruct (Hmiss _ H1) as [msg Hm]. exists (AttributeError msg).
        split; [|done]. unfold bind at 1 2. by rewrite Hm. }
      destruct (Hfield "Cm") as [[v2 H2]|H2]; cycle 1.
      { destruct (Hmiss _ H2) as [msg Hm]. exists (AttributeError msg).
        split; [|done]. unfold bind at 1 2. rewrite H1.
        unfold bind at 1. by rewrite Hm. }
      destruct (Hfield "Vmyo") as [[v3 H3]|H3]; cycle 1.
      { destruct (Hmiss _ H3) as [msg Hm]. exists (AttributeError msg).
        split; [|done]. unfold bind at 1 2. rewrite H1.
        unfold bind at 1. rewrite H2. unfold bind at 1. by rewrite Hm. }
      destruct (Hfield "F") as [[v4 H4]|H4]; cycle 1.
      { destruct (Hmiss _ H4) as [msg Hm]. exists (AttributeError msg).
        split; [|done]. unfold bind at 1 2. rewrite H1.
        unfold bind at 1. rewrite H2. unfold bind at 1. rewrite H3.
        unfold bind at 1. by rewrite Hm. }
      exfalso. apply Hparams.
      assert (Hin : ∀ k v, Namedcvodeint.getfield (Namedcvodeint.pr m)
                             (Namedcvodeint.dtype_p m) k s = (Ok v, s) →
                           k ∈ Namedcvodeint.dtype_p m).
      { intros k v Hk. destruct (decide (k ∈ Namedcvodeint.dtype_p m)) as [|Hn];
          [done|]. destruct (Hmiss _ Hn) as [msg Hm]. congruence. }
      repeat (apply Forall_cons; split; [by eapply Hin|]). apply Forall_nil_2.
    - unfold Cellmlmodel.index_of.
      destruct (np.index V (Namedcvodeint.dtype_y m)) as [iV|] eqn:HV;
        [|eexists; split; [reflexivity | by eexists]].
      destruct (np.index ion (Namedcvodeint.dtype_y m)) as [iion|] eqn:Hion;
        [|eexists; split; [reflexivity | by eexists]].
      exfalso. destruct Hnames as [Hn|Hn]; apply Hn.
      + apply index_Some in HV as [HV _]. by eapply list_elem_of_lookup_2.
      + apply index_Some in Hion as [Hion _]. by eapply list_elem_of_lookup_2. }
  exists e. split; [|done]. by apply with_enter_raises.
Qed.

Lemma dynclamp_fails_early_witness :
  ∃ e,
    Cellmlmodel.dynclamp vdp 1%float 0.5%float "V" "Ki" None
      (λ c, np.setslice (Namedcvodeint.y vdp) [0%float; 0%float]) vdp_store
    = (Raise e, vdp_store)
    ∧ match e with
      | AttributeError _ => True
      | _ => False
      end.
Proof.
  destruct (dynclamp_fails_early vdp 1%float 0.5%float "V" "Ki" None
              (λ c, np.setslice (Namedcvodeint.y vdp) [0%float; 0%float])
              vdp_store [1%float])
    as (e & Hrun & He).
  - reflexivity.
  - left. split; [done|]. intros Hall.
    apply Forall_cons in Hall as [Hin _]. revert Hin. not_in_names.
  - exists e. split; [exact Hrun|]. by destruct e.
Defined.

(** ** More on job ids *)

(** *** Names of markers *)

Lemma split_not_nil sep s : GPutils.split sep s ≠ [].
Proof.
  destruct s as [|c s]; simpl; [done|].
  case_decide; [done|]. by destruct (GPutils.split sep s).
Qed.

(** A string without the separator is one piece. *)
Lemma split_nosep sep s :
  chars (λ c, negb (bool_decide (c = sep))) s = true →
  GPutils.split sep s = [s].
Proof.
  induction s as [|c s IH]; simpl; [done|].
  intros [Hc Hs]%andb_prop. apply negb_true_iff, bool_decide_eq_false in Hc.
  rewrite decide_False by done. by rewrite (IH Hs).
Qed.

(** The last piece is what follows the last separator. *)
Lemma split_last sep a b :
  List.last (GPutils.split sep (a ++ String sep b)%string) ""%string
  = List.last (GPutils.split sep b) ""%string.
Proof.
  assert (∃ w ws, GPutils.split sep (a ++ String sep b)%string = w :: ws
                  ∧ ws ≠ []
                  ∧ List.last ws ""%string
                    = List.last (GPutils.split sep b) ""%string)
    as (w & ws & -> & Hws & <-).
  { induction a as [|c a (w & ws & IH & Hws & Hlast)].
    - change ("" ++ String sep b)%string with (String sep b). simpl.
      rewrite decide_True by done.
      eexists _, _. split; [done|]. split; [apply split_not_nil | done].
    - change (String c a ++ String sep b)%string
        with (String c (a ++ String sep b)%string).
      simpl. rewrite IH. case_decide.
      + eexists _, _. split; [done|]. split; [done|].
        simpl. by destruct ws.
      + by eexists _, _. }
  simpl. by destruct ws.
Qed.

(** The first piece is what precedes the first separator. *)
Lemma split_hd sep a b :
  chars (λ c, negb (bool_decide (c = sep))) a = true →
  hd ""%string (GPutils.split sep (a ++ String sep b)%string) = a.
Proof.
  induction a as [|c a IH]; intros Ha.
  - change ("" ++ String sep b)%string with (String sep b). simpl.
    by rewrite decide_True.
  - change (String c a ++ String sep b)%string
      with (String c (a ++ String sep b)%string).
    simpl in *. apply andb_prop in Ha as [Hc Ha].
    apply negb_true_iff, bool_decide_eq_false in Hc.
    rewrite decide_False by done. specialize (IH Ha).
    destruct (GPutils.split sep (a ++ String sep b)%string); simpl in *;
      by subst.
Qed.

(** The text of a number has no other character than digits and a sign. *)
Lemma str_no_sep sep n :
  is_digit sep = false → sep ≠ "-"%char →
  chars (λ c, negb (bool_decide (c = sep))) (GPutils.str n) = true.
Proof.
  intros Hd Hs.
  assert (Hdig : ∀ c, is_digit c = true → negb (bool_decide (c = sep)) = true).
  { intros c Hc. apply negb_true_iff, bool_decide_eq_false. congruence. }
  unfold GPutils.str. destruct (Z.to_int n) as [u|u]; simpl.
  - eapply chars_impl, digits_NilZero. exact Hdig.
  - rewrite bool_decide_eq_false_2 by (by apply not_eq_sym). simpl.
    eapply chars_impl, digits_NilZero. exact Hdig.
Qed.

Lemma id_part_timeout_name d k :
  GPutils.id_part (GPutils.timeout_name d k) = GPutils.str k.
Proof.
  unfold GPutils.id_part, GPutils.timeout_name.
  change ("_timeout_" ++ GPutils.str k)%string
    with (String "_" ("timeout" ++ String "_" (GPutils.str k)))%string.
  rewrite !split_last.
  rewrite (split_nosep "_") by (by apply str_no_sep).
  simpl. by rewrite (split_nosep ".") by (by apply str_no_sep).
Qed.

Lemma id_part_pickle k :
  hd ""%string
    (GPutils.split "." (List.last (GPutils.split "_"
       (GPutils.str k ++ ".pickle")%string) ""%string))
  = GPutils.str k.
Proof.
  rewrite (split_nosep "_"); cycle 1.
  { rewrite chars_append. by rewrite str_no_sep. }
  simpl.
  change (GPutils.str k ++ ".pickle")%string
    with (GPutils.str k ++ String "." "pickle")%string.
  apply split_hd. by apply str_no_sep.
Qed.

Lemma id_part_error_name d k :
  GPutils.id_part (GPutils.error_name d k) = GPutils.str k.
Proof.
  unfold GPutils.id_part, GPutils.error_name.
  change ("_" ++ GPutils.str k ++ ".pickle")%string
    with (String "_" (GPutils.str k ++ ".pickle"))%string.
  rewrite split_last. apply id_part_pickle.
Qed.

Lemma id_part_redone_name d k :
  GPutils.id_part (GPutils.redone_name d k) = GPutils.str k.
Proof.
  unfold GPutils.id_part, GPutils.redone_name.
  change ("_redone_" ++ GPutils.str k ++ ".pickle")%string
    with (String "_" ("redone" ++ String "_" (GPutils.str k ++ ".pickle")))%string.
  rewrite !split_last. apply id_part_pickle.
Qed.

(** X12.  The id is read back from every name the module builds: for any
    settings and any number, [int(name.split('_')[-1].split('.')[0])] on
    the timeout marker, the error pickle and the redone pickle of job
    [jobID] gives [jobID], whatever the stems of the job file and the
    error file are. *)
Theorem marker_names_round_trip (d : GPutils.config) (jobID : Z) :
  GPutils.int (GPutils.id_part (GPutils.timeout_name d jobID)) = Some jobID
  ∧ GPutils.int (GPutils.id_part (GPutils.error_name d jobID)) = Some jobID
  ∧ GPutils.int (GPutils.id_part (GPutils.redone_name d jobID)) = Some jobID.
Proof.
  rewrite id_part_timeout_name, id_part_error_name, id_part_redone_name.
  by rewrite int_str.
Qed.

(** *** Releasing and locking *)

(** X13.  [end_jobID] removes the timeout marker of the job and nothing
    else; called again for the same job it raises OSError and changes
    nothing, since the marker is no longer there. *)
Theorem end_jobID_twice (d : GPutils.config) (jobID : Z)
    (fs : gmap string string) :
  is_Some (fs !! GPutils.timeout_name d jobID) →
  ∃ fs',
    GPutils.end_jobID d jobID fs = (Ok tt, fs')
    ∧ fs' !! GPutils.timeout_name d jobID = None
    ∧ (∀ name, name ≠ GPutils.timeout_name d jobID →
               fs' !! name = fs !! name)
    ∧ ∃ path, GPutils.end_jobID d jobID fs' = (Raise (OSError path), fs').
Proof.
  intros [text Hm]. unfold GPutils.end_jobID, GPutils.remove. rewrite Hm.
  eexists. split; [reflexivity|]. rewrite lookup_delete_eq.
  split_and!; [done | | by eexists].
  intros name Hname. by rewrite lookup_delete_ne.
Qed.

Lemma end_jobID_twice_witness :
  ∃ fs' path,
    GPutils.end_jobID doctest_settings 1
      {[ "job" := "2"; "job_timeout_1" := "" ]}
    = (Ok tt, fs')
    ∧ GPutils.end_jobID doctest_settings 1 fs' = (Raise (OSError path), fs').
Proof.
  destruct (end_jobID_twice doctest_settings 1
              {[ "job" := "2"; "job_timeout_1" := "" ]})
    as (fs' & Hrun & _ & _ & path & Hagain).
  - by eexists.
  - by exists fs', path.
Defined.

(** X14.  While the lock file exists, [find_jobID] gives up with the
    lock's timeout: no id is handed out, the counter is not advanced and
    no marker is written; the only change is that a missing job file has
    been created with the text [0]. *)
Theorem find_jobID_lock_held (d : GPutils.config)
    (shuffle : list string → list string) (fs : gmap string string) :
  GPutils.lockfile d ≠ GPutils.jobfile d →
  is_Some (fs !! GPutils.lockfile d) →
  ∃ msg,
    GPutils.find_jobID d shuffle fs
    = (Raise (LockTimeout msg),
       <[GPutils.jobfile d := default "0"%string (fs !! GPutils.jobfile d)]>
         fs).
Proof.
  intros Hne Hheld. unfold GPutils.find_jobID.
  rewrite create_jobfile_run.
  unfold with_, GPutils.Lock_enter, bind. rewrite exists_run.
  rewrite lookup_insert_ne by (by apply not_eq_sym).
  rewrite bool_decide_eq_true_2 by done. by eexists.
Qed.

Lemma find_jobID_lock_held_witness :
  ∃ msg,
    GPutils.find_jobID doctest_settings id {[ "job" := "1"; "lock" := "" ]}
    = (Raise (LockTimeout msg), {[ "job" := "1"; "lock" := "" ]}).
Proof.
  destruct (find_jobID_lock_held doctest_settings id
              {[ "job" := "1"; "lock" := "" ]}) as [msg Hrun].
  - done.
  - by eexists.
  - exists msg. etrans; [exact Hrun | reflexivity].
Defined.

Section lock_kept.
Import GPutils.
Context (d : config) (shuffle : list string → list string).
Hypothesis Herr_lock : ∀ k, error_name d k ≠ lockfile d.

Local Abbreviation R := (lock_kept (lockfile d)).

#[local] Instance lock_kept_refl : Reflexive R.
Proof. intros fs Hl. exact Hl. Qed.

#[local] Instance lock_kept_trans : Transitive R.
Proof. intros fs1 fs2 fs3 H12 H23 Hl. apply H23, H12, Hl. Qed.

Lemma kept_write path text : keeps R (write path text).
Proof.
  intros fs r fs' [= <- <-] Hl. apply lookup_insert_is_Some'. by right.
Qed.

Lemma kept_read path : keeps R (read path).
Proof.
  intros fs r fs'. unfold read. destruct (fs !! path); by intros [= <- <-].
Qed.

Lemma kept_int_ text : keeps R (int_ text).
Proof.
  unfold int_. destruct (int text); [apply keeps_ret | apply keeps_raise];
    apply _.
Qed.

Lemma kept_touch path : keeps R (touch path).
Proof.
  intros fs r fs'. rewrite touch_run. intros [= <- <-] Hl.
  apply lookup_insert_is_Some'. by right.
Qed.

Lemma kept_move k dst : keeps R (move (error_name d k) dst).
Proof using Herr_lock.
  intros fs r fs'. unfold move.
  destruct (fs !! error_name d k); intros [= <- <-] Hl; [|done].
  apply lookup_insert_is_Some'. right.
  rewrite lookup_delete_ne by apply Herr_lock. done.
Qed.

Lemma kept_scan_errors files : ∀ jobID, keeps R (scan_errors files jobID).
Proof.
  induction files as [|f files IH]; intros jobID; simpl.
  - apply keeps_ret; apply _.
  - destruct (contains "error" f); [apply kept_int_ | apply IH].
Qed.

Lemma kept_scan_timeouts files : ∀ jobID, keeps R (scan_timeouts files jobID).
Proof.
  induction files as [|f files IH]; intros jobID; simpl.
  - apply keeps_ret; apply _.
  - destruct (contains "job_timeout" f); [|apply IH].
    apply (keeps_bind R); [apply kept_int_ | apply IH].
Qed.

Lemma kept_locked : keeps R (locked d shuffle).
Proof using Herr_lock.
  unfold locked.
  apply (keeps_bind R); [apply kept_read|]. intros text.
  apply (keeps_bind R); [apply kept_int_|]. intros jobID.
  destruct (jobID <? Nsims d)%Z.
  - apply (keeps_bind R); [apply kept_write|]. intros _.
    apply (keeps_bind R); [apply kept_touch|]. intros _.
    apply (keeps_bind R); [apply kept_write|]. intros _.
    apply (keeps_ret R).
  - apply (keeps_bind R); [apply (keeps_gets R)|]. intros files.
    apply (keeps_bind R); [apply kept_scan_errors|]. intros jobID1.
    destruct (jobID1 <? Nsims d)%Z.
    + apply (keeps_bind R); [apply kept_touch|]. intros _.
      apply (keeps_bind R); [apply kept_move|]. intros _.
      apply (keeps_ret R).
    + apply (keeps_bind R); [apply kept_scan_timeouts|]. intros jobID2.
      destruct (jobID2 <? Nsims d)%Z.
      * apply (keeps_bind R); [apply kept_touch|]. intros _.
        apply (keeps_ret R).
      * apply (keeps_ret R).
Qed.
End lock_kept.

(** X15.  [find_jobID] called with the lock free leaves the lock free,
    whatever it returns or raises (a job file that does not hold a number,
    a stray file whose name does not end in a number, a missing error
    pickle): the lock taken for the call is released on every path.  The
    lock file is not the job file nor an error pickle. *)
Theorem find_jobID_releases_lock (d : GPutils.config)
    (shuffle : list string → list string) (fs : gmap string string) :
  GPutils.lockfile d ≠ GPutils.jobfile d →
  (∀ k, GPutils.error_name d k ≠ GPutils.lockfile d) →
  fs !! GPutils.lockfile d = None →
  ∃ r fs',
    GPutils.find_jobID d shuffle fs = (r, fs')
    ∧ fs' !! GPutils.lockfile d = None
    ∧ ∀ e, r = Raise e → ∀ msg, e ≠ LockTimeout msg ∧ e ≠ OSError msg.
Proof.
  intros Hne Herr Hfree. unfold GPutils.find_jobID.
  rewrite create_jobfile_run.
  set (fs1 := <[GPutils.jobfile d := _]> fs).
  assert (Hfree1 : fs1 !! GPutils.lockfile d = None)
    by (subst fs1; by rewrite lookup_insert_ne by (by apply not_eq_sym)).
  unfold with_, GPutils.Lock_enter, GPutils.Lock_exit, try_finally, bind.
  rewrite exists_run, Hfree1. simpl.
  destruct (GPutils.locked d shuffle (<[GPutils.lockfile d := ""%string]> fs1))
    as [r fs3] eqn:Hbody.
  pose proof (kept_locked d shuffle Herr _ _ _ Hbody) as Hkept.
  destruct Hkept as [text Hlock]; [rewrite lookup_insert_eq; by eexists|].
  unfold GPutils.remove. rewrite Hlock.
  exists r, (delete (GPutils.lockfile d) fs3).
  split; [done|]. split; [apply lookup_delete_eq|].
  intros e -> msg.
  (* the exceptions of the body are those of [read], [int] and [move] *)
  assert (Hexn : ∀ fs0 e0 fs0',
            GPutils.locked d shuffle fs0 = (Raise e0, fs0') →
            match e0 with
            | IOError _ | ValueError _ => True
            | _ => False
            end).
  { clear. intros fs0 e0 fs0'. unfold GPutils.locked, bind, GPutils.read.
    assert (Hint : ∀ text f0 e1 f1,
              GPutils.int_ text f0 = (Raise e1, f1) →
              match e1 with ValueError _ => True | _ => False end).
    { intros text f0 e1 f1. unfold GPutils.int_.
      destruct (GPutils.int text); by intros [= <- <-]. }
    assert (Hse : ∀ files j f0 e1 f1,
              GPutils.scan_errors files j f0 = (Raise e1, f1) →
              match e1 with ValueError _ => True | _ => False end).
    { induction files as [|f files IH]; intros j f0 e1 f1; simpl; [done|].
      destruct (GPutils.contains "error" f); [apply Hint | apply IH]. }
    assert (Hst : ∀ files j f0 e1 f1,
              GPutils.scan_timeouts files j f0 = (Raise e1, f1) →
              match e1 with ValueError _ => True | _ => False end).
    { induction files as [|f files IH]; intros j f0 e1 f1; simpl; [done|].
      destruct (GPutils.contains "job_timeout" f); [|apply IH].
      unfold bind. destruct (GPutils.int_ _ f0) as [[j'|e2] f2] eqn:E.
      - apply IH.
      - intros [= <- <-]. by eapply Hint. }
    destruct (fs0 !! GPutils.jobfile d) as [text|]; [|by intros [= <- <-]].
    destruct (GPutils.int_ text fs0) as [[j|e1] f1] eqn:E1; cycle 1.
    { intros [= <- <-]. apply Hint in E1. by destruct e1. }
    destruct (j <? GPutils.Nsims d)%Z.
    { unfold GPutils.write, modify. rewrite touch_run. done. }
    unfold GPutils.listdir, gets.
    destruct (GPutils.scan_errors _ j f1) as [[j1|e1] f2] eqn:E2; cycle 1.
    { intros [= <- <-]. apply Hse in E2. by destruct e1. }
    destruct (j1 <? GPutils.Nsims d)%Z.
    { rewrite touch_run. unfold GPutils.move.
      match goal with |- context [?m !! GPutils.error_name d j1] =>
        destruct (m !! GPutils.error_name d j1) end; [done|].
      by intros [= <- <-]. }
    destruct (GPutils.scan_timeouts _ j1 f2) as [[j2|e1] f3] eqn:E3; cycle 1.
    { intros [= <- <-]. apply Hst in E3. by destruct e1. }
    destruct (j2 <? GPutils.Nsims d)%Z; [by rewrite touch_run | done]. }
  apply Hexn in Hbody. by destruct e.
Qed.

Lemma find_jobID_releases_lock_witness :
  ∃ r fs',
    GPutils.find_jobID doctest_settings id {[ "job" := "" ]} = (r, fs')
    ∧ fs' !! "lock" = None.
Proof.
  destruct (find_jobID_releases_lock doctest_settings id {[ "job" := "" ]})
    as (r & fs' & Hrun & Hfree & _).
  - done.
  - intros k Hk. apply (f_equal (String.get 0)) in Hk. discriminate Hk.
  - done.
  - by exists r, fs'.
Defined.

(** *** Acquiring, releasing, redoing *)

(** X16.  Taking the next job in the first pass and releasing it leaves
    the directory exactly as it was, except that the counter in the job
    file has advanced by one. *)
Theorem acquire_then_release (d : GPutils.config)
    (shuffle : list string → list string) (fs : gmap string string)
    (k : Z) :
  GPutils.lockfile d ≠ GPutils.jobfile d →
  GPutils.lockfile d ≠ GPutils.timeout_name d k →
  counter d fs k →
  (k < GPutils.Nsims d)%Z →
  fs !! GPutils.lockfile d = None →
  fs !! GPutils.timeout_name d k = None →
  GPutils.session d shuffle [GPutils.Find; GPutils.End k] fs
  = (Ok [k], <[GPutils.jobfile d := GPutils.str (k + 1)]> fs).
Proof.
  intros Hlj Hlt Hc Hk Hfree Hnew. simpl.
  pose proof (timeout_name_not_jobfile d k) as Htj.
  pose proof (not_eq_sym Htj) as Hjt.
  rewrite (bind_Ok _ _ _ _ _
             (find_jobID_first_pass d shuffle Hlj fs k Hc Hk Hfree Hlt)).
  unfold bind. rewrite end_jobID_run; cycle 1.
  { unfold leased. rewrite lookup_insert_ne by done.
    rewrite lookup_insert_eq. by eexists. }
  unfold ret. f_equal. unfold leased.
  rewrite delete_insert_ne by done.
  rewrite delete_insert_eq. by rewrite delete_id.
Qed.

Lemma acquire_then_release_witness :
  GPutils.session doctest_settings id [GPutils.Find; GPutils.End 1]
    {[ "job" := "1" ]}
  = (Ok [1%Z], {[ "job" := "2" ]}).
Proof.
  etrans; [by apply (acquire_then_release doctest_settings id
                       {[ "job" := "1" ]} 1)|].
  reflexivity.
Defined.

(** An error pickle and a timeout marker never have the same name: what
    follows the last [.] after the last [_] is [pickle] in one and a
    number in the other. *)
Lemma error_name_not_timeout_name d k k' :
  GPutils.error_name d k ≠ GPutils.timeout_name d k'.
Proof.
  intros Heq.
  set (ext := λ name,
         List.last (GPutils.split "."
                      (List.last (GPutils.split "_" name) ""%string))
           ""%string).
  assert (He : ext (GPutils.error_name d k) = "pickle"%string).
  { unfold ext, GPutils.error_name.
    change ("_" ++ GPutils.str k ++ ".pickle")%string
      with (String "_" (GPutils.str k ++ String "." "pickle"))%string.
    rewrite split_last.
    rewrite (split_nosep "_"); cycle 1.
    { rewrite chars_append. by rewrite str_no_sep. }
    simpl. by rewrite split_last. }
  assert (Ht : ext (GPutils.timeout_name d k') = GPutils.str k').
  { unfold ext, GPutils.timeout_name.
    change ("_timeout_" ++ GPutils.str k')%string
      with (String "_" ("timeout" ++ String "_" (GPutils.str k')))%string.
    rewrite !split_last.
    rewrite (split_nosep "_") by (by apply str_no_sep). simpl.
    by rewrite (split_nosep ".") by (by apply str_no_sep). }
  rewrite Heq, Ht in He.
  pose proof (str_no_sep "p" k' eq_refl ltac:(done)) as Hp.
  rewrite He in Hp. done.
Qed.

Lemma jobfile_exists (d : GPutils.config) (fs : gmap string string) c :
  counter d fs c → (0 < GPutils.Nsims d ≤ c)%Z →
  <[GPutils.jobfile d := default "0"%string (fs !! GPutils.jobfile d)]> fs
  = fs.
Proof.
  unfold counter. intros Hc Hge.
  destruct (fs !! GPutils.jobfile d) as [text|] eqn:E.
  - by apply insert_id.
  - lia.
Qed.

(** X17.  Once every id has been issued, with no listed name containing
    [error], with every listed name that contains [job_timeout] being the
    timeout marker of an id below [Nsims], and with such a marker in the
    directory, [find_jobID] returns an id below [Nsims] whose marker is in
    the directory, and leaves the directory as it was: the job is handed
    out again and stays marked as running. *)
Theorem timeout_redo_returns_marked_job (d : GPutils.config)
    (shuffle : list string → list string) (fs : gmap string string)
    (c : Z) :
  (∀ l, shuffle l ≡ₚ l) →
  distinct_names d →
  counter d fs c →
  (0 < GPutils.Nsims d ≤ c)%Z →
  fs !! GPutils.lockfile d = None →
  (∀ f, listed d fs f → GPutils.contains "error" f = false) →
  (∀ f, listed d fs f → GPutils.contains "job_timeout" f = true →
        ∃ k, f = GPutils.timeout_name d k ∧ (k < GPutils.Nsims d)%Z) →
  (∃ f, is_Some (fs !! f) ∧ GPutils.contains "job_timeout" f = true) →
  ∃ k, (k < GPutils.Nsims d)%Z
       ∧ is_Some (fs !! GPutils.timeout_name d k)
       ∧ GPutils.find_jobID d shuffle fs = (Ok k, fs).
Proof.
  intros Hperm Hnames Hc Hrange Hfree Hnoerr Hmarks (f0 & Hf0 & Hf0m).
  pose proof (jobfile_exists d fs c Hc Hrange) as Hjob.
  destruct Hrange as [Hpos Hge].
  destruct Hnames as [Hlj Hdist].
  assert (Hlock : GPutils.contains "job_timeout" (GPutils.lockfile d) = false).
  { destruct (GPutils.contains "job_timeout" (GPutils.lockfile d)) eqn:E; [|done].
    destruct (Hmarks (GPutils.lockfile d)) as (k & Hk & _); [by right; right | done |].
    destruct (Hdist k) as (Hn & _). by rewrite Hk in Hn. }
  destruct (find_jobID_timeout_redo d shuffle Hlj Hperm fs c Hc Hge Hfree
              Hnoerr) as (f & k & Hf & Hfm & Hfk & Hrun).
  { intros f Hf Hfm. destruct (Hmarks f Hf Hfm) as (k & -> & Hk).
    exists k. split_and!; [|done|by apply Hdist].
    by rewrite id_part_timeout_name, int_str. }
  { exists f0. split; [by left | done]. }
  destruct (Hmarks f Hf Hfm) as (k' & -> & Hk').
  rewrite id_part_timeout_name, int_str in Hfk. injection Hfk as ->.
  assert (Hin : is_Some (fs !! GPutils.timeout_name d k)).
  { destruct Hf as [Hf|[Hf|Hf]]; [done | |].
    - by apply timeout_name_not_jobfile in Hf.
    - rewrite Hf in Hfm. congruence. }
  exists k. split_and!; [done..|].
  rewrite Hrun. simpl. rewrite Hjob.
  destruct Hin as [text Hin]. rewrite Hin. simpl. by rewrite insert_id.
Qed.

(** The names listed in a directory written as a chain of insertions. *)
Ltac listing H :=
  destruct H as [H|[->| ->]];
  [repeat (apply lookup_insert_is_Some' in H as [<-|H]);
   [.. | rewrite lookup_empty in H; by destruct H] | ..].

Lemma doctest_names : distinct_names doctest_settings.
Proof.
  split; [done|]. intros k.
  split_and!; intros H; apply (f_equal (String.get 0)) in H; discriminate H.
Qed.

Lemma timeout_redo_returns_marked_job_witness :
  ∃ k, is_Some (marked_dir !! GPutils.timeout_name doctest_settings k)
       ∧ GPutils.find_jobID doctest_settings id marked_dir
         = (Ok k, marked_dir).
Proof.
  destruct (timeout_redo_returns_marked_job doctest_settings id marked_dir 3)
    as (k & _ & Hin & Hrun).
  - intros l. reflexivity.
  - apply doctest_names.
  - reflexivity.
  - split; [reflexivity | apply Z.le_refl].
  - reflexivity.
  - intros f Hf. unfold marked_dir in Hf. listing Hf; reflexivity.
  - intros f Hf Hfm. unfold marked_dir in Hf.
    listing Hf; try discriminate Hfm.
    exists 1%Z. split; reflexivity.
  - exists "job_timeout_1"%string.
    split; [eexists; reflexivity | reflexivity].
  - exact (ex_intro _ k (conj Hin Hrun)).
Defined.

(** X18.  Once every id has been issued, with every listed name that
    contains [error] being the error pickle of an id below [Nsims], and
    with such a pickle in the directory, [find_jobID] returns an id below
    [Nsims] whose error pickle was there: the pickle is renamed to the
    job's redone pickle with its contents, the job's timeout marker is in
    place, and no other file is touched.  Timeout markers that are also
    there play no part: failed jobs are redone before timed-out ones. *)
Theorem error_redo_renames_pickle (d : GPutils.config)
    (shuffle : list string → list string) (fs : gmap string string)
    (c : Z) :
  (∀ l, shuffle l ≡ₚ l) →
  distinct_names d →
  counter d fs c →
  (0 < GPutils.Nsims d ≤ c)%Z →
  fs !! GPutils.lockfile d = None →
  (∀ f, listed d fs f → GPutils.contains "error" f = true →
        ∃ k, f = GPutils.error_name d k ∧ (k < GPutils.Nsims d)%Z) →
  (∃ f, is_Some (fs !! f) ∧ GPutils.contains "error" f = true) →
  ∃ k payload fs',
    (k < GPutils.Nsims d)%Z
    ∧ fs !! GPutils.error_name d k = Some payload
    ∧ GPutils.find_jobID d shuffle fs = (Ok k, fs')
    ∧ fs' !! GPutils.error_name d k = None
    ∧ fs' !! GPutils.redone_name d k = Some payload
    ∧ is_Some (fs' !! GPutils.timeout_name d k)
    ∧ (∀ name, name ≠ GPutils.error_name d k →
               name ≠ GPutils.redone_name d k →
               name ≠ GPutils.timeout_name d k → fs' !! name = fs !! name).
Proof.
  intros Hperm Hnames Hc Hrange Hfree Herrs (f0 & Hf0 & Hf0m).
  pose proof (jobfile_exists d fs c Hc Hrange) as Hjob.
  destruct Hrange as [Hpos Hge].
  destruct Hnames as [Hlj Hdist].
  assert (Hpresent : ∀ f, listed d fs f → GPutils.contains "error" f = true →
            ∃ k, f = GPutils.error_name d k ∧ (k < GPutils.Nsims d)%Z
                 ∧ is_Some (fs !! GPutils.error_name d k)).
  { intros f Hf Hfm. destruct (Herrs f Hf Hfm) as (k & -> & Hk).
    exists k. split_and!; [done..|].
    destruct (Hdist k) as (_ & _ & Hel & Hej & _).
    by destruct Hf as [Hf|[Hf|Hf]]. }
  destruct (find_jobID_error_redo d shuffle Hlj Hperm fs c Hc Hge Hfree)
    as (f & k & payload & Hf & Hfm & Hfk & Hpay & Hrun).
  { intros f Hf Hfm.
    destruct (Hpresent f Hf Hfm) as (k & -> & Hk & [payload Hpay]).
    destruct (Hdist k) as (Htl & Hrl & Hel & Hej & Her).
    exists k, payload. split_and!; try done.
    - by rewrite id_part_error_name, int_str.
    - apply error_name_not_timeout_name. }
  { exists f0. split; [by left | done]. }
  destruct (Hpresent f Hf Hfm) as (k' & -> & Hk' & _).
  rewrite id_part_error_name, int_str in Hfk. injection Hfk as ->.
  destruct (Hdist k) as (Htl & Hrl & Hel & Hej & Her).
  pose proof (error_name_not_timeout_name d k k) as Het.
  eexists k, payload, _. split_and!; [done | done | exact Hrun | ..].
  - simpl. rewrite lookup_insert_ne by (by apply not_eq_sym).
    apply lookup_delete_eq.
  - simpl. apply lookup_insert_eq.
  - simpl. rewrite Hjob.
    destruct (decide (GPutils.redone_name d k = GPutils.timeout_name d k)) as [E|E].
    + rewrite E, lookup_insert_eq. by eexists.
    + rewrite lookup_insert_ne, lookup_delete_ne, lookup_insert_eq
        by done. by eexists.
  - intros name Hn1 Hn2 Hn3. simpl. rewrite Hjob.
    by rewrite lookup_insert_ne, lookup_delete_ne, lookup_insert_ne
      by (by apply not_eq_sym).
Qed.

Lemma error_redo_renames_pickle_witness :
  ∃ k payload fs',
    failed_dir !! GPutils.error_name doctest_settings k = Some payload
    ∧ GPutils.find_jobID doctest_settings id failed_dir = (Ok k, fs')
    ∧ fs' !! GPutils.error_name doctest_settings k = None
    ∧ fs' !! GPutils.redone_name doctest_settings k = Some payload.
Proof.
  destruct (error_redo_renames_pickle doctest_settings id failed_dir 3)
    as (k & payload & fs' & _ & Hpay & Hrun & Hgone & Hredone & _).
  - intros l. reflexivity.
  - apply doctest_names.
  - reflexivity.
  - split; [reflexivity | apply Z.le_refl].
  - reflexivity.
  - intros f Hf Hfm. unfold failed_dir in Hf.
    listing Hf; try discriminate Hfm.
    exists 2%Z. split; reflexivity.
  - exists "error_2.pickle"%string.
    split; [eexists; reflexivity | reflexivity].
  - exact (ex_intro _ k (ex_intro _ payload (ex_intro _ fs'
             (conj Hpay (conj Hrun (conj Hgone Hredone)))))).
Defined.

(** ** Names of CellML variables *)

Section dup.
Import cellmlmodel.

Lemma remove_each_skip uniq : ∀ x L,
  x ∉ uniq →
  remove_each uniq (x :: L)
  = match remove_each uniq L with
    | Returned D => Returned (x :: D)
    | Raised e => Raised e
    end.
Proof.
  induction uniq as [|i uniq IH]; intros x L Hx; simpl; [done|].
  apply not_elem_of_cons in Hx as [Hxi Hx].
  rewrite decide_False by done.
  destruct (remove i L) as [L'|e]; [by apply IH | done].
Qed.

Lemma remove_each_take u1 : ∀ x u2 L,
  x ∉ u1 →
  remove_each (u1 ++ x :: u2) (x :: L) = remove_each (u1 ++ u2) L.
Proof.
  induction u1 as [|i u1 IH]; intros x u2 L Hx; simpl.
  - by rewrite decide_True.
  - apply not_elem_of_cons in Hx as [Hxi Hx].
    rewrite decide_False by done.
    destruct (remove i L) as [L'|e]; [by apply IH | done].
Qed.

(** Removing the first occurrence of every distinct element that is not in
    [seen] leaves the repeats, in whatever order the elements are taken. *)
Lemma remove_each_repeats L : ∀ uniq seen,
  NoDup uniq →
  (∀ x, x ∈ uniq ↔ x ∈ L ∧ x ∉ seen) →
  remove_each uniq L = Returned (repeats_after seen L).
Proof.
  induction L as [|x L IH]; intros uniq seen Hnd Huniq; simpl.
  - destruct uniq as [|i uniq]; [done|].
    destruct (Huniq i) as [Hi _].
    destruct Hi as [Hi _]; [by left | by apply elem_of_nil in Hi].
  - case_decide as Hseen.
    + assert (Hx : x ∉ uniq) by (intros Hx%Huniq; by destruct Hx).
      rewrite remove_each_skip by done.
      rewrite (IH uniq seen); [done | done |].
      intros y. rewrite Huniq, elem_of_cons. split.
      * intros [[->|Hy] Hys]; done.
      * intros [Hy Hys]. split; [by right | done].
    + assert (Hx : x ∈ uniq) by (apply Huniq; split; [by left | done]).
      apply list_elem_of_split in Hx as (u1 & u2 & ->).
      apply NoDup_app in Hnd as (Hnd1 & Hx1 & Hnd2).
      apply NoDup_cons in Hnd2 as [Hx2 Hnd2].
      assert (Hxu1 : x ∉ u1) by (intros Hx; apply (Hx1 x Hx); by left).
      rewrite remove_each_take by done.
      apply IH.
      * apply NoDup_app. split_and!; [done | | done].
        intros y Hy1 Hy2. apply (Hx1 y Hy1). by right.
      * intros y. rewrite elem_of_app, not_elem_of_cons.
        specialize (Huniq y).
        rewrite elem_of_app, !elem_of_cons in Huniq.
        split.
        -- intros Hy.
           assert (y ≠ x) by (intros ->; by destruct Hy).
           destruct Huniq as [Hu _].
           destruct Hu as [[?|?] ?]; [tauto | done | done].
        -- intros (Hy & Hyx & Hys).
           destruct Huniq as [_ Hu].
           destruct Hu as [?|[?|?]]; [by split; [right|] | by left | done
                                      | by right].
Qed.

Lemma repeats_after_sublist L : ∀ seen, repeats_after seen L `sublist_of` L.
Proof.
  induction L as [|x L IH]; intros seen; simpl; [done|].
  case_decide; [by apply sublist_skip | by apply sublist_cons].
Qed.

Lemma repeats_after_count x L : ∀ seen,
  length (filter (x =.) (repeats_after seen L))
  = if decide (x ∈ seen) then length (filter (x =.) L)
    else pred (length (filter (x =.) L)).
Proof.
  induction L as [|y L IH]; intros seen; simpl.
  - by case_decide.
  - destruct (decide (y ∈ seen)) as [Hy|Hy].
    + rewrite !filter_cons. destruct (decide (x = y)) as [->|Hxy]; simpl.
      * rewrite IH. by rewrite !decide_True.
      * apply IH.
    + rewrite filter_cons, IH.
      destruct (decide (x = y)) as [->|Hxy]; simpl.
      * rewrite decide_True by (by left). by rewrite decide_False.
      * destruct (decide (x ∈ seen)) as [Hx|Hx].
        -- by rewrite decide_True by (by right).
        -- rewrite decide_False; [done|].
           by intros [?|?]%elem_of_cons.
Qed.

Lemma repeats_after_nil L : ∀ seen,
  repeats_after seen L = [] ↔ NoDup L ∧ ∀ x, x ∈ L → x ∉ seen.
Proof.
  induction L as [|y L IH]; intros seen; simpl.
  - split; [|done]. intros _. split; [constructor|].
    intros x Hx. by apply elem_of_nil in Hx.
  - case_decide as Hy.
    + split; [done|]. intros [_ Hall]. exfalso. by apply (Hall y); [left|].
    + rewrite IH, NoDup_cons. split.
      * intros [Hnd Hall]. split_and!; [|done|].
        -- intros Hin. apply (Hall y Hin). by left.
        -- intros x [->|Hx]%elem_of_cons; [done|].
           intros Hxs. apply (Hall x Hx). by right.
      * intros [[Hy' Hnd] Hall]. split; [done|].
        intros x Hx [->|Hxs]%elem_of_cons; [done|].
        apply (Hall x); [by right | done].
Qed.
End dup.

(** X19.  [dup(L)] never raises, and what it returns does not depend on
    the order in which the set of elements is iterated: it is the list of
    the elements of [L] that repeat an earlier one, in their order in [L].
    Every element occurs in it once less than in [L], and it is empty
    exactly when [L] has no duplicates. *)
Theorem dup_returns_repeats (order : list string → list string)
    (L : list string) :
  (∀ l, order l ≡ₚ l) →
  ∃ D,
    cellmlmodel.dup order L = cellmlmodel.Returned D
    ∧ D = repeats L
    ∧ D `sublist_of` L
    ∧ (∀ x, length (filter (x =.) D) = pred (length (filter (x =.) L)))
    ∧ (D = [] ↔ NoDup L).
Proof.
  intros Hperm. exists (repeats L). split_and!.
  - unfold cellmlmodel.dup. apply remove_each_repeats.
    + rewrite Hperm. apply NoDup_remove_dups.
    + intros x. rewrite Hperm, elem_of_remove_dups.
      split; [intros Hx; split; [done | by intros ?%elem_of_nil] | by intros []].
  - done.
  - apply repeats_after_sublist.
  - intros x. unfold repeats. rewrite repeats_after_count.
    rewrite decide_False; [done | by intros ?%elem_of_nil].
  - unfold repeats. rewrite repeats_after_nil. split; [by intros [] |].
    intros Hnd. split; [done|]. by intros x _ ?%elem_of_nil.
Qed.

Lemma dup_returns_repeats_witness :
  cellmlmodel.dup reverse ["a"; "b"; "a"; "c"; "b"; "a"]
  = cellmlmodel.Returned ["a"; "b"; "a"].
Proof.
  destruct (dup_returns_repeats reverse ["a"; "b"; "a"; "c"; "b"; "a"])
    as (D & Hrun & -> & _).
  - intros l. apply reverse_Permutation.
  - exact Hrun.
Defined.

Section dtypes.
Import cellmlmodel.
Context (order : list string → list string).
Hypothesis Hperm : ∀ l, order l ≡ₚ l.

Lemma dup_run L : dup order L = Returned (repeats L).
Proof using Hperm.
  unfold dup. apply remove_each_repeats.
  - rewrite Hperm. apply NoDup_remove_dups.
  - intros x. rewrite Hperm, elem_of_remove_dups.
    split; [intros Hx; split; [done | by intros ?%elem_of_nil] | by intros []].
Qed.

Lemma repeats_nil L : repeats L = [] ↔ NoDup L.
Proof.
  unfold repeats. rewrite repeats_after_nil. split; [by intros [] |].
  intros Hnd. split; [done|]. by intros x _ ?%elem_of_nil.
Qed.

Lemma rename_nil names : rename [] names = names.
Proof.
  unfold rename. rewrite (imap_ext _ (const id)).
  - rewrite imap_const. apply list_fmap_id.
  - intros i n _. case_bool_decide as Hn; [by apply elem_of_nil in Hn | done].
Qed.

Lemma dups_of_run items : dups_of order items = Returned (named items).
Proof using Hperm.
  induction items as [|[k [v|]] items IH]; simpl; [done| |done].
  by rewrite dup_run, IH.
Qed.

Lemma elem_of_named items k dn :
  (k, dn) ∈ named items ↔
  ∃ v, (k, Some v) ∈ items ∧ dn = repeats (name v).
Proof.
  unfold named. rewrite list_elem_of_omap. split.
  - intros ([k' [v|]] & Hin & Heq); simpl in Heq; [|done].
    injection Heq as <- <-. eauto.
  - intros (v & Hin & ->). by exists (k, Some v).
Qed.

Lemma named_keys items : (named items).*1 `sublist_of` items.*1.
Proof.
  induction items as [|[k [v|]] items IH]; simpl; [done| |].
  - by apply sublist_skip.
  - by apply sublist_cons.
Qed.
End dtypes.

Section disambiguate.
Import cellmlmodel.
Context (order : list string → list string).
Hypothesis Hperm : ∀ l, order l ≡ₚ l.

Lemma disambiguate_ok d : ∀ L,
  NoDup d.*1 →
  (∀ k dn, (k, dn) ∈ d →
           ∃ v, L !! k = Some (Some v) ∧ dn = repeats (name v)) →
  (∀ k dn v, (k, dn) ∈ d → L !! k = Some (Some v) →
             NoDup (disambiguated (name v))) →
  ∃ L', disambiguate order d L = Returned L'
        ∧ ∀ k, L' !! k = if decide (k ∈ d.*1)
                         then fmap relabel <$> L !! k
                         else L !! k.
Proof using Hperm.
  induction d as [|[k dn] d IH]; intros L Hnd Hd Hok; simpl.
  - exists L. split; [done|]. intros k.
    destruct (decide (k ∈ ([] : list (string * list string)).*1)) as [H|H];
      [by apply elem_of_nil in H | done].
  - destruct (Hd k dn) as (v & Hv & ->); [by left|]. rewrite Hv.
    change (rename (repeats (name v)) (name v))
      with (disambiguated (name v)).
    rewrite (dup_run order Hperm).
    assert (repeats (disambiguated (name v)) = []) as ->.
    { apply repeats_nil. apply (Hok k (repeats (name v)) v); [by left | done]. }
    apply NoDup_cons in Hnd as [Hk Hnd].
    assert (Hother : ∀ k' dn', (k', dn') ∈ d → k' ≠ k).
    { intros k' dn' Hin ->. apply Hk. apply list_elem_of_fmap.
      by exists (k, dn'). }
    change (mkLegend (disambiguated (name v)) (component v) (unit v))
      with (relabel v).
    destruct (IH (<[k := Some (relabel v)]> L)) as (L' & Hrun & HL').
    + done.
    + intros k' dn' Hin. rewrite lookup_insert_ne
        by (apply not_eq_sym; by eapply Hother).
      apply Hd. by right.
    + intros k' dn' v' Hin. rewrite lookup_insert_ne
        by (apply not_eq_sym; by eapply Hother).
      apply (Hok k' dn' v'). by right.
    + exists L'. split; [done|]. intros k'. rewrite HL'.
      destruct (decide (k' = k)) as [->|Hne].
      * rewrite decide_False by done. rewrite lookup_insert_eq.
        rewrite decide_True by (by left). by rewrite Hv.
      * rewrite lookup_insert_ne by done.
        destruct (decide (k' ∈ d.*1)) as [Hin|Hin].
        -- by rewrite decide_True by (by right).
        -- rewrite decide_False; [done|]. by intros [?|?]%elem_of_cons.
Qed.

Lemma disambiguate_fails d : ∀ L,
  NoDup d.*1 →
  (∀ k dn, (k, dn) ∈ d →
           ∃ v, L !! k = Some (Some v) ∧ dn = repeats (name v)) →
  (∃ k dn v, (k, dn) ∈ d ∧ L !! k = Some (Some v)
             ∧ ¬ NoDup (disambiguated (name v))) →
  ∃ msg, disambiguate order d L = Raised (AssertionError msg).
Proof using Hperm.
  induction d as [|[k dn] d IH]; intros L Hnd Hd (kb & dnb & vb & Hb & Hvb & Hbad);
    simpl.
  - by apply elem_of_nil in Hb.
  - destruct (Hd k dn) as (v & Hv & ->); [by left|]. rewrite Hv.
    change (rename (repeats (name v)) (name v))
      with (disambiguated (name v)).
    rewrite (dup_run order Hperm).
    destruct (repeats (disambiguated (name v))) as [|x D] eqn:Hrep;
      [|by eexists].
    apply repeats_nil in Hrep.
    apply NoDup_cons in Hnd as [Hk Hnd].
    assert (Hother : ∀ k' dn', (k', dn') ∈ d → k' ≠ k).
    { intros k' dn' Hin ->. apply Hk. apply list_elem_of_fmap.
      by exists (k, dn'). }
    apply elem_of_cons in Hb as [[= -> ->]|Hb].
    { exfalso. apply Hbad. congruence. }
    apply IH; [done | |].
    + intros k' dn' Hin. rewrite lookup_insert_ne
        by (apply not_eq_sym; by eapply Hother).
      apply Hd. by right.
    + exists kb, dnb, vb. split_and!; [done | | done].
      rewrite lookup_insert_ne by (apply not_eq_sym; by eapply Hother).
      done.
Qed.
End disambiguate.

Section dtypes_run.
Import cellmlmodel.
Context (order : list string → list string)
  (legend : gmap string (option Legend)).
Hypothesis Hperm : ∀ l, order l ≡ₚ l.

Local Abbreviation d :=
  (filter (λ kv : string * list string, kv.2 ≠ [])
     (named (map_to_list legend))).

Lemma elem_of_duplicated k dn :
  (k, dn) ∈ d ↔
  ∃ v, legend !! k = Some (Some v) ∧ dn = repeats (name v) ∧ dn ≠ [].
Proof.
  rewrite list_elem_of_filter, elem_of_named. simpl. split.
  - intros (Hne & v & Hin%elem_of_map_to_list & ->). eauto.
  - intros (v & Hin & -> & Hne). split; [done|]. exists v.
    by rewrite elem_of_map_to_list.
Qed.

Lemma duplicated_keys : NoDup d.*1.
Proof.
  apply (sublist_NoDup _ (map_to_list legend).*1);
    [apply (NoDup_fst_map_to_list legend)|].
  etrans; [|apply named_keys]. apply fmap_sublist, sublist_filter.
Qed.

Lemma not_duplicated k v :
  legend !! k = Some (Some v) → k ∉ d.*1 → repeats (name v) = [].
Proof.
  intros Hv Hk. destruct (repeats (name v)) as [|x D] eqn:E; [done|].
  exfalso. apply Hk. apply list_elem_of_fmap. exists (k, x :: D).
  split; [done|]. apply elem_of_duplicated. exists v. by rewrite E.
Qed.

Lemma dtypes_unfold :
  dtypes order legend
  = match disambiguate order d legend with
    | Raised e => Raised e
    | Returned L => Returned ((λ v : option Legend, name <$> v) <$> L)
    end.
Proof using Hperm.
  unfold dtypes. rewrite (dups_of_run order Hperm).
  case_decide as E; [by rewrite E | done].
Qed.
End dtypes_run.

(** X20.  [dtypes(legend)] for a legend whose entries are [None] or hold
    names: in every entry, each name that occurs more than once gets [__]
    and its position appended, and the other names stay.  If the names of
    every entry are then distinct, [dtypes] returns these names for every
    key (and [None] where the legend has [None]); if in some entry they
    are not, it raises AssertionError.  An entry without duplicate names
    is returned as it is. *)
Theorem dtypes_disambiguates (order : list string → list string)
    (legend : gmap string (option cellmlmodel.Legend)) :
  (∀ l, order l ≡ₚ l) →
  ((∀ k v, legend !! k = Some (Some v) →
           NoDup (disambiguated (cellmlmodel.name v))) →
   cellmlmodel.dtypes order legend
   = cellmlmodel.Returned
       ((λ v : option cellmlmodel.Legend,
           (λ v, disambiguated (cellmlmodel.name v)) <$> v) <$> legend))
  ∧ ((∃ k v, legend !! k = Some (Some v)
             ∧ ¬ NoDup (disambiguated (cellmlmodel.name v))) →
     ∃ msg, cellmlmodel.dtypes order legend
            = cellmlmodel.Raised (cellmlmodel.AssertionError msg))
  ∧ (∀ names, NoDup names → disambiguated names = names)
  ∧ (∀ names i n, names !! i = Some n →
       disambiguated names !! i
       = Some (if decide (1 < length (filter (n =.) names))
               then (n ++ "__" ++ GPutils.str (Z.of_nat i))%string
               else n)).
Proof.
  intros Hperm. split_and!.
  - intros Hok. rewrite (dtypes_unfold order legend Hperm).
    destruct (disambiguate_ok order Hperm _ legend
                (duplicated_keys legend)) as (L' & -> & HL').
    + intros k dn (v & Hv & -> & _)%elem_of_duplicated. eauto.
    + intros k dn v _ Hv. by apply (Hok k).
    + f_equal. apply map_eq. intros k. rewrite !lookup_fmap, HL'.
      destruct (legend !! k) as [[v|]|] eqn:Hv; simpl.
      * case_decide as Hk; simpl; [done|].
        unfold disambiguated.
        by rewrite (not_duplicated legend k v Hv Hk), rename_nil.
      * by case_decide.
      * by case_decide.
  - intros (k & v & Hv & Hbad). rewrite (dtypes_unfold order legend Hperm).
    destruct (disambiguate_fails order Hperm _ legend
                (duplicated_keys legend)) as (msg & ->); [| |by eexists].
    + intros k' dn (v' & Hv' & -> & _)%elem_of_duplicated. eauto.
    + exists k, (repeats (cellmlmodel.name v)), v. split_and!; [|done..].
      apply elem_of_duplicated. exists v. split_and!; [done..|].
      intros Hnil. apply Hbad. unfold disambiguated.
      rewrite Hnil, rename_nil. by apply repeats_nil.
  - intros names Hnd%repeats_nil. unfold disambiguated.
    by rewrite Hnd, rename_nil.
  - intros names i n Hn. unfold disambiguated, cellmlmodel.rename.
    rewrite list_lookup_imap, Hn. simpl. f_equal.
    assert (Hrep : n ∈ repeats names ↔ 1 < length (filter (n =.) names)).
    { pose proof (repeats_after_count n names []) as Hc.
      rewrite decide_False in Hc by (by intros ?%elem_of_nil).
      fold (repeats names) in Hc.
      assert (n ∈ repeats names ↔ 0 < length (filter (n =.) (repeats names)))
        as ->; [|lia].
      split.
      - intros Hin.
        assert (n ∈ filter (n =.) (repeats names))
          by (by apply list_elem_of_filter).
        destruct (filter (n =.) (repeats names)); [|simpl; lia].
        by apply elem_of_nil in H.
      - intros Hlen.
        destruct (filter (n =.) (repeats names)) as [|x l] eqn:E;
          [simpl in Hlen; lia|].
        assert (Hx : x ∈ filter (n =.) (repeats names))
          by (rewrite E; by left).
        apply list_elem_of_filter in Hx as [<- Hx]. done. }
    case_bool_decide as Hin; case_decide as Hlen; try done.
    + by apply Hrep in Hin.
    + by apply Hrep in Hlen.
Qed.

Lemma dtypes_disambiguates_witness :
  ∃ DT,
    cellmlmodel.dtypes id twice_legend = cellmlmodel.Returned DT
    ∧ DT !! "y" = Some (Some ["V__0"; "V__1"; "Ki"])
    ∧ DT !! "a" = Some None.
Proof.
  destruct (dtypes_disambiguates id twice_legend) as (Hok & _).
  - intros l. reflexivity.
  - eexists. split; [apply Hok|].
    + intros k v Hv. unfold twice_legend in Hv.
      apply lookup_insert_Some in Hv as [[_ Hv]|[_ Hv]].
      * injection Hv as <-. apply (bool_decide_unpack _).
        vm_compute. exact I.
      * apply lookup_insert_Some in Hv as [[_ Hv]|[_ Hv]];
          [discriminate Hv|].
        rewrite lookup_empty in Hv. discriminate Hv.
    + rewrite !lookup_fmap. unfold twice_legend.
      rewrite lookup_insert_eq.
      rewrite lookup_insert_ne by discriminate.
      rewrite lookup_insert_eq. split; [|reflexivity].
      vm_compute. reflexivity.
Defined.
